(** * textewien-points-scraper: the extractor and the reconciler of [scrape.ts]

    A shallow embedding of [src/scrape.ts]: the points extraction
    ([parsePointsFromLi]) with its three regular expressions, the item loop
    that builds [parsedEntries], and the merge of the parsed entries into the
    persisted history through a JavaScript [Map].

    External collaborators are not re-implemented: cheerio is an interface
    ([CheerioAPI]), the WHATWG URL resolution ([new URL(href, base).href])
    and [String.prototype.localeCompare] are variables of the sections
    below; the wall clock ([new Date()]) is a state that every reading
    advances. *)

From Stdlib Require Import Ascii String.
From Stdlib Require Import List ZArith NArith Lia Bool Permutation.
Import ListNotations.
Local Open Scope Z_scope.

(* ================================================================== *)
(** ** JavaScript strings as sequences of UTF-16 code units            *)
(* ================================================================== *)

Module JsString.

Definition char := N.
Definition str := list char.

(** A string literal of the source, as code units (ASCII only). *)
Definition lit (s : string) : str := map N_of_ascii (list_ascii_of_string s).

Fixpoint str_eqb (a b : str) : bool :=
  match a, b with
  | [], [] => true
  | x :: a', y :: b' => N.eqb x y && str_eqb a' b'
  | _, _ => false
  end.

(** Truthiness of a string: only the empty string is falsy. *)
Definition truthy (s : str) : bool :=
  match s with [] => false | _ :: _ => true end.

(** [a || b] on strings. *)
Definition or_else (a b : str) : str := if truthy a then a else b.

(** [v || ""] for a string that may be undefined or null. *)
Definition or_empty (v : option str) : str :=
  match v with
  | Some s => s
  | None => []
  end.

(** [\d]: the ten ASCII digits, with or without the [i] flag. *)
Definition is_digit (c : char) : bool := (48 <=? c)%N && (c <=? 57)%N.

(** [\s], which is also what [trim] strips: WhiteSpace and LineTerminator of
    ECMAScript. *)
Definition is_space (c : char) : bool :=
  ((9 <=? c)%N && (c <=? 13)%N)
  || (c =? 32)%N || (c =? 160)%N || (c =? 5760)%N
  || ((8192 <=? c)%N && (c <=? 8202)%N)
  || (c =? 8232)%N || (c =? 8233)%N || (c =? 8239)%N || (c =? 8287)%N
  || (c =? 12288)%N || (c =? 65279)%N.

(** Canonicalize of a non-unicode, ignore-case regular expression. It is
    exact on ASCII, and a code unit from 128 on is never mapped below 128,
    which is all that comparing with the ASCII pattern characters of the
    source needs. *)
Definition canon (c : char) : char :=
  if (97 <=? c)%N && (c <=? 122)%N then (c - 32)%N else c.

Fixpoint takeWhile (p : char -> bool) (s : str) : str :=
  match s with
  | c :: s' => if p c then c :: takeWhile p s' else []
  | [] => []
  end.

Fixpoint dropWhile (p : char -> bool) (s : str) : str :=
  match s with
  | c :: s' => if p c then dropWhile p s' else s
  | [] => []
  end.

(** [s.trim()] *)
Definition trim (s : str) : str :=
  rev (dropWhile is_space (rev (dropWhile is_space s))).

(** [s.replace(/\s+/g, " ")]: every maximal run of white space becomes one
    space. *)
Fixpoint collapse_ws (s : str) : str :=
  match s with
  | [] => []
  | c :: s' =>
      if is_space c
      then match s' with
           | d :: _ => if is_space d then collapse_ws s' else 32%N :: collapse_ws s'
           | [] => [32%N]
           end
      else c :: collapse_ws s'
  end.

Definition digit_val (c : char) : Z := Z.of_N c - 48.

(** Value of a digit string read in base ten, most significant digit first. *)
Definition digits_value (ds : str) : Z :=
  fold_left (fun acc c => 10 * acc + digit_val c) ds 0.

(** [parseInt(s, 10)]: leading white space is skipped, a sign is read, the
    longest prefix of digits is the value; [None] is NaN. *)
Definition parseInt10 (s : str) : option Z :=
  let s1 := dropWhile is_space s in
  let '(sign, s2) :=
    match s1 with
    | 45%N :: t => (-1, t)
    | 43%N :: t => (1, t)
    | _ => (1, s1)
    end in
  match takeWhile is_digit s2 with
  | [] => None
  | ds => Some (sign * digits_value ds)
  end.

End JsString.
Import JsString.

(* ================================================================== *)
(** ** A backtracking matcher for the regular expressions of the source *)
(* ================================================================== *)

Module Regex.

(** The fragment the three patterns use: character tests, sequence,
    alternation, a greedy quantifier over a character test, and the
    capturing group. *)
Inductive regex : Type :=
| Chr (p : char -> bool)
| Seq (r1 r2 : regex)
| Alt (r1 r2 : regex)
| Quant (p : char -> bool) (lo : nat) (hi : option nat)
| Group (r : regex).

(** Greedy [p{lo,hi}] followed by the continuation [k]: as many characters
    as allowed are taken first, and one is given back each time the rest of
    the pattern fails. *)
Fixpoint greedy {R} (p : char -> bool) (lo hi : nat) (k : str -> option R)
    (s : str) : option R :=
  let stop := match lo with O => k s | S _ => None end in
  match hi, s with
  | S hi', c :: s' =>
      if p c
      then match greedy p (Nat.pred lo) hi' k s' with
           | Some r => Some r
           | None => stop
           end
      else stop
  | _, _ => stop
  end.

(** Match [r] at the start of [s], then the continuation on what is left;
    [cap] is capture 1. Alternatives are tried left to right. *)
Fixpoint rmatch {R} (r : regex) (k : str -> option str -> option R)
    (s : str) (cap : option str) : option R :=
  match r with
  | Chr p =>
      match s with
      | c :: s' => if p c then k s' cap else None
      | [] => None
      end
  | Seq r1 r2 => rmatch r1 (fun s' cap' => rmatch r2 k s' cap') s cap
  | Alt r1 r2 =>
      match rmatch r1 k s cap with
      | Some x => Some x
      | None => rmatch r2 k s cap
      end
  | Quant p lo hi =>
      greedy p lo (match hi with Some h => h | None => length s end)
             (fun s' => k s' cap) s
  | Group r1 =>
      rmatch r1 (fun s' _ => k s' (Some (firstn (length s - length s') s))) s cap
  end.

(** [s.match(r)] without the [g] flag: the leftmost start position at which
    [r] matches; the result is capture 1 ([m[1]], [None] when undefined). *)
Fixpoint exec (r : regex) (s : str) : option (option str) :=
  match rmatch r (fun _ cap => Some cap) s None with
  | Some cap => Some cap
  | None =>
      match s with
      | [] => None
      | _ :: s' => exec r s'
      end
  end.

(** A literal character, case-sensitive or under the [i] flag. *)
Definition chr (ignoreCase : bool) (c : char) : regex :=
  if ignoreCase then Chr (fun x => N.eqb (canon x) (canon c)) else Chr (N.eqb c).

(** A literal word of at least one character. *)
Fixpoint word_from (ignoreCase : bool) (c : char) (w : str) : regex :=
  match w with
  | [] => chr ignoreCase c
  | d :: w' => Seq (chr ignoreCase c) (word_from ignoreCase d w')
  end.

Definition word (ignoreCase : bool) (w : string) : regex :=
  match lit w with
  | [] => Quant (fun _ => false) 0 (Some 0%nat)
  | c :: w' => word_from ignoreCase c w'
  end.

(** [(\d{1,5})] *)
Definition digits_1_5 : regex := Group (Quant is_digit 1 (Some 5%nat)).

(** [/(\d{1,5})/] *)
Definition re_digits : regex := digits_1_5.

(** [/pt-(\d{1,5})/] *)
Definition re_pt : regex := Seq (word false "pt-") digits_1_5.

(** [(?:\s*Punkte|\s*punkt|<\/span>|\))] under the [i] flag *)
Definition suffix_alternatives : regex :=
  Alt (Seq (Quant is_space 0 None) (word true "Punkte"))
 (Alt (Seq (Quant is_space 0 None) (word true "punkt"))
 (Alt (word true "</span>")
      (word true ")"))).

(** [/(?:\(|\s)(\d{1,5})(?:\s*Punkte|\s*punkt|<\/span>|\))/i] *)
Definition re_markup : regex :=
  Seq (Alt (word true "(") (Chr is_space))
      (Seq digits_1_5 suffix_alternatives).

End Regex.
Import Regex.

(* ================================================================== *)
(** ** cheerio, as far as [scrape.ts] uses it                          *)
(* ================================================================== *)

(** The library is not part of the program. Its selections, and the
    operations called on them, are an interface; the statements below hold
    for every implementation of it. [Tree] further down is one, on which the
    program runs. *)
Class CheerioAPI : Type := {
  (** [cheerio.Cheerio]: a selection *)
  Cheerio : Type;
  (** a node that [each] hands to its callback *)
  Element : Type;
  (** [$(el)] *)
  wrap : Element -> Cheerio;
  (** [$x.find(selector)] *)
  find : str -> Cheerio -> Cheerio;
  (** [$x.first()] *)
  first : Cheerio -> Cheerio;
  (** [$x.length] *)
  sel_length : Cheerio -> nat;
  (** [$x.text()] *)
  text : Cheerio -> str;
  (** [$x.attr(name)]; [None] is undefined *)
  attr : str -> Cheerio -> option str;
  (** [$x.html()]; [None] is null *)
  html : Cheerio -> option str
}.

(* ================================================================== *)
(** ** The data model of [scrape.ts]                                   *)
(* ================================================================== *)

(** A JavaScript number as far as this program meets one: an integer, or
    NaN. *)
Inductive number : Type :=
| NaN
| Num (z : Z).

(** [a !== b] on numbers: NaN differs from everything, itself included. *)
Definition strict_neq (a b : number) : bool :=
  match a, b with
  | Num x, Num y => negb (Z.eqb x y)
  | _, _ => true
  end.

Record ScorePoint : Type := { timestamp : str; points : number }.

Record TextEntry : Type := { name : str; url : str; score : list ScorePoint }.

Definition Schema := list TextEntry.

(** [e.url || e.name], the key of the working map. *)
Definition entry_key (e : TextEntry) : str := or_else (url e) (name e).

(** [parseInt(m[1], 10)] on the result of a match. *)
Definition parseInt_group (m1 : option str) : number :=
  match m1 with
  | Some g => match parseInt10 g with Some z => Num z | None => NaN end
  | None => NaN
  end.

(** [normalizeName] *)
Definition normalizeName (s : str) : str := trim (collapse_ws s).

(* ================================================================== *)
(** ** The clock                                                       *)
(* ================================================================== *)

(** The world a run sees: [clock n] is the ISO string that the [n]-th
    evaluation of [new Date().toISOString()] returns, [reads] counts the
    evaluations so far. *)
Record World : Type := { clock : nat -> str; reads : nat }.

Definition Run (A : Type) : Type := World -> A * World.

Definition ret {A} (a : A) : Run A := fun w => (a, w).

Definition bind {A B} (c : Run A) (f : A -> Run B) : Run B :=
  fun w => let '(a, w') := c w in f a w'.

Notation "x <- c ;; k" := (bind c (fun x => k))
  (at level 61, c at next level, right associativity).

(** [new Date().toISOString()] *)
Definition now_iso : Run str :=
  fun w => (clock w (reads w), {| clock := clock w; reads := S (reads w) |}).

(* ================================================================== *)
(** ** The extractor                                                   *)
(* ================================================================== *)

Section Extractor.

Context {api : CheerioAPI}.

(** [new URL(href, base).href] for the base of the run; [None] when the
    constructor throws. *)
Variable resolveUrl : str -> option str.

Definition parsePointsFromLi (li : Cheerio) : number :=
  let divText := trim (text (first (find (lit "div.punkte") li))) in
  match (if truthy divText then exec re_digits divText else None) with
  | Some m => parseInt_group m
  | None =>
      let classList :=
        or_empty (attr (lit "class") li) ++ lit " "
        ++ or_empty (attr (lit "class") (find (lit "div") li)) in
      match exec re_pt classList with
      | Some m2 => parseInt_group m2
      | None =>
          let liHtml := or_empty (html li) in
          match exec re_markup liHtml with
          | Some m3 => parseInt_group m3
          | None => Num 0
          end
      end
  end.

(** The callback of [itemsFallback.each]: one item, pushed onto
    [parsedEntries] unless it has no link. *)
Definition each_item (parsedEntries : list TextEntry) (el : Element)
  : Run (list TextEntry) :=
  let li := wrap el in
  let a := first (find (lit "a") li) in
  if (sel_length a =? 0)%nat
  then ret parsedEntries
  else
    let name := normalizeName (text a) in
    let href := or_empty (attr (lit "href") a) in
    let href := match resolveUrl href with
                | Some u => u
                | None => href
                end in
    let points := parsePointsFromLi li in
    ts <- now_iso ;;
    ret (parsedEntries
         ++ [{| name := name; url := href;
                score := [{| timestamp := ts; points := points |}] |}]).

Fixpoint each (items : list Element) (parsedEntries : list TextEntry)
  : Run (list TextEntry) :=
  match items with
  | [] => ret parsedEntries
  | el :: rest =>
      acc <- each_item parsedEntries el ;;
      each rest acc
  end.

(** Lines 89 to 110: the parsed entries of the selected items. *)
Definition extract (items : list Element) : Run (list TextEntry) := each items [].

End Extractor.

(* ================================================================== *)
(** ** The working map and the merge                                   *)
(* ================================================================== *)

(** A JavaScript [Map<string, TextEntry>]: the bindings in insertion
    order. *)
Definition JsMap := list (str * TextEntry).

Fixpoint map_get (k : str) (m : JsMap) : option TextEntry :=
  match m with
  | [] => None
  | (k', v) :: rest => if str_eqb k' k then Some v else map_get k rest
  end.

(** [m.set(k, v)]: a present key keeps its place and takes the new value, an
    absent one is added at the end. *)
Fixpoint map_set (k : str) (v : TextEntry) (m : JsMap) : JsMap :=
  match m with
  | [] => [(k, v)]
  | (k', v') :: rest =>
      if str_eqb k' k then (k', v) :: rest else (k', v') :: map_set k v rest
  end.

(** [Array.from(m.values())] *)
Definition map_values (m : JsMap) : list TextEntry := map snd m.

Fixpoint last_opt {A} (l : list A) : option A :=
  match l with
  | [] => None
  | [x] => Some x
  | _ :: l' => last_opt l'
  end.

(** [e.score.push(sp)], the entry being an object that the map refers to. *)
Definition push_score (e : TextEntry) (sp : ScorePoint) : TextEntry :=
  {| name := name e; url := url e; score := score e ++ [sp] |}.

(** Lines 113 and 114. *)
Definition index_existing (existing : Schema) : JsMap :=
  fold_left (fun m e => map_set (entry_key e) e m) existing [].

(** The body of the loop of lines 116 to 133. [None] is the TypeError of
    [p.score[0].points] when [p.score] is empty; the log lines are left
    out. The object that [push] changes is reached through its binding
    alone: the loaded array is not read again, and a parsed entry is read
    when the loop visits it, before anything is pushed onto it. Giving the
    binding the changed entry is the mutation. *)
Definition merge_one (m : JsMap) (p : TextEntry) : option JsMap :=
  let key := entry_key p in
  match map_get key m with
  | None =>
      match score p with
      | [] => None
      | _ :: _ => Some (map_set key p m)
      end
  | Some existingEntry =>
      let last := last_opt (score existingEntry) in
      match score p with
      | [] => None
      | p0 :: _ =>
          let currentPoints := points p0 in
          if match last with
             | None => true
             | Some l => strict_neq (points l) currentPoints
             end
          then Some (map_set key
                       (push_score existingEntry
                          {| timestamp := timestamp p0; points := currentPoints |})
                       m)
          else Some m
      end
  end.

Fixpoint merge_all (m : JsMap) (parsedEntries : list TextEntry) : option JsMap :=
  match parsedEntries with
  | [] => Some m
  | p :: rest =>
      match merge_one m p with
      | Some m' => merge_all m' rest
      | None => None
      end
  end.

Section Reconciler.

(** [a.localeCompare(b, undefined, { sensitivity: "base" })] *)
Variable localeCompare : str -> str -> Z.

(** The place of [e] in an array already sorted: before the first element
    that the comparator does not put before it. *)
Fixpoint sort_insert (e : TextEntry) (l : list TextEntry) : list TextEntry :=
  match l with
  | [] => [e]
  | x :: l' =>
      if localeCompare (name e) (name x) <=? 0
      then e :: x :: l'
      else x :: sort_insert e l'
  end.

(** [arr.sort(cmp)], which is stable. *)
Fixpoint sort_by_name (l : list TextEntry) : list TextEntry :=
  match l with
  | [] => []
  | e :: l' => sort_insert e (sort_by_name l')
  end.

(** Lines 112 to 137 without the file: the loaded history and the parsed
    entries give the array that is saved. *)
Definition reconcile (existing : Schema) (parsedEntries : list TextEntry)
  : option Schema :=
  match merge_all (index_existing existing) parsedEntries with
  | Some m => Some (sort_by_name (map_values m))
  | None => None
  end.

End Reconciler.

Section Main.

Context {api : CheerioAPI}.
Variable resolveUrl : str -> option str.
Variable localeCompare : str -> str -> Z.

(** One run on the selected items and the loaded history. *)
Definition main (items : list Element) (existing : Schema) : Run (option Schema) :=
  parsedEntries <- extract resolveUrl items ;;
  ret (reconcile localeCompare existing parsedEntries).

End Main.

(* ================================================================== *)
(** ** The three extraction strategies, as the specification words them *)
(* ================================================================== *)

Module Spec.

(** [w] at the start of [s], characters compared by [eq]: what follows it. *)
Fixpoint strip_prefix (eq : char -> char -> bool) (w s : str) : option str :=
  match w, s with
  | [], _ => Some s
  | c :: w', d :: s' => if eq c d then strip_prefix eq w' s' else None
  | _ :: _, [] => None
  end.

Definition same (c d : char) : bool := N.eqb c d.
Definition same_ci (c d : char) : bool := N.eqb (canon d) (canon c).

Definition starts_with (eq : char -> char -> bool) (w : string) (s : str) : bool :=
  match strip_prefix eq (lit w) s with
  | Some _ => true
  | None => false
  end.

(** The first run of digits of [s], cut after five digits. *)
Definition first_digit_run (s : str) : option str :=
  match dropWhile (fun c => negb (is_digit c)) s with
  | [] => None
  | s' => Some (firstn 5 (takeWhile is_digit s'))
  end.

(** [pt-] and digits at the start of [s]: the digits, five at most. *)
Definition pt_here (s : str) : option str :=
  match strip_prefix same (lit "pt-") s with
  | Some rest =>
      match takeWhile is_digit rest with
      | [] => None
      | run => Some (firstn 5 run)
      end
  | None => None
  end.

(** The digits, at most five, after the first [pt-] that a digit follows. *)
Fixpoint pt_token (s : str) : option str :=
  match pt_here s with
  | Some ds => Some ds
  | None =>
      match s with
      | [] => None
      | _ :: s' => pt_token s'
      end
  end.

(** What may follow the number in the markup: a points-unit word after
    optional white space, the closing tag, or a closing parenthesis; letters
    in either case. *)
Definition unit_follows (s : str) : bool :=
  starts_with same_ci "Punkte" (dropWhile is_space s)
  || starts_with same_ci "punkt" (dropWhile is_space s)
  || starts_with same_ci "</span>" s
  || starts_with same_ci ")" s.

(** The number at the start of [s]: a whole run of one to five digits that
    [unit_follows]. *)
Definition number_here (s : str) : option str :=
  let run := takeWhile is_digit s in
  if (1 <=? length run)%nat && (length run <=? 5)%nat
     && unit_follows (dropWhile is_digit s)
  then Some run
  else None.

(** The first number of the markup that stands right after an opening
    parenthesis or a white-space character. *)
Fixpoint markup_scan (s : str) : option str :=
  match s with
  | [] => None
  | c :: s' =>
      match (if same_ci (40%N) c || is_space c then number_here s' else None) with
      | Some ds => Some ds
      | None => markup_scan s'
      end
  end.

Section Tiers.

Context {api : CheerioAPI}.

(** Tier 1: the text of the score label. *)
Definition score_label (li : Cheerio) : option str :=
  first_digit_run (text (first (find (lit "div.punkte") li))).

(** Tier 2: the class names of the item, then those of its first [div]. *)
Definition class_token (li : Cheerio) : option str :=
  match pt_token (or_empty (attr (lit "class") li)) with
  | Some ds => Some ds
  | None => pt_token (or_empty (attr (lit "class") (find (lit "div") li)))
  end.

(** Tier 3: the inner markup of the item. *)
Definition markup_number (li : Cheerio) : option str :=
  markup_scan (or_empty (html li)).

(** The tiers in order, the first success wins, 0 when all fail. *)
Definition points_of (li : Cheerio) : number :=
  match score_label li with
  | Some ds => Num (digits_value ds)
  | None =>
      match class_token li with
      | Some ds => Num (digits_value ds)
      | None =>
          match markup_number li with
          | Some ds => Num (digits_value ds)
          | None => Num 0
          end
      end
  end.

End Tiers.

End Spec.

(* ================================================================== *)
(** ** A document tree that implements the interface                   *)
(* ================================================================== *)

Module Tree.

Local Set Warnings "-register-all".

(** Text nodes and elements; tag names in lower case, as the parser leaves
    them. *)
Inductive Node : Type :=
| TextNode (data : str)
| Tag (tagName : str) (attribs : list (str * str)) (children : list Node).

(** The selectors of the source: a tag name, with a class or without. *)
Record selector : Type := { sel_tag : str; sel_class : option str }.

(** [div.punkte], [div], [a] *)
Definition parse_selector (s : str) : selector :=
  let not_dot := fun c => negb (N.eqb c 46) in
  {| sel_tag := takeWhile not_dot s;
     sel_class := match dropWhile not_dot s with
                  | [] => None
                  | _ :: cls => Some cls
                  end |}.

Fixpoint lookup_attr (name : str) (attribs : list (str * str)) : option str :=
  match attribs with
  | [] => None
  | (n, v) :: rest => if str_eqb n name then Some v else lookup_attr name rest
  end.

Fixpoint split_ws (s cur : str) : list str :=
  match s with
  | [] => [cur]
  | c :: s' => if is_space c then cur :: split_ws s' [] else split_ws s' (cur ++ [c])
  end.

(** [.punkte]: the class attribute has the token among its
    white-space-separated words. *)
Definition has_class (tok : str) (attribs : list (str * str)) : bool :=
  match lookup_attr (lit "class") attribs with
  | Some v => existsb (str_eqb tok) (split_ws v [])
  | None => false
  end.

Definition matches (sel : selector) (n : Node) : bool :=
  match n with
  | TextNode _ => false
  | Tag tag attribs _ =>
      str_eqb tag (sel_tag sel)
      && match sel_class sel with
         | Some tok => has_class tok attribs
         | None => true
         end
  end.

(** A node and everything below it, in document order. *)
Fixpoint subtree (n : Node) : list Node :=
  n :: match n with
       | TextNode _ => []
       | Tag _ _ cs => flat_map subtree cs
       end.

Definition descendants (n : Node) : list Node :=
  match n with
  | TextNode _ => []
  | Tag _ _ cs => flat_map subtree cs
  end.

Definition tree_find (selector : str) (x : list Node) : list Node :=
  flat_map (fun n => filter (matches (parse_selector selector)) (descendants n)) x.

Definition tree_first (x : list Node) : list Node :=
  match x with
  | [] => []
  | n :: _ => [n]
  end.

Fixpoint node_text (n : Node) : str :=
  match n with
  | TextNode d => d
  | Tag _ _ cs => flat_map node_text cs
  end.

Definition tree_attr (name : str) (x : list Node) : option str :=
  match x with
  | Tag _ attribs _ :: _ => lookup_attr name attribs
  | _ => None
  end.

(** A serializer good enough for the examples: tags and attributes written
    out, text as it is. *)
Fixpoint render_attribs (attribs : list (str * str)) : str :=
  match attribs with
  | [] => []
  | (n, v) :: rest => lit " " ++ n ++ lit "='" ++ v ++ lit "'" ++ render_attribs rest
  end.

Fixpoint render_node (n : Node) : str :=
  match n with
  | TextNode d => d
  | Tag tag attribs cs =>
      lit "<" ++ tag ++ render_attribs attribs ++ lit ">"
      ++ flat_map render_node cs ++ lit "</" ++ tag ++ lit ">"
  end.

Definition tree_html (x : list Node) : option str :=
  match x with
  | Tag _ _ cs :: _ => Some (flat_map render_node cs)
  | _ => None
  end.

(** A selection is the list of its nodes in document order. *)
Definition api : CheerioAPI :=
  {| Cheerio := list Node;
     Element := Node;
     wrap := fun el => [el];
     find := tree_find;
     first := tree_first;
     sel_length := @length Node;
     text := flat_map node_text;
     attr := tree_attr;
     html := tree_html |}.

End Tree.

(* ================================================================== *)
(** ** Inputs for the examples                                         *)
(* ================================================================== *)

Module Sample.

Import Tree.

(** No link resolves: every [href] is kept as written. *)
Definition keep_href (href : str) : option str := None.

(** A comparator for the examples: code units, letters in upper case. *)
Fixpoint compare_ci (a b : str) : Z :=
  match a, b with
  | [], [] => 0
  | [], _ :: _ => -1
  | _ :: _, [] => 1
  | x :: a', y :: b' =>
      match N.compare (canon x) (canon y) with
      | Lt => -1
      | Gt => 1
      | Eq => compare_ci a' b'
      end
  end.

Definition el (tag : string) (attribs : list (string * string)) (cs : list Node) : Node :=
  Tag (lit tag) (map (fun '(n, v) => (lit n, lit v)) attribs) cs.

Definition txt (s : string) : Node := TextNode (lit s).

(** A clock that has moved on by a millisecond at each reading. *)
Definition ticking (n : nat) : str :=
  lit "2025-01-01T00:00:00.00" ++ [(48 + N.of_nat (Nat.modulo n 10))%N] ++ lit "Z".

Local Open Scope string_scope.

(** [<li data-cnt='1' class='pt-99'><a href='/a'>Alpha</a>
     <div class='punkte'> 12 Punkte </div></li>] *)
Definition li_label_and_class : Node :=
  el "li" [("data-cnt", "1"); ("class", "pt-99")]
     [ el "a" [("href", "/a")] [txt "Alpha"];
       el "div" [("class", "punkte")] [txt " 12 Punkte "] ].

(** [<li data-cnt='2'><a href='/b'>Beta</a><div class='box pt-1234567'></div></li>] *)
Definition li_class_only : Node :=
  el "li" [("data-cnt", "2")]
     [ el "a" [("href", "/b")] [txt "Beta"];
       el "div" [("class", "box pt-1234567")] [] ].

(** [<li data-cnt='3'><a href='/c'>Gamma</a><span>(42)</span></li>] *)
Definition li_markup_only : Node :=
  el "li" [("data-cnt", "3")]
     [ el "a" [("href", "/c")] [txt "Gamma"];
       el "span" [] [txt "(42)"] ].

(** [<li data-cnt='4'><a href='/d'>Delta</a></li>] *)
Definition li_nothing : Node :=
  el "li" [("data-cnt", "4")] [ el "a" [("href", "/d")] [txt "Delta"] ].

(** [<li data-cnt='5'>no link</li>] *)
Definition li_no_link : Node := el "li" [("data-cnt", "5")] [txt "no link"].

Definition start : World := {| clock := ticking; reads := 0 |}.

Definition sp (ts : string) (pts : Z) : ScorePoint :=
  {| timestamp := lit ts; points := Num pts |}.

Definition entry (n u : string) (sc : list ScorePoint) : TextEntry :=
  {| name := lit n; url := lit u; score := sc |}.

(** One reading of one item, as [each_item] builds it. *)
Definition obs (n u ts : string) (pts : Z) : TextEntry := entry n u [sp ts pts].

Definition t0 : string := "2025-01-01T00:00:00.000Z".
Definition t1 : string := "2025-01-02T00:00:00.000Z".
Definition t2 : string := "2025-01-03T00:00:00.000Z".

(** A history with one entry, last seen with 5 points. *)
Definition alpha5 : TextEntry := entry "Alpha" "https://texte.wien/a" [sp t0 5].
Definition history1 : Schema := [alpha5].
Definition map1 : JsMap := index_existing history1.

(** The same url under another name, with 7 points and with 5. *)
Definition alpha_renamed7 : TextEntry := obs "Alpha (neu)" "https://texte.wien/a" t1 7.
Definition alpha_renamed5 : TextEntry := obs "Alpha (neu)" "https://texte.wien/a" t1 5.

(** An item that was not in the history. *)
Definition beta3 : TextEntry := obs "Beta" "https://texte.wien/b" t1 3.

(** One url parsed twice in a run, with the same points and with others. *)
Definition twice_same : list TextEntry := [alpha_renamed5; beta3; obs "Alpha" "https://texte.wien/a" t1 5].
Definition twice_same_later : list TextEntry :=
  [ obs "Alpha (neu)" "https://texte.wien/a" t2 5; obs "Beta" "https://texte.wien/b" t2 3;
    obs "Alpha" "https://texte.wien/a" t2 5 ].
Definition twice_different : list TextEntry :=
  [ obs "Alpha" "https://texte.wien/a" t1 5; obs "Alpha" "https://texte.wien/a" t1 7 ].

(** A file in which two entries have the same url. *)
Definition first_of_two : TextEntry := entry "Alpha" "https://texte.wien/a" [sp t0 5].
Definition second_of_two : TextEntry := entry "Alpha, alt" "https://texte.wien/a" [sp t0 4].
Definition history_duplicate_url : Schema := [first_of_two; second_of_two].

(** An entry of the file that has no score point yet. *)
Definition gamma_empty : TextEntry := entry "Gamma" "" [].
Definition gamma9 : TextEntry := obs "Gamma" "" t1 9.

(** Another item without a url, under another name. *)
Definition delta4 : TextEntry := obs "Delta" "" t1 4.

End Sample.

(* ================================================================== *)
(** ** Notions used by the statements                                  *)
(* ================================================================== *)

(** How a literal word compares characters. *)
Definition eq_of (ignoreCase : bool) : char -> char -> bool :=
  if ignoreCase then Spec.same_ci else Spec.same.

(** A captured number: one to five digits. *)
Definition digit_run (ds : str) : Prop :=
  ds <> [] /\ forallb is_digit ds = true /\ (length ds <= 5)%nat.

Definition keys (m : JsMap) : list str := map fst m.

(** What the program maintains: one binding per key, each entry under its
    own identity key. *)
Definition well_keyed (m : JsMap) : Prop :=
  NoDup (keys m) /\ Forall (fun kv => fst kv = entry_key (snd kv)) m.

(** A parsed entry as [each_item] builds it: one score point. *)
Definition is_reading (p : TextEntry) : Prop := length (score p) = 1%nat.

(** The test of line 126 for the entry [e] and the score point [p0] of the
    parsed entry. *)
Definition changed (e : TextEntry) (p0 : ScorePoint) : bool :=
  match last_opt (score e) with
  | None => true
  | Some l => strict_neq (points l) (points p0)
  end.

(** [e'] is [e] with score points added at the end, if any. *)
Definition extends (e e' : TextEntry) : Prop :=
  name e' = name e /\ url e' = url e /\ exists added, score e' = score e ++ added.

(** The points of a parsed entry, [p.score[0].points]. *)
Definition first_points (p : TextEntry) : option number :=
  match score p with
  | p0 :: _ => Some (points p0)
  | [] => None
  end.

(** A parsed entry as [each_item] builds it, the points an integer. *)
Definition integer_reading (p : TextEntry) : Prop :=
  exists p0 z, score p = [p0] /\ points p0 = Num z.

(** Parsed entries with the same identity key carry the same points. *)
Definition consistent (parsedEntries : list TextEntry) : Prop :=
  forall p q, In p parsedEntries -> In q parsedEntries ->
    entry_key p = entry_key q -> first_points p = first_points q.

(** What the merge looks at in a parsed entry: its key and its points. *)
Definition reading (p : TextEntry) : str * option number :=
  (entry_key p, first_points p).

(** The entry under the key of [p] already ends with the points of [p],
    an integer. *)
Definition settled_for (m : JsMap) (p : TextEntry) : Prop :=
  exists e l z,
    map_get (entry_key p) m = Some e
    /\ last_opt (score e) = Some l
    /\ points l = Num z
    /\ first_points p = Some (Num z).

(** An item that [each_item] does not skip. *)
Definition has_link {api : CheerioAPI} (el : Element) : bool :=
  negb (sel_length (first (find (lit "a") (wrap el))) =? 0)%nat.

(** The timestamps that a list of parsed entries carries, entry by entry. *)
Definition timestamps (parsedEntries : list TextEntry) : list (list str) :=
  map (fun p => map timestamp (score p)) parsedEntries.

Section Order.

Variable localeCompare : str -> str -> Z.

(** The comparator never puts [a] after [b] and [b] after [a]. *)
Definition comparator_total : Prop :=
  forall a b, localeCompare a b <= 0 \/ localeCompare b a <= 0.

Definition name_le (a b : TextEntry) : Prop :=
  localeCompare (name a) (name b) <= 0.

(** Neighbours are in order. *)
Fixpoint sorted (l : list TextEntry) : Prop :=
  match l with
  | [] => True
  | a :: l' =>
      match l' with
      | [] => True
      | b :: _ => name_le a b
      end /\ sorted l'
  end.

End Order.

(* ================================================================== *)
(** ** More of [scrape.ts]: names                                      *)
(* ================================================================== *)

(** [/\s+/g] *)
Definition re_spaces : regex := Quant is_space 1 None.

(** [s.replace(r, rep)] for a pattern with the [g] flag and a replacement
    without [$]: from left to right, a match is replaced and the search
    goes on behind it; where nothing matches the character is copied. An
    empty match is replaced and the search moves on by one character.
    [fuel] bounds the number of steps. *)
Fixpoint replace_from (fuel : nat) (r : regex) (rep s : str) : str :=
  match fuel with
  | O => s
  | S fuel' =>
      match rmatch r (fun rest _ => Some rest) s None with
      | Some rest =>
          if (length rest <? length s)%nat
          then rep ++ replace_from fuel' r rep rest
          else match s with
               | [] => rep
               | c :: s' => rep ++ c :: replace_from fuel' r rep s'
               end
      | None =>
          match s with
          | [] => []
          | c :: s' => c :: replace_from fuel' r rep s'
          end
      end
  end.

Definition replace_all (r : regex) (rep s : str) : str :=
  replace_from (S (length s)) r rep s.

(** [normalizeName] with its replacement run on the matcher. *)
Definition normalizeName_matched (s : str) : str :=
  trim (replace_all re_spaces (lit " ") s).

(** The pieces of [s] between its white-space characters, the empty ones
    too. *)
Fixpoint split_spaces (s : str) : list str :=
  match s with
  | [] => [[]]
  | c :: s' =>
      if is_space c
      then [] :: split_spaces s'
      else match split_spaces s' with
           | w :: ws => (c :: w) :: ws
           | [] => [[c]]
           end
  end.

(** The words of [s]: its maximal runs without white space. *)
Definition words (s : str) : list str := filter truthy (split_spaces s).

(** Two splittings with the same words: the same first piece, the same
    non-empty pieces behind. *)
Definition same_pieces (a b : list str) : Prop :=
  hd [] a = hd [] b /\ filter truthy (tl a) = filter truthy (tl b).

(** Words with one space between them. *)
Fixpoint join_space (ws : list str) : str :=
  match ws with
  | [] => []
  | w :: rest =>
      match rest with
      | [] => w
      | _ :: _ => w ++ 32%N :: join_space rest
      end
  end.

(** Every white-space character is a space and no other follows it. *)
Fixpoint spaces_single (s : str) : bool :=
  match s with
  | [] => true
  | c :: s' =>
      (if is_space c
       then N.eqb c 32
            && match s' with
               | [] => true
               | d :: _ => negb (is_space d)
               end
       else true)
      && spaces_single s'
  end.

Definition starts_clean (s : str) : bool :=
  match s with
  | [] => true
  | c :: _ => negb (is_space c)
  end.

Definition ends_clean (s : str) : bool :=
  match last_opt s with
  | Some c => negb (is_space c)
  | None => true
  end.

(** A name that needs no normalizing: single spaces between words, none
    at the ends. *)
Definition normalized (s : str) : bool :=
  spaces_single s && starts_clean s && ends_clean s.

(* ================================================================== *)
(** ** More of [scrape.ts]: the entry of one item                      *)
(* ================================================================== *)

Section ItemEntry.

Context {api : CheerioAPI}.
Variable resolveUrl : str -> option str.

(** What lines 93 to 109 push for an item with a link, the clock showing
    [ts]. *)
Definition entry_of (el : Element) (ts : str) : TextEntry :=
  let a := first (find (lit "a") (wrap el)) in
  let href := or_empty (attr (lit "href") a) in
  {| name := normalizeName (text a);
     url := match resolveUrl href with
            | Some u => u
            | None => href
            end;
     score := [{| timestamp := ts; points := parsePointsFromLi (wrap el) |}] |}.

End ItemEntry.

(** No digit in [s]. *)
Definition digitless (s : str) : bool := forallb (fun c => negb (is_digit c)) s.

(** [s] does not go on with a digit. *)
Definition no_digit_first (s : str) : bool :=
  match s with
  | [] => true
  | c :: _ => negb (is_digit c)
  end.

(** An entry as the extractor leaves it: a normalized name, one score
    point, its points an integer from 0 to 99999. *)
Definition extracted_shape (p : TextEntry) : Prop :=
  normalized (name p) = true
  /\ exists p0 n, score p = [p0] /\ points p0 = Num n /\ 0 <= n <= 99999.

(* ================================================================== *)
(** ** More of [scrape.ts]: notions for the merge                      *)
(* ================================================================== *)

(** The number of score points that a list of entries holds. *)
Definition score_points (l : list TextEntry) : nat :=
  list_sum (map (fun e => length (score e)) l).

(** [e] is in [existing] and no later entry has its identity key. *)
Definition last_of_key (existing : Schema) (e : TextEntry) : Prop :=
  exists before after,
    existing = before ++ e :: after
    /\ Forall (fun x => entry_key x <> entry_key e) after.

(** Two maps that answer every [get] alike. *)
Definition same_lookups (m m' : JsMap) : Prop :=
  forall k, map_get k m = map_get k m'.

(** What is bound to the key of [p] once [p] is merged, [old] being what
    was bound before; [None] when the loop throws. *)
Definition merged_entry (old : option TextEntry) (p : TextEntry) : option TextEntry :=
  match score p with
  | [] => None
  | p0 :: _ =>
      Some match old with
           | None => p
           | Some e =>
               if changed e p0
               then push_score e {| timestamp := timestamp p0; points := points p0 |}
               else e
           end
  end.

(** [x] is where the saved entry [e] has its key, its name and its url
    from. *)
Definition origin_of (x e : TextEntry) : Prop :=
  entry_key x = entry_key e /\ name x = name e /\ url x = url e.

(** The entry [e] is made from [sources]: key, name and url are those of one
    of them, and each of its score points is a score point of one of them
    with that key. *)
Definition made_from (sources : list TextEntry) (e : TextEntry) : Prop :=
  (exists x, In x sources /\ origin_of x e)
  /\ forall sp, In sp (score e) ->
       exists x, In x sources /\ entry_key x = entry_key e /\ In sp (score x).

(** Every binding holds an entry made from the sources. *)
Definition bindings_made_from (sources : list TextEntry) (m : JsMap) : Prop :=
  forall k e, map_get k m = Some e -> made_from sources e.

(* ================================================================== *)
(** ** More of [scrape.ts]: the log and the whole run                  *)
(* ================================================================== *)

(** [s.replace(pat, rep)] for a string pattern and a replacement without
    [$]: the first occurrence of [pat] only. *)
Fixpoint replace_first (pat rep s : str) : str :=
  match Spec.strip_prefix Spec.same pat s with
  | Some rest => rep ++ rest
  | None =>
      match s with
      | [] => []
      | c :: s' => c :: replace_first pat rep s'
      end
  end.

(** [iso.replace("T", " ").replace("Z", "")] of line 24 *)
Definition log_stamp (iso : str) : str :=
  replace_first (lit "Z") [] (replace_first (lit "T") (lit " ") iso).

(** The line that [log(message)] prints when the clock shows [iso]. *)
Definition log_line (iso message : str) : str :=
  lit "[" ++ log_stamp iso ++ lit "] " ++ message.

(** [log], giving the printed line. *)
Definition log (message : str) : Run str :=
  iso <- now_iso ;; ret (log_line iso message).

(** Why a run ends with exit code 1. *)
Inductive Failure : Type :=
| FetchFailed                                   (* [fetch] rejects *)
| HttpError (url : str) (status : nat) (statusText : str)
| BadPageUrl                                    (* [new URL(pageUrl)] throws *)
| ScoreMissing                                  (* [p.score[0]] is undefined *)
| HistoryNotIterable                            (* [for (const e of existing)] throws *)
| SaveFailed.                                   (* [writeFile] rejects *)

(** The messages handed to [log], by their content; the wording of the
    template strings is left out. *)
Inductive Event : Type :=
| DefaultUrlWarning
| Fetching (pageUrl : str)
| NoItems
| NewEntry (entryName : str) (pts : number)
| Updated (entryName : str) (before : option number) (after : number)
| NoChange (entryName : str) (pts : number)
| Saved (count : nat) (outPath : str)
| Failed (why : Failure).

(** The body of the loop of lines 116 to 133 with the message it logs. *)
Definition merge_one_log (m : JsMap) (p : TextEntry) : option (JsMap * Event) :=
  let key := entry_key p in
  match map_get key m with
  | None =>
      match score p with
      | [] => None
      | p0 :: _ => Some (map_set key p m, NewEntry (name p) (points p0))
      end
  | Some existingEntry =>
      let last := last_opt (score existingEntry) in
      match score p with
      | [] => None
      | p0 :: _ =>
          let currentPoints := points p0 in
          if match last with
             | None => true
             | Some l => strict_neq (points l) currentPoints
             end
          then Some (map_set key
                       (push_score existingEntry
                          {| timestamp := timestamp p0; points := currentPoints |})
                       m,
                     Updated (name existingEntry) (option_map points last)
                             currentPoints)
          else Some (m, NoChange (name existingEntry) currentPoints)
      end
  end.

(** The console: the clock, and the stamped messages printed so far. *)
Record Console : Type := { world : World; printed : list (str * Event) }.

Definition log_event (ev : Event) (c : Console) : Console :=
  let '(iso, w) := now_iso (world c) in
  {| world := w; printed := printed c ++ [(log_stamp iso, ev)] |}.

(** The loop of lines 116 to 133: the map when it ends, [None] when it
    throws, and the console. *)
Fixpoint merge_all_log (m : JsMap) (parsedEntries : list TextEntry) (c : Console)
  : option JsMap * Console :=
  match parsedEntries with
  | [] => (Some m, c)
  | p :: rest =>
      match merge_one_log m p with
      | Some (m', ev) => merge_all_log m' rest (log_event ev c)
      | None => (None, c)
      end
  end.

(** What [fetch(url)] comes to: [Rejected] when [fetch] rejects, or
    [res.text()] after an ok status. *)
Inductive FetchResult : Type :=
| Rejected
| Response (ok : bool) (status : nat) (statusText : str) (body : str).

(** What [JSON.parse] makes of the text of the output file. [loadExisting]
    returns it as it is, [as Schema] checks nothing: [main] is followed on a
    value that cannot be iterated and on a history of the shape that the
    program writes, and on no other value. *)
Inductive FileJson : Type :=
| NotIterable                   (* [null], [true], [false], a number, an object *)
| Entries (existing : Schema)   (* an array of objects with the fields [name] and
                                   [url], strings, and [score], an array of
                                   objects with the fields [timestamp], a
                                   string, and [points], an integer, and no
                                   other field *)
| OtherJson.                    (* a string, an array with an element of
                                   another shape *)

(** How a run ends: the exit code and what was written to the file. *)
Record Outcome : Type :=
  { exit_code : nat; written : option (str * Schema); console : Console }.

(** A run that is followed to its end, or one that meets a file on which
    [main] is not followed. *)
Inductive Ending : Type :=
| Ends (o : Outcome)
| NotFollowed.

Definition ended (r : Ending) : option Outcome :=
  match r with
  | Ends o => Some o
  | NotFollowed => None
  end.

Definition DEFAULT_URL : str := lit "https://texte.wien/texte.html".

Section Run.

Context {api : CheerioAPI}.

(** [path.join(process.cwd(), ...)] of line 20 *)
Variable DEFAULT_OUT : str.

Variable fetch : str -> FetchResult.

(** [cheerio.load(html)(selector)]: the selected nodes in document order. *)
Variable select : str -> str -> list Element.

(** [new URL(pageUrl)], and then [new URL(href, base).href]; [None] when
    the constructor throws. *)
Variable base_of : str -> option (str -> option str).

(** [JSON.parse(await fs.readFile(outPath, "utf8"))]; [None] when reading
    or parsing throws. *)
Variable read_json : str -> option FileJson.

(** [fs.writeFile(outPath, JSON.stringify(data, null, 2), "utf8")]:
    whether it succeeds. *)
Variable write_json : str -> Schema -> bool.

Variable localeCompare : str -> str -> Z.

(** [fetchHtml] *)
Definition fetchHtml (url : str) : Failure + str :=
  match fetch url with
  | Rejected => inl FetchFailed
  | Response ok status statusText body =>
      if ok then inr body else inl (HttpError url status statusText)
  end.

(** [loadExisting]: the parsed value whatever it is, the empty array when
    reading or parsing throws. *)
Definition loadExisting (outPath : str) : FileJson :=
  match read_json outPath with
  | Some data => data
  | None => Entries []
  end.

(** The handler of line 143: the error is logged, nothing is written, the
    process exits with 1. *)
Definition fail (why : Failure) (c : Console) : Outcome :=
  {| exit_code := 1; written := None; console := log_event (Failed why) c |}.

(** Lines 82 to 86: the items of the first selector, or of the second when
    the first finds none. *)
Definition select_items (html : str) : list Element :=
  let items := select html (lit "ul#textlist li[data-cnt]") in
  if (length items =? 0)%nat then select html (lit "li[data-cnt]") else items.

(** [main] with its handler, on the arguments after the script name. *)
Definition main_full (argv : list str) (w : World) : Ending :=
  let pageUrl := match nth_error argv 0 with Some a => a | None => DEFAULT_URL end in
  let outPath := match nth_error argv 1 with Some a => a | None => DEFAULT_OUT end in
  let c := {| world := w; printed := [] |} in
  let c := if str_eqb pageUrl DEFAULT_URL then log_event DefaultUrlWarning c else c in
  let c := log_event (Fetching pageUrl) c in
  match fetchHtml pageUrl with
  | inl why => Ends (fail why c)
  | inr html =>
      let items := select html (lit "ul#textlist li[data-cnt]") in
      let c := if (length items =? 0)%nat then log_event NoItems c else c in
      let itemsFallback := select_items html in
      match base_of pageUrl with
      | None => Ends (fail BadPageUrl c)
      | Some resolveUrl =>
          let '(parsedEntries, w') := extract resolveUrl itemsFallback (world c) in
          let c := {| world := w'; printed := printed c |} in
          match loadExisting outPath with
          | NotIterable => Ends (fail HistoryNotIterable c)
          | OtherJson => NotFollowed
          | Entries existing =>
              match merge_all_log (index_existing existing) parsedEntries c with
              | (None, c) => Ends (fail ScoreMissing c)
              | (Some existingMap, c) =>
                  let merged := sort_by_name localeCompare (map_values existingMap) in
                  if write_json outPath merged
                  then Ends {| exit_code := 0; written := Some (outPath, merged);
                               console := log_event (Saved (length merged) outPath) c |}
                  else Ends (fail SaveFailed c)
              end
          end
      end
  end.

End Run.

(** The events of a console, without their stamps. *)
Definition events (c : Console) : list Event := map snd (printed c).

Definition is_new (ev : Event) : bool :=
  match ev with NewEntry _ _ => true | _ => false end.

Definition is_updated (ev : Event) : bool :=
  match ev with Updated _ _ _ => true | _ => false end.

Definition is_no_change (ev : Event) : bool :=
  match ev with NoChange _ _ => true | _ => false end.

(** No occurrence of the character [c] in [s]. *)
Definition free_of (c : char) (s : str) : bool := forallb (fun x => negb (N.eqb x c)) s.

(** The world after [n] more readings of the clock. *)
Definition later (n : nat) (w : World) : World :=
  {| clock := clock w; reads := (reads w + n)%nat |}.

(** The lines that [main] logs before it visits the items: the warning for
    the default URL, the fetch, the first selector finding nothing. *)
Definition logged_first {api : CheerioAPI} (pageUrl : str) (items : list Element)
  : list Event :=
  (if str_eqb pageUrl DEFAULT_URL then [DefaultUrlWarning] else [])
  ++ [Fetching pageUrl]
  ++ (if (length items =? 0)%nat then [NoItems] else []).

(** A message of the loop of lines 116 to 133. *)
Definition of_the_loop (ev : Event) : bool :=
  is_new ev || is_updated ev || is_no_change ev.

(** [argv[i] ?? d] *)
Definition arg_or (argv : list str) (i : nat) (d : str) : str :=
  match nth_error argv i with Some a => a | None => d end.

(** A message logged between the fetch and the end of the run. *)
Definition during_run (ev : Event) : bool :=
  match ev with
  | NoItems => true
  | _ => of_the_loop ev
  end.

(** A page without items, fetched and saved without trouble, and a file
    that holds the sample history. *)
Module SampleRun.

Import Tree Sample.

Definition out_path : str := lit "/app/out/2025-scores.json".

Definition fetch_ok (url : str) : FetchResult :=
  Response true 200 (lit "OK") (lit "<html><body><p>Umbau</p></body></html>").

Definition select_nothing (html selector : str) : list Node := [].

Definition base_ok (pageUrl : str) : option (str -> option str) := Some keep_href.

Definition read_history (outPath : str) : option FileJson :=
  if str_eqb outPath out_path then Some (Entries history_duplicate_url) else None.

(** A file that holds [null]. *)
Definition read_null (outPath : str) : option FileJson := Some NotIterable.

Definition write_ok (outPath : str) (data : Schema) : bool := true.

Definition run : list str -> World -> Ending :=
  main_full (api := api) out_path fetch_ok select_nothing base_ok read_history write_ok
    compare_ci.

Definition run_on_null : list str -> World -> Ending :=
  main_full (api := api) out_path fetch_ok select_nothing base_ok read_null write_ok
    compare_ci.

End SampleRun.

(* ================================================================== *)
(** ** Strings                                                         *)
(* ================================================================== *)

Lemma str_eqb_eq (a b : str) : str_eqb a b = true <-> a = b.
Proof.
  revert b; induction a as [|x a IH]; intros [|y b]; simpl; split;
    try congruence; try reflexivity.
  - rewrite andb_true_iff, N.eqb_eq, IH. intros [-> ->]. reflexivity.
  - intros H. injection H as -> ->. rewrite N.eqb_refl. simpl. now apply IH.
Qed.

Lemma str_eqb_refl (a : str) : str_eqb a a = true.
Proof. now apply str_eqb_eq. Qed.

Lemma str_eqb_neq (a b : str) : str_eqb a b = false <-> a <> b.
Proof.
  destruct (str_eqb a b) eqn:E.
  - apply str_eqb_eq in E. split; [discriminate | congruence].
  - split; [|reflexivity]. intros _ H. apply str_eqb_eq in H. congruence.
Qed.

Lemma take_drop_while (p : char -> bool) (s : str) :
  takeWhile p s ++ dropWhile p s = s.
Proof.
  induction s as [|c s IH]; simpl; [reflexivity|].
  destruct (p c); simpl; [now rewrite IH | reflexivity].
Qed.

Lemma takeWhile_all (p : char -> bool) (s : str) :
  forallb p (takeWhile p s) = true.
Proof.
  induction s as [|c s IH]; simpl; [reflexivity|].
  destruct (p c) eqn:E; simpl; [now rewrite E | reflexivity].
Qed.

Lemma takeWhile_length (p : char -> bool) (s : str) :
  (length (takeWhile p s) <= length s)%nat.
Proof.
  induction s as [|c s IH]; simpl; [lia|]. destruct (p c); simpl; lia.
Qed.

Lemma dropWhile_length (p : char -> bool) (s : str) :
  (length s - length (dropWhile p s))%nat = length (takeWhile p s).
Proof.
  rewrite <- (take_drop_while p s) at 1. rewrite length_app. lia.
Qed.

Lemma firstn_takeWhile (p : char -> bool) (s : str) :
  firstn (length (takeWhile p s)) s = takeWhile p s.
Proof.
  induction s as [|c s IH]; simpl; [reflexivity|].
  destruct (p c); simpl; [now rewrite IH | reflexivity].
Qed.

Lemma firstn_min_takeWhile (p : char -> bool) (n : nat) (s : str) :
  firstn (Nat.min n (length (takeWhile p s))) s = firstn n (takeWhile p s).
Proof.
  revert n; induction s as [|c s IH]; intros n; simpl.
  - now destruct n.
  - destruct (p c); simpl.
    + destruct n; simpl; [reflexivity | now rewrite IH].
    + now destruct n.
Qed.

Lemma firstn_all_digits (n : nat) (s : str) :
  forallb is_digit s = true -> forallb is_digit (firstn n s) = true.
Proof.
  revert n; induction s as [|c s IH]; intros [|n]; simpl; try reflexivity.
  rewrite !andb_true_iff. intros [Hc Hs]. split; [assumption | now apply IH].
Qed.

Lemma digit_val_range (c : char) :
  is_digit c = true -> 0 <= digit_val c <= 9.
Proof.
  unfold is_digit, digit_val. rewrite andb_true_iff, !N.leb_le. lia.
Qed.

Lemma digits_fold_range (ds : str) (acc : Z) :
  forallb is_digit ds = true -> 0 <= acc ->
  0 <= fold_left (fun a c => 10 * a + digit_val c) ds acc
    < (acc + 1) * 10 ^ Z.of_nat (length ds).
Proof.
  revert acc; induction ds as [|c ds IH]; intros acc Hd Hacc.
  - simpl. lia.
  - simpl in Hd. apply andb_true_iff in Hd as [Hc Hd].
    apply digit_val_range in Hc.
    cbn [fold_left length]. rewrite Nat2Z.inj_succ, Z.pow_succ_r by lia.
    specialize (IH (10 * acc + digit_val c) Hd ltac:(lia)).
    split; [apply IH|].
    eapply Z.lt_le_trans; [apply IH|].
    assert (0 < 10 ^ Z.of_nat (length ds)) by (apply Z.pow_pos_nonneg; lia).
    nia.
Qed.

(** A string of [n] digits reads as a value below [10 ^ n]. *)
Lemma digits_value_range (ds : str) :
  forallb is_digit ds = true ->
  0 <= digits_value ds < 10 ^ Z.of_nat (length ds).
Proof.
  intros H. unfold digits_value.
  pose proof (digits_fold_range ds 0 H ltac:(lia)). lia.
Qed.

Lemma digits_value_5 (ds : str) :
  forallb is_digit ds = true -> (length ds <= 5)%nat ->
  0 <= digits_value ds <= 99999.
Proof.
  intros H L. pose proof (digits_value_range ds H) as [H0 H1].
  split; [assumption|].
  assert (10 ^ Z.of_nat (length ds) <= 10 ^ 5)
    by (apply Z.pow_le_mono_r; lia).
  lia.
Qed.

Lemma is_space_spec (c : char) :
  is_space c = true <->
  (9 <= c <= 13 \/ c = 32 \/ c = 160 \/ c = 5760 \/ 8192 <= c <= 8202
   \/ c = 8232 \/ c = 8233 \/ c = 8239 \/ c = 8287 \/ c = 12288 \/ c = 65279)%N.
Proof.
  unfold is_space.
  rewrite !orb_true_iff, !andb_true_iff, !N.leb_le, !N.eqb_eq. tauto.
Qed.

Lemma is_digit_spec (c : char) : is_digit c = true <-> (48 <= c <= 57)%N.
Proof. unfold is_digit. rewrite andb_true_iff, !N.leb_le. tauto. Qed.

Lemma digit_not_space (c : char) : is_digit c = true -> is_space c = false.
Proof.
  rewrite is_digit_spec. intros Hd.
  destruct (is_space c) eqn:E; [|reflexivity].
  apply is_space_spec in E. lia.
Qed.

(** [parseInt] of a run of digits is its value: never NaN. *)
Lemma parseInt10_digits (ds : str) :
  ds <> [] -> forallb is_digit ds = true ->
  parseInt10 ds = Some (digits_value ds).
Proof.
  destruct ds as [|c ds]; [congruence|]. intros _ H.
  assert (Hc : is_digit c = true) by (simpl in H; now apply andb_true_iff in H).
  unfold parseInt10.
  assert (Hd : dropWhile is_space (c :: ds) = c :: ds)
    by (simpl; now rewrite (digit_not_space c Hc)).
  rewrite Hd.
  assert (Hsign : (if N.eqb c 45 then true else N.eqb c 43) = false).
  { unfold is_digit in Hc. apply andb_true_iff in Hc as [H1 H2].
    apply N.leb_le in H1, H2.
    destruct (N.eqb_spec c 45); [lia|]. destruct (N.eqb_spec c 43); [lia|].
    reflexivity. }
  assert (Ht : takeWhile is_digit (c :: ds) = c :: ds).
  { clear -H. induction (c :: ds) as [|x l IH]; simpl; [reflexivity|].
    simpl in H. apply andb_true_iff in H as [Hx Hl]. rewrite Hx.
    now rewrite IH. }
  destruct c as [|pc]; [discriminate|].
  do 7 (destruct pc as [pc|pc|]; try discriminate Hc; try discriminate Hsign;
        try (rewrite Ht; f_equal; lia)).
Qed.

(* ================================================================== *)
(** ** The matcher on the three patterns                               *)
(* ================================================================== *)

Section Greedy.

Context {R : Type} (p : char -> bool) (k : str -> option R).

(** When the rest of the pattern cannot start with a character of the
    class, giving characters back never helps: the whole run is taken or
    nothing matches. *)
Lemma greedy_rejecting :
  (forall c t, p c = true -> k (c :: t) = None) ->
  forall s lo hi,
    greedy p lo hi k s =
      if (lo <=? length (takeWhile p s))%nat && (length (takeWhile p s) <=? hi)%nat
      then k (dropWhile p s)
      else None.
Proof.
  intros Hrej. induction s as [|c s IH]; intros lo hi.
  - destruct hi, lo; reflexivity.
  - destruct hi as [|hi].
    + cbn [greedy takeWhile dropWhile]. destruct (p c) eqn:E.
      * simpl. rewrite andb_false_r. destruct lo; [now apply Hrej | reflexivity].
      * destruct lo; reflexivity.
    + cbn [greedy takeWhile dropWhile]. destruct (p c) eqn:E.
      * rewrite IH. cbn [length].
        replace (lo <=? S (length (takeWhile p s)))%nat
          with (Nat.pred lo <=? length (takeWhile p s))%nat
          by (destruct lo; [now destruct (length (takeWhile p s)) | reflexivity]).
        change (S (length (takeWhile p s)) <=? S hi)%nat
          with (length (takeWhile p s) <=? hi)%nat.
        destruct ((Nat.pred lo <=? length (takeWhile p s))%nat
                  && (length (takeWhile p s) <=? hi)%nat).
        -- destruct (k (dropWhile p s)) eqn:Ek; [reflexivity|].
           destruct lo; [now apply Hrej | reflexivity].
        -- destruct lo; [now apply Hrej | reflexivity].
      * destruct lo; reflexivity.
Qed.

(** When the rest of the pattern always matches, the first try stands. *)
Lemma greedy_accepting :
  (forall t, k t <> None) ->
  forall s lo hi,
    greedy p lo hi k s =
      if (lo <=? Nat.min hi (length (takeWhile p s)))%nat
      then k (skipn (Nat.min hi (length (takeWhile p s))) s)
      else None.
Proof.
  intros Hacc. induction s as [|c s IH]; intros lo hi.
  - destruct hi, lo; reflexivity.
  - destruct hi as [|hi].
    + cbn [greedy]. destruct lo; reflexivity.
    + cbn [greedy takeWhile]. destruct (p c) eqn:E.
      * rewrite IH. cbn [length Nat.min skipn].
        replace (lo <=? S (Nat.min hi (length (takeWhile p s))))%nat
          with (Nat.pred lo <=? Nat.min hi (length (takeWhile p s)))%nat
          by (destruct lo;
              [now destruct (Nat.min hi (length (takeWhile p s))) | reflexivity]).
        destruct (Nat.pred lo <=? Nat.min hi (length (takeWhile p s)))%nat eqn:El.
        -- destruct (k (skipn (Nat.min hi (length (takeWhile p s))) s)) eqn:Ek;
             [reflexivity | now apply Hacc in Ek].
        -- destruct lo; [discriminate El | reflexivity].
      * cbn [length]. rewrite Nat.min_0_r. destruct lo; reflexivity.
Qed.

End Greedy.

Lemma rmatch_word_from {R} (ci : bool) (w : str) :
  forall (c : char) (k : str -> option str -> option R) (s : str) (cap : option str),
    rmatch (word_from ci c w) k s cap =
      match Spec.strip_prefix (eq_of ci) (c :: w) s with
      | Some rest => k rest cap
      | None => None
      end.
Proof.
  induction w as [|d w IH]; intros c k s cap.
  - destruct ci, s as [|x s]; simpl; try reflexivity;
      unfold Spec.same_ci, Spec.same;
      match goal with |- context [if ?b then _ else _] => destruct b end;
      reflexivity.
  - cbn [word_from rmatch].
    destruct ci, s as [|x s]; cbn [chr rmatch Spec.strip_prefix eq_of];
      try reflexivity; unfold Spec.same_ci, Spec.same;
      match goal with |- context [if ?b then _ else _] => destruct b end;
      try reflexivity; apply IH.
Qed.

Lemma rmatch_word {R} (ci : bool) (w : string)
    (k : str -> option str -> option R) (s : str) (cap : option str) :
  lit w <> [] ->
  rmatch (word ci w) k s cap =
    match Spec.strip_prefix (eq_of ci) (lit w) s with
    | Some rest => k rest cap
    | None => None
    end.
Proof.
  unfold word. destruct (lit w) as [|c w']; [congruence|]. intros _.
  apply rmatch_word_from.
Qed.

(** [(\d{1,5})] before a rest that always matches: up to five digits of the
    run are captured. *)
Lemma rmatch_digits_accepting {R} (k : str -> option str -> option R)
    (s : str) (cap : option str) :
  (forall t c, k t c <> None) ->
  rmatch digits_1_5 k s cap =
    match takeWhile is_digit s with
    | [] => None
    | run => k (skipn (Nat.min 5 (length run)) s) (Some (firstn 5 run))
    end.
Proof.
  intros Hacc. unfold digits_1_5. cbn [rmatch].
  rewrite (greedy_accepting is_digit
             (fun s' => k s' (Some (firstn (length s - length s') s))))
    by (intros t; apply Hacc).
  pose proof (takeWhile_length is_digit s) as Hlen.
  destruct (takeWhile is_digit s) as [|d run] eqn:Erun.
  - reflexivity.
  - set (n := Nat.min 5 (length (d :: run))).
    assert (Hn : (1 <= n <= length s)%nat) by (subst n; cbn [length] in *; lia).
    replace (1 <=? n)%nat with true by (symmetry; apply Nat.leb_le; lia).
    rewrite length_skipn.
    replace (length s - (length s - n))%nat with n by lia.
    subst n. rewrite <- Erun, firstn_min_takeWhile. reflexivity.
Qed.

(** [(\d{1,5})] before a rest that cannot start with a digit: the run is
    captured whole, or nothing matches. *)
Lemma rmatch_digits_rejecting {R} (k : str -> option str -> option R)
    (s : str) (cap : option str) :
  (forall c t cp, is_digit c = true -> k (c :: t) cp = None) ->
  rmatch digits_1_5 k s cap =
    if (1 <=? length (takeWhile is_digit s))%nat
       && (length (takeWhile is_digit s) <=? 5)%nat
    then k (dropWhile is_digit s) (Some (takeWhile is_digit s))
    else None.
Proof.
  intros Hrej. unfold digits_1_5. cbn [rmatch].
  rewrite (greedy_rejecting is_digit
             (fun s' => k s' (Some (firstn (length s - length s') s))))
    by (intros c t Hc; now apply Hrej).
  rewrite dropWhile_length, firstn_takeWhile. reflexivity.
Qed.

(** [/(\d{1,5})/] finds the first run of digits and keeps five of them at
    most. *)
Lemma exec_re_digits (s : str) :
  exec re_digits s = option_map Some (Spec.first_digit_run s).
Proof.
  unfold Spec.first_digit_run.
  induction s as [|c s IH].
  - reflexivity.
  - cbn [exec]. unfold re_digits in *.
    rewrite rmatch_digits_accepting by discriminate.
    cbn [takeWhile dropWhile]. destruct (is_digit c) eqn:E; cbn [negb].
    + cbn [option_map takeWhile]. rewrite E. reflexivity.
    + exact IH.
Qed.

(** [/pt-(\d{1,5})/] *)
Lemma exec_re_pt (s : str) :
  exec re_pt s = option_map Some (Spec.pt_token s).
Proof.
  assert (Hhere : forall t,
    rmatch re_pt (fun _ cap => Some cap) t None = option_map Some (Spec.pt_here t)).
  { intros t. unfold re_pt, Spec.pt_here. cbn [rmatch].
    rewrite rmatch_word by discriminate. cbn [eq_of].
    destruct (Spec.strip_prefix Spec.same (lit "pt-") t) as [rest|]; [|reflexivity].
    rewrite rmatch_digits_accepting by discriminate.
    destruct (takeWhile is_digit rest); reflexivity. }
  induction s as [|c s IH]; cbn [exec Spec.pt_token]; rewrite Hhere;
    destruct (Spec.pt_here _); try reflexivity; exact IH.
Qed.

Lemma space_not_letter (c x : char) :
  is_space c = true -> (65 <= x <= 90)%N -> N.eqb (canon c) x = false.
Proof.
  rewrite is_space_spec. intros Hs Hx. apply N.eqb_neq. unfold canon.
  destruct (N.leb_spec 97 c); destruct (N.leb_spec c 122); cbn [andb]; lia.
Qed.

Lemma digit_canon (c : char) : is_digit c = true -> canon c = c.
Proof.
  unfold is_digit, canon. rewrite andb_true_iff, !N.leb_le. intros [H1 H2].
  destruct (N.leb_spec 97 c); [lia | reflexivity].
Qed.

Lemma space_not_digit (c : char) : is_space c = true -> is_digit c = false.
Proof.
  intros Hs. destruct (is_digit c) eqn:E; [|reflexivity].
  apply digit_not_space in E. congruence.
Qed.

Lemma rmatch_spaces_word {R} (w : string) (x : char) (w' : str)
    (k : str -> option str -> option R) (s : str) (cap : option str) :
  lit w = x :: w' -> (65 <= canon x <= 90)%N ->
  rmatch (Seq (Quant is_space 0 None) (word true w)) k s cap =
    match Spec.strip_prefix Spec.same_ci (lit w) (dropWhile is_space s) with
    | Some rest => k rest cap
    | None => None
    end.
Proof.
  intros Hw Hx. cbn [rmatch].
  rewrite (greedy_rejecting is_space
             (fun s' => rmatch (word true w) k s' cap)).
  - replace (length (takeWhile is_space s) <=? length s)%nat with true
      by (symmetry; apply Nat.leb_le, takeWhile_length).
    cbn [Nat.leb andb]. apply rmatch_word. rewrite Hw. discriminate.
  - intros c t Hc. rewrite rmatch_word by (rewrite Hw; discriminate).
    rewrite Hw. cbn [eq_of Spec.strip_prefix]. unfold Spec.same_ci.
    now rewrite (space_not_letter c (canon x) Hc Hx).
Qed.

Lemma rmatch_alt {R} (r1 r2 : regex) (k : str -> option str -> option R)
    (s : str) (cap : option str) :
  rmatch (Alt r1 r2) k s cap =
    match rmatch r1 k s cap with
    | Some x => Some x
    | None => rmatch r2 k s cap
    end.
Proof. reflexivity. Qed.

Lemma rmatch_seq {R} (r1 r2 : regex) (k : str -> option str -> option R)
    (s : str) (cap : option str) :
  rmatch (Seq r1 r2) k s cap =
    rmatch r1 (fun s' cap' => rmatch r2 k s' cap') s cap.
Proof. reflexivity. Qed.

Lemma rmatch_suffix (s : str) (cap : option str) :
  rmatch suffix_alternatives (fun _ c => Some c) s cap =
    if Spec.unit_follows s then Some cap else None.
Proof.
  unfold suffix_alternatives, Spec.unit_follows, Spec.starts_with.
  rewrite !rmatch_alt.
  rewrite (rmatch_spaces_word "Punkte" 80%N (lit "unkte")) by (reflexivity || (vm_compute; split; discriminate)).
  rewrite (rmatch_spaces_word "punkt" 112%N (lit "unkt")) by (reflexivity || (vm_compute; split; discriminate)).
  rewrite !rmatch_word by discriminate. cbn [eq_of].
  destruct (Spec.strip_prefix Spec.same_ci (lit "Punkte") (dropWhile is_space s));
    [reflexivity|].
  destruct (Spec.strip_prefix Spec.same_ci (lit "punkt") (dropWhile is_space s));
    [reflexivity|].
  destruct (Spec.strip_prefix Spec.same_ci (lit "</span>") s); [reflexivity|].
  destruct (Spec.strip_prefix Spec.same_ci (lit ")") s); reflexivity.
Qed.

Lemma unit_follows_digit (c : char) (t : str) :
  is_digit c = true -> Spec.unit_follows (c :: t) = false.
Proof.
  intros Hc. unfold Spec.unit_follows, Spec.starts_with.
  cbn [dropWhile]. rewrite (digit_not_space c Hc).
  assert (Hne : forall x, is_digit x = false -> Spec.same_ci x c = false).
  { intros x Hx. unfold Spec.same_ci. rewrite (digit_canon c Hc).
    apply N.eqb_neq. intros Heq. apply is_digit_spec in Hc.
    assert (Hx' : ~ (48 <= x <= 57)%N)
      by (intros Hr; apply is_digit_spec in Hr; congruence).
    revert Heq. unfold canon.
    destruct (N.leb_spec 97 x); destruct (N.leb_spec x 122); cbn [andb]; lia. }
  cbn [lit list_ascii_of_string map Spec.strip_prefix].
  rewrite !Hne by reflexivity. reflexivity.
Qed.

(** One start position of [re_markup]. *)
Lemma rmatch_re_markup (s : str) :
  rmatch re_markup (fun _ cap => Some cap) s None =
    match s with
    | [] => None
    | c :: s' =>
        if Spec.same_ci 40%N c || is_space c
        then option_map Some (Spec.number_here s')
        else None
    end.
Proof.
  unfold re_markup. cbn [rmatch].
  assert (Hk : forall s1 cap1,
    rmatch digits_1_5
      (fun s2 cap2 => rmatch suffix_alternatives (fun _ c => Some c) s2 cap2)
      s1 cap1 = option_map Some (Spec.number_here s1)).
  { intros s1 cap1. rewrite rmatch_digits_rejecting.
    - unfold Spec.number_here. rewrite rmatch_suffix.
      destruct ((1 <=? length (takeWhile is_digit s1))%nat
                && (length (takeWhile is_digit s1) <=? 5)%nat); [|reflexivity].
      cbn [andb]. destruct (Spec.unit_follows (dropWhile is_digit s1)); reflexivity.
    - intros c t cp Hc. rewrite rmatch_suffix. now rewrite unit_follows_digit. }
  rewrite rmatch_word by discriminate. cbn [eq_of].
  destruct s as [|c s']; [reflexivity|].
  cbn [lit list_ascii_of_string map Spec.strip_prefix N_of_ascii N_of_digits].
  change (Spec.same_ci _ c) with (Spec.same_ci 40%N c).
  destruct (Spec.same_ci 40%N c); cbn [orb]; rewrite !Hk.
  - destruct (Spec.number_here s'); cbn [option_map]; [reflexivity|].
    destruct (is_space c); reflexivity.
  - reflexivity.
Qed.

(** [re_markup] over the whole markup. *)
Lemma exec_re_markup (s : str) :
  exec re_markup s = option_map Some (Spec.markup_scan s).
Proof.
  induction s as [|c s IH].
  - cbn [exec]. rewrite rmatch_re_markup. reflexivity.
  - cbn [exec Spec.markup_scan]. rewrite rmatch_re_markup.
    destruct (Spec.same_ci 40%N c || is_space c).
    + destruct (Spec.number_here s); [reflexivity | exact IH].
    + exact IH.
Qed.

(* ================================================================== *)
(** ** What the strategies return                                      *)
(* ================================================================== *)

Lemma dropWhile_head (p : char -> bool) (s : str) (c : char) (t : str) :
  dropWhile p s = c :: t -> p c = false.
Proof.
  induction s as [|x s IH]; simpl; [discriminate|].
  destruct (p x) eqn:E; [exact IH|]. intros H. injection H as -> _. exact E.
Qed.

Lemma firstn_5_run (s : str) :
  takeWhile is_digit s <> [] -> digit_run (firstn 5 (takeWhile is_digit s)).
Proof.
  intros Hne. repeat split.
  - destruct (takeWhile is_digit s); [congruence | discriminate].
  - apply firstn_all_digits, takeWhile_all.
  - rewrite length_firstn. lia.
Qed.

Lemma first_digit_run_run (s ds : str) :
  Spec.first_digit_run s = Some ds -> digit_run ds.
Proof.
  unfold Spec.first_digit_run.
  destruct (dropWhile (fun c => negb (is_digit c)) s) as [|c t] eqn:E;
    [discriminate|].
  intros H. injection H as <-. apply (firstn_5_run (c :: t)).
  apply dropWhile_head in E. apply negb_false_iff in E.
  cbn [takeWhile]. rewrite E. discriminate.
Qed.

Lemma pt_here_run (s ds : str) : Spec.pt_here s = Some ds -> digit_run ds.
Proof.
  unfold Spec.pt_here.
  destruct (Spec.strip_prefix Spec.same (lit "pt-") s) as [rest|]; [|discriminate].
  destruct (takeWhile is_digit rest) as [|d run] eqn:E; [discriminate|].
  intros H. injection H as <-. change (digit_run (firstn 5 (d :: run))).
  rewrite <- E. apply firstn_5_run. rewrite E. discriminate.
Qed.

Lemma pt_token_run (s ds : str) : Spec.pt_token s = Some ds -> digit_run ds.
Proof.
  induction s as [|c s IH]; cbn [Spec.pt_token];
    destruct (Spec.pt_here _) as [r|] eqn:E; try discriminate; try exact IH;
    intros H; injection H as <-; eapply pt_here_run; exact E.
Qed.

(** The class names of the item and of its first [div] are searched as one
    string with a space between: no match begins in one and ends in the
    other. *)
Lemma takeWhile_digit_sep (s t : str) :
  takeWhile is_digit (s ++ 32%N :: t) = takeWhile is_digit s.
Proof.
  induction s as [|c s IH]; simpl; [reflexivity|].
  destruct (is_digit c); [now rewrite IH | reflexivity].
Qed.

Lemma pt_here_sep (s t : str) : Spec.pt_here (s ++ 32%N :: t) = Spec.pt_here s.
Proof.
  unfold Spec.pt_here. change (lit "pt-") with [112%N; 116%N; 45%N].
  destruct s as [|c1 [|c2 [|c3 rest]]]; cbn [app Spec.strip_prefix];
    unfold Spec.same;
    repeat match goal with
           | |- context [N.eqb ?x ?y] => destruct (N.eqb x y) eqn:?
           end; try reflexivity; try discriminate.
  now rewrite takeWhile_digit_sep.
Qed.

Lemma pt_token_sep (s t : str) :
  Spec.pt_token (s ++ 32%N :: t) =
    match Spec.pt_token s with
    | Some ds => Some ds
    | None => Spec.pt_token t
    end.
Proof.
  induction s as [|c s IH].
  - pose proof (pt_here_sep [] t) as H. cbn [app] in H.
    cbn [app Spec.pt_token]. rewrite H. reflexivity.
  - change ((c :: s) ++ 32%N :: t) with (c :: (s ++ 32%N :: t)).
    cbn [Spec.pt_token]. change (c :: (s ++ 32%N :: t)) with ((c :: s) ++ 32%N :: t).
    rewrite pt_here_sep. destruct (Spec.pt_here (c :: s)); [reflexivity | exact IH].
Qed.

Lemma number_here_run (s ds : str) : Spec.number_here s = Some ds -> digit_run ds.
Proof.
  unfold Spec.number_here.
  destruct (1 <=? length (takeWhile is_digit s))%nat eqn:E1; [|discriminate].
  destruct (length (takeWhile is_digit s) <=? 5)%nat eqn:E5; [|discriminate].
  destruct (Spec.unit_follows _); [|discriminate].
  intros H. injection H as <-.
  apply Nat.leb_le in E1, E5. repeat split.
  - destruct (takeWhile is_digit s); [simpl in E1; lia | discriminate].
  - apply takeWhile_all.
  - exact E5.
Qed.

Lemma markup_scan_run (s ds : str) : Spec.markup_scan s = Some ds -> digit_run ds.
Proof.
  induction s as [|c s IH]; cbn [Spec.markup_scan]; [discriminate|].
  destruct (Spec.same_ci 40%N c || is_space c); [|exact IH].
  destruct (Spec.number_here s) as [r|] eqn:E; [|exact IH].
  intros H. injection H as <-. now apply number_here_run in E.
Qed.

Lemma parseInt_group_run (ds : str) :
  digit_run ds -> parseInt_group (Some ds) = Num (digits_value ds).
Proof.
  intros (Hne & Hd & _). unfold parseInt_group.
  now rewrite parseInt10_digits.
Qed.

Lemma digit_run_range (ds : str) : digit_run ds -> 0 <= digits_value ds <= 99999.
Proof. intros (_ & Hd & Hl). now apply digits_value_5. Qed.

(** White space around a text does not change its first run of digits. *)
Lemma takeWhile_digit_app_spaces (s ws : str) :
  forallb is_space ws = true ->
  takeWhile is_digit (s ++ ws) = takeWhile is_digit s.
Proof.
  intros Hws. induction s as [|c s IH]; simpl.
  - destruct ws as [|w ws]; [reflexivity|]. simpl in Hws.
    apply andb_true_iff in Hws as [Hw _]. simpl.
    now rewrite (space_not_digit w Hw).
  - destruct (is_digit c); [now rewrite IH | reflexivity].
Qed.

Lemma first_digit_run_spaces (ws : str) :
  forallb is_space ws = true -> Spec.first_digit_run ws = None.
Proof.
  unfold Spec.first_digit_run. induction ws as [|w ws IH]; simpl; [reflexivity|].
  rewrite andb_true_iff. intros [Hw Hws].
  rewrite (space_not_digit w Hw). simpl. now apply IH.
Qed.

Lemma first_digit_run_app_spaces (s ws : str) :
  forallb is_space ws = true ->
  Spec.first_digit_run (s ++ ws) = Spec.first_digit_run s.
Proof.
  intros Hws. induction s as [|c s IH].
  - simpl. now rewrite first_digit_run_spaces.
  - unfold Spec.first_digit_run in *. cbn [app dropWhile].
    destruct (is_digit c) eqn:E; cbn [negb].
    + change (c :: s ++ ws) with ((c :: s) ++ ws).
      now rewrite takeWhile_digit_app_spaces.
    + exact IH.
Qed.

Lemma first_digit_run_dropWhile_space (s : str) :
  Spec.first_digit_run (dropWhile is_space s) = Spec.first_digit_run s.
Proof.
  induction s as [|c s IH]; simpl; [reflexivity|].
  destruct (is_space c) eqn:E; [|reflexivity].
  rewrite IH. unfold Spec.first_digit_run. cbn [dropWhile].
  now rewrite (space_not_digit c E).
Qed.

Lemma forallb_rev (p : char -> bool) (l : str) :
  forallb p (rev l) = forallb p l.
Proof.
  induction l as [|x l IH]; simpl; [reflexivity|].
  rewrite forallb_app, IH. simpl. rewrite andb_true_r. apply andb_comm.
Qed.

Lemma first_digit_run_trim (s : str) :
  Spec.first_digit_run (trim s) = Spec.first_digit_run s.
Proof.
  unfold trim. rewrite <- (first_digit_run_dropWhile_space s).
  set (a := dropWhile is_space s).
  assert (Ha : rev (dropWhile is_space (rev a)) ++ rev (takeWhile is_space (rev a))
               = a)
    by now rewrite <- rev_app_distr, take_drop_while, rev_involutive.
  rewrite <- Ha at 2. symmetry. apply first_digit_run_app_spaces.
  rewrite forallb_rev. apply takeWhile_all.
Qed.

(* ================================================================== *)
(** ** Where the strategies find their number                          *)
(* ================================================================== *)

Lemma strip_prefix_same (w s rest : str) :
  Spec.strip_prefix Spec.same w s = Some rest -> s = w ++ rest.
Proof.
  revert s; induction w as [|c w IH]; intros s; simpl.
  - intros H. now injection H as ->.
  - destruct s as [|d s]; [discriminate|]. unfold Spec.same at 1.
    destruct (N.eqb_spec c d) as [-> | _]; [|discriminate].
    intros H. now rewrite (IH s H).
Qed.

(** The score label: no digit before the run, and the run itself. *)
Lemma first_digit_run_found (s ds : str) :
  Spec.first_digit_run s = Some ds ->
  exists pre post,
    s = pre ++ ds ++ post
    /\ forallb (fun c => negb (is_digit c)) pre = true
    /\ digit_run ds.
Proof.
  intros H. pose proof (first_digit_run_run s ds H) as Hrun.
  unfold Spec.first_digit_run in H.
  pose proof (take_drop_while (fun c => negb (is_digit c)) s) as Hs.
  destruct (dropWhile (fun c => negb (is_digit c)) s) as [|c t] eqn:E;
    [discriminate|].
  assert (Hds : ds = firstn 5 (takeWhile is_digit (c :: t))) by congruence.
  clear H. subst ds.
  exists (takeWhile (fun c => negb (is_digit c)) s),
         (skipn 5 (takeWhile is_digit (c :: t)) ++ dropWhile is_digit (c :: t)).
  split; [|split; [apply takeWhile_all | exact Hrun]].
  rewrite (app_assoc (firstn 5 _)), firstn_skipn, take_drop_while. now symmetry.
Qed.

Lemma pt_here_found (s ds : str) :
  Spec.pt_here s = Some ds -> exists post, s = lit "pt-" ++ ds ++ post.
Proof.
  unfold Spec.pt_here.
  destruct (Spec.strip_prefix Spec.same (lit "pt-") s) as [rest|] eqn:E;
    [|discriminate].
  apply strip_prefix_same in E.
  destruct (takeWhile is_digit rest) as [|d run] eqn:Er; [discriminate|].
  intros H. assert (Hds : ds = firstn 5 (d :: run)) by congruence.
  clear H. subst ds.
  exists (skipn 5 (d :: run) ++ dropWhile is_digit rest).
  rewrite (app_assoc (firstn 5 _)), firstn_skipn, <- Er, take_drop_while. exact E.
Qed.

(** The class token: [pt-], then the digits. *)
Lemma pt_token_found (s ds : str) :
  Spec.pt_token s = Some ds ->
  exists pre post, s = pre ++ lit "pt-" ++ ds ++ post /\ digit_run ds.
Proof.
  intros H. pose proof (pt_token_run s ds H) as Hrun. revert H.
  induction s as [|c s IH]; cbn [Spec.pt_token];
    destruct (Spec.pt_here _) as [r|] eqn:E; try discriminate.
  - intros H. injection H as ->. apply pt_here_found in E as [post E].
    exists [], post. now split.
  - intros H. destruct (IH H) as (pre & post & -> & _).
    exists (c :: pre), post. now split.
Qed.

Lemma same_ci_paren (c : char) : Spec.same_ci 40%N c = true -> c = 40%N.
Proof.
  unfold Spec.same_ci, canon. change ((97 <=? 40)%N && (40 <=? 122)%N) with false.
  cbn [andb]. rewrite N.eqb_eq.
  destruct (N.leb_spec 97 c); destruct (N.leb_spec c 122); cbn [andb]; lia.
Qed.

Lemma number_here_found (s ds : str) :
  Spec.number_here s = Some ds ->
  exists post, s = ds ++ post /\ Spec.unit_follows post = true.
Proof.
  unfold Spec.number_here.
  destruct ((1 <=? length (takeWhile is_digit s))%nat
            && (length (takeWhile is_digit s) <=? 5)%nat); [|discriminate].
  cbn [andb]. destruct (Spec.unit_follows (dropWhile is_digit s)) eqn:E;
    [|discriminate].
  intros H. injection H as <-. exists (dropWhile is_digit s).
  split; [now rewrite take_drop_while | exact E].
Qed.

(** The markup scan: an opening parenthesis or white space, the digits, and
    what must follow them. *)
Lemma markup_scan_found (s ds : str) :
  Spec.markup_scan s = Some ds ->
  exists pre c post,
    s = pre ++ c :: ds ++ post
    /\ (c = 40%N \/ is_space c = true)
    /\ digit_run ds
    /\ Spec.unit_follows post = true.
Proof.
  intros H. pose proof (markup_scan_run s ds H) as Hrun. revert H.
  induction s as [|c s IH]; cbn [Spec.markup_scan]; [discriminate|].
  destruct (Spec.same_ci 40%N c || is_space c) eqn:Ec.
  - destruct (Spec.number_here s) as [r|] eqn:E.
    + intros H. injection H as ->.
      apply number_here_found in E as (post & -> & Hu).
      exists [], c, post. split; [reflexivity|].
      split; [|split; [exact Hrun | exact Hu]].
      apply orb_true_iff in Ec as [Ec | Ec]; [left; now apply same_ci_paren | now right].
    + intros H. destruct (IH H) as (pre & c' & post & -> & Hc & _ & Hu).
      exists (c :: pre), c', post. split; [reflexivity | auto].
  - intros H. destruct (IH H) as (pre & c' & post & -> & Hc & _ & Hu).
    exists (c :: pre), c', post. split; [reflexivity | auto].
Qed.

(* ================================================================== *)
(** ** The working map                                                 *)
(* ================================================================== *)

Lemma map_get_set_same (k : str) (v : TextEntry) (m : JsMap) :
  map_get k (map_set k v m) = Some v.
Proof.
  induction m as [|[k' v'] m IH]; simpl.
  - now rewrite str_eqb_refl.
  - destruct (str_eqb k' k) eqn:E; simpl; rewrite E; [reflexivity | exact IH].
Qed.

Lemma map_get_set_other (k k' : str) (v : TextEntry) (m : JsMap) :
  k' <> k -> map_get k' (map_set k v m) = map_get k' m.
Proof.
  intros Hne. induction m as [|[k0 v0] m IH]; simpl.
  - apply str_eqb_neq in Hne. destruct (str_eqb k k') eqn:E; [|reflexivity].
    apply str_eqb_eq in E. subst. now rewrite str_eqb_refl in Hne.
  - destruct (str_eqb k0 k) eqn:E; simpl.
    + apply str_eqb_eq in E. subst k0.
      destruct (str_eqb k k') eqn:E'; [|reflexivity].
      apply str_eqb_eq in E'. congruence.
    + now rewrite IH.
Qed.

Lemma map_get_none (k : str) (m : JsMap) :
  map_get k m = None <-> ~ In k (keys m).
Proof.
  induction m as [|[k' v'] m IH]; simpl; [tauto|].
  destruct (str_eqb k' k) eqn:E.
  - apply str_eqb_eq in E. split; [discriminate | tauto].
  - apply str_eqb_neq in E. rewrite IH. tauto.
Qed.

Lemma map_get_in (k : str) (v : TextEntry) (m : JsMap) :
  map_get k m = Some v -> In (k, v) m.
Proof.
  induction m as [|[k' v'] m IH]; simpl; [discriminate|].
  destruct (str_eqb k' k) eqn:E.
  - apply str_eqb_eq in E. intros H. injection H as ->. left. now subst.
  - intros H. right. now apply IH.
Qed.

Lemma in_map_get (k : str) (v : TextEntry) (m : JsMap) :
  NoDup (keys m) -> In (k, v) m -> map_get k m = Some v.
Proof.
  induction m as [|[k' v'] m IH]; simpl; [tauto|].
  intros Hnd [Heq | Hin].
  - injection Heq as -> ->. now rewrite str_eqb_refl.
  - apply NoDup_cons_iff in Hnd as [Hnotin Hnd].
    destruct (str_eqb k' k) eqn:E.
    + apply str_eqb_eq in E. subst k'. exfalso. apply Hnotin.
      change k with (fst (k, v)). now apply in_map.
    + now apply IH.
Qed.

Lemma map_set_present (k : str) (v e : TextEntry) (m : JsMap) :
  map_get k m = Some e -> keys (map_set k v m) = keys m.
Proof.
  induction m as [|[k' v'] m IH]; simpl; [discriminate|].
  destruct (str_eqb k' k) eqn:E; simpl; [reflexivity|].
  intros H. now rewrite IH.
Qed.

Lemma map_set_absent (k : str) (v : TextEntry) (m : JsMap) :
  map_get k m = None -> map_set k v m = m ++ [(k, v)].
Proof.
  induction m as [|[k' v'] m IH]; simpl; [reflexivity|].
  destruct (str_eqb k' k) eqn:E; [discriminate|].
  intros H. now rewrite IH.
Qed.

Lemma map_set_length (k : str) (v : TextEntry) (m : JsMap) :
  (length m <= length (map_set k v m))%nat.
Proof.
  induction m as [|[k' v'] m IH]; simpl; [lia|].
  destruct (str_eqb k' k); simpl; lia.
Qed.

Lemma map_set_forall (P : str * TextEntry -> Prop) (k : str) (v : TextEntry)
    (m : JsMap) :
  Forall P m -> P (k, v) -> Forall P (map_set k v m).
Proof.
  intros Hm Hkv. induction Hm as [|[k' v'] m Hx Hm IH]; simpl.
  - now constructor.
  - destruct (str_eqb k' k) eqn:E.
    + apply str_eqb_eq in E. subst k'. now constructor.
    + now constructor.
Qed.

Lemma well_keyed_nil : well_keyed [].
Proof. split; constructor. Qed.

Lemma well_keyed_set (k : str) (v : TextEntry) (m : JsMap) :
  well_keyed m -> k = entry_key v -> well_keyed (map_set k v m).
Proof.
  intros [Hnd Hk] Hkv. split.
  - destruct (map_get k m) as [e|] eqn:E.
    + now rewrite (map_set_present k v e m E).
    + rewrite (map_set_absent k v m E). unfold keys. rewrite map_app. simpl.
      apply map_get_none in E.
      apply NoDup_rev in Hnd. rewrite <- (rev_involutive (map fst m ++ [k])).
      apply NoDup_rev. rewrite rev_app_distr. simpl. constructor.
      * intros Hin. apply E. now apply in_rev.
      * exact Hnd.
  - now apply map_set_forall.
Qed.

Lemma well_keyed_value (m : JsMap) (k : str) (v : TextEntry) :
  well_keyed m -> map_get k m = Some v -> entry_key v = k.
Proof.
  intros [_ Hk] Hget. apply map_get_in in Hget.
  rewrite Forall_forall in Hk. symmetry. exact (Hk _ Hget).
Qed.

(** The saved entries have pairwise different identity keys. *)
Lemma well_keyed_values (m : JsMap) :
  well_keyed m -> NoDup (map entry_key (map_values m)).
Proof.
  intros [Hnd Hk]. unfold map_values. rewrite map_map.
  replace (map (fun kv => entry_key (snd kv)) m) with (keys m); [exact Hnd|].
  unfold keys. apply map_ext_in. intros kv Hin.
  rewrite Forall_forall in Hk. now apply Hk.
Qed.

Lemma in_values_get (m : JsMap) (v : TextEntry) :
  well_keyed m -> In v (map_values m) -> map_get (entry_key v) m = Some v.
Proof.
  intros [Hnd Hk] Hin. unfold map_values in Hin. apply in_map_iff in Hin.
  destruct Hin as ([k v'] & Heq & Hin). simpl in Heq. subst v'.
  apply in_map_get; [exact Hnd|].
  rewrite Forall_forall in Hk. specialize (Hk _ Hin). simpl in Hk. now subst k.
Qed.

Lemma get_in_values (m : JsMap) (k : str) (v : TextEntry) :
  map_get k m = Some v -> In v (map_values m).
Proof.
  intros H. apply map_get_in in H. unfold map_values.
  change v with (snd (k, v)). now apply in_map.
Qed.

(** Indexing the loaded history. *)
Lemma index_from_well_keyed (existing : Schema) (m : JsMap) :
  well_keyed m ->
  well_keyed (fold_left (fun m e => map_set (entry_key e) e m) existing m).
Proof.
  revert m; induction existing as [|e l IH]; intros m Hm; simpl; [exact Hm|].
  apply IH. now apply well_keyed_set.
Qed.

Lemma index_existing_well_keyed (existing : Schema) :
  well_keyed (index_existing existing).
Proof. apply index_from_well_keyed, well_keyed_nil. Qed.

Lemma index_from_distinct (existing : Schema) (m : JsMap) :
  NoDup (keys m ++ map entry_key existing) ->
  fold_left (fun m e => map_set (entry_key e) e m) existing m
  = m ++ map (fun e => (entry_key e, e)) existing.
Proof.
  revert m; induction existing as [|e l IH]; intros m Hnd; simpl.
  - now rewrite app_nil_r.
  - assert (Habs : map_get (entry_key e) m = None).
    { apply map_get_none. intros Hin.
      apply NoDup_remove_2 in Hnd. apply Hnd, in_or_app. now left. }
    rewrite (map_set_absent _ _ _ Habs), IH.
    + now rewrite <- app_assoc.
    + unfold keys. rewrite map_app. simpl. rewrite <- app_assoc. exact Hnd.
Qed.

(** A history without duplicate keys is indexed entry by entry, in its
    order. *)
Lemma index_existing_distinct (existing : Schema) :
  NoDup (map entry_key existing) ->
  index_existing existing = map (fun e => (entry_key e, e)) existing.
Proof.
  intros Hnd. unfold index_existing. now rewrite index_from_distinct.
Qed.

Lemma values_index_distinct (existing : Schema) :
  NoDup (map entry_key existing) ->
  map_values (index_existing existing) = existing.
Proof.
  intros Hnd. rewrite index_existing_distinct by assumption.
  unfold map_values. rewrite map_map. simpl. apply map_id.
Qed.

Lemma index_from_keeps_keys (existing : Schema) (m : JsMap) (k : str) :
  map_get k m <> None \/ In k (map entry_key existing) ->
  map_get k (fold_left (fun m e => map_set (entry_key e) e m) existing m) <> None.
Proof.
  revert m; induction existing as [|e l IH]; intros m H; simpl.
  - destruct H as [H | []]. exact H.
  - apply IH. simpl in H.
    destruct (list_eq_dec N.eq_dec k (entry_key e)) as [-> | Hne].
    + left. now rewrite map_get_set_same.
    + destruct H as [H | [H | H]]; [| congruence | now right].
      left. now rewrite map_get_set_other.
Qed.

(** Every entry of the loaded history has its key in the index. *)
Lemma index_existing_has_key (existing : Schema) (e : TextEntry) :
  In e existing -> map_get (entry_key e) (index_existing existing) <> None.
Proof.
  intros Hin. apply index_from_keeps_keys. right. now apply in_map.
Qed.

(* ================================================================== *)
(** ** One parsed entry merged into the map                            *)
(* ================================================================== *)

Lemma extends_refl (e : TextEntry) : extends e e.
Proof. repeat split. exists []. now rewrite app_nil_r. Qed.

Lemma extends_trans (a b c : TextEntry) : extends a b -> extends b c -> extends a c.
Proof.
  intros (Hn1 & Hu1 & x & Hx) (Hn2 & Hu2 & y & Hy). repeat split; try congruence.
  exists (x ++ y). now rewrite Hy, Hx, app_assoc.
Qed.

Lemma extends_push (e : TextEntry) (sp : ScorePoint) : extends e (push_score e sp).
Proof. repeat split. now exists [sp]. Qed.

Lemma extends_key (e e' : TextEntry) : extends e e' -> entry_key e' = entry_key e.
Proof. intros (Hn & Hu & _). unfold entry_key. now rewrite Hn, Hu. Qed.

Lemma merge_one_none (m : JsMap) (p : TextEntry) :
  score p = [] -> merge_one m p = None.
Proof.
  intros H. unfold merge_one. rewrite H. now destruct (map_get _ m).
Qed.

Lemma merge_one_new (m : JsMap) (p : TextEntry) :
  score p <> [] -> map_get (entry_key p) m = None ->
  merge_one m p = Some (map_set (entry_key p) p m).
Proof.
  intros Hs Hg. unfold merge_one. rewrite Hg.
  destruct (score p); [congruence | reflexivity].
Qed.

Lemma merge_one_old (m : JsMap) (p e : TextEntry) (p0 : ScorePoint)
    (rest : list ScorePoint) :
  score p = p0 :: rest -> map_get (entry_key p) m = Some e ->
  merge_one m p =
    Some (if changed e p0
          then map_set (entry_key p)
                 (push_score e {| timestamp := timestamp p0; points := points p0 |}) m
          else m).
Proof.
  intros Hs Hg. unfold merge_one, changed. rewrite Hg, Hs.
  destruct (last_opt (score e)) as [l|]; [|reflexivity].
  destruct (strict_neq (points l) (points p0)); reflexivity.
Qed.

Lemma merge_one_some (m : JsMap) (p : TextEntry) :
  score p <> [] -> exists m', merge_one m p = Some m'.
Proof.
  intros Hs. destruct (score p) as [|p0 rest] eqn:E; [congruence|].
  destruct (map_get (entry_key p) m) as [e|] eqn:G.
  - rewrite (merge_one_old m p e p0 rest E G). eauto.
  - rewrite (merge_one_new m p) by (congruence || assumption). eauto.
Qed.

(** The three outcomes of the loop body. *)
Lemma merge_one_cases (m m' : JsMap) (p : TextEntry) :
  merge_one m p = Some m' ->
  exists p0 rest, score p = p0 :: rest /\
    ((map_get (entry_key p) m = None /\ m' = map_set (entry_key p) p m)
     \/ (exists e, map_get (entry_key p) m = Some e /\ changed e p0 = true
          /\ m' = map_set (entry_key p)
                    (push_score e {| timestamp := timestamp p0; points := points p0 |}) m)
     \/ (exists e, map_get (entry_key p) m = Some e /\ changed e p0 = false
          /\ m' = m)).
Proof.
  intros H. destruct (score p) as [|p0 rest] eqn:E.
  - now rewrite merge_one_none in H.
  - exists p0, rest. split; [reflexivity|].
    destruct (map_get (entry_key p) m) as [e|] eqn:G.
    + rewrite (merge_one_old m p e p0 rest E G) in H. injection H as <-.
      right. destruct (changed e p0) eqn:C; [left | right]; eauto.
    + rewrite (merge_one_new m p) in H by (congruence || assumption).
      injection H as <-. left. eauto.
Qed.

(** Bindings under other keys are not touched. *)
Lemma merge_one_frame (m m' : JsMap) (p : TextEntry) (k : str) :
  merge_one m p = Some m' -> k <> entry_key p -> map_get k m' = map_get k m.
Proof.
  intros H Hk. apply merge_one_cases in H as (p0 & rest & _ & H).
  destruct H as [[_ ->] | [(e & _ & _ & ->) | (e & _ & _ & ->)]];
    try reflexivity; now apply map_get_set_other.
Qed.

(** A binding stays, and its entry can only have gained score points. *)
Lemma merge_one_grows (m m' : JsMap) (p : TextEntry) (k : str) (e : TextEntry) :
  merge_one m p = Some m' -> map_get k m = Some e ->
  exists e', map_get k m' = Some e' /\ extends e e'.
Proof.
  intros H Hg.
  destruct (list_eq_dec N.eq_dec k (entry_key p)) as [-> | Hne].
  - apply merge_one_cases in H as (p0 & rest & _ & H).
    destruct H as [[Hn _] | [(e1 & G & _ & ->) | (e1 & G & _ & ->)]].
    + congruence.
    + rewrite map_get_set_same. rewrite Hg in G. injection G as <-.
      eexists. split; [reflexivity | apply extends_push].
    + exists e. split; [assumption | apply extends_refl].
  - rewrite (merge_one_frame m m' p k H Hne). exists e.
    split; [assumption | apply extends_refl].
Qed.

Lemma merge_one_has_key (m m' : JsMap) (p : TextEntry) :
  merge_one m p = Some m' -> map_get (entry_key p) m' <> None.
Proof.
  intros H. apply merge_one_cases in H as (p0 & rest & _ & H).
  destruct H as [[_ ->] | [(e & _ & _ & ->) | (e & G & _ & ->)]];
    try (rewrite map_get_set_same; discriminate). congruence.
Qed.

Lemma merge_one_length (m m' : JsMap) (p : TextEntry) :
  merge_one m p = Some m' -> (length m <= length m')%nat.
Proof.
  intros H. apply merge_one_cases in H as (p0 & rest & _ & H).
  destruct H as [[_ ->] | [(e & _ & _ & ->) | (e & _ & _ & ->)]];
    try apply map_set_length. lia.
Qed.

Lemma merge_one_well_keyed (m m' : JsMap) (p : TextEntry) :
  well_keyed m -> merge_one m p = Some m' -> well_keyed m'.
Proof.
  intros Hm H. apply merge_one_cases in H as (p0 & rest & _ & H).
  destruct H as [[_ ->] | [(e & G & _ & ->) | (e & _ & _ & ->)]].
  - now apply well_keyed_set.
  - apply well_keyed_set; [assumption|].
    rewrite (extends_key e _ (extends_push e _)).
    symmetry. eapply well_keyed_value; eassumption.
  - assumption.
Qed.

(* ================================================================== *)
(** ** All parsed entries merged                                       *)
(* ================================================================== *)

Lemma merge_all_app (m : JsMap) (l1 l2 : list TextEntry) :
  merge_all m (l1 ++ l2) =
    match merge_all m l1 with
    | Some m1 => merge_all m1 l2
    | None => None
    end.
Proof.
  revert m; induction l1 as [|p l1 IH]; intros m; simpl; [reflexivity|].
  destruct (merge_one m p); [apply IH | reflexivity].
Qed.

Lemma merge_all_some (m : JsMap) (l : list TextEntry) :
  Forall (fun p => score p <> []) l -> exists m', merge_all m l = Some m'.
Proof.
  intros Hl. revert m; induction Hl as [|p l Hp Hl IH]; intros m; simpl.
  - eauto.
  - destruct (merge_one_some m p Hp) as [m1 ->]. apply IH.
Qed.

Lemma merge_all_frame (l : list TextEntry) (m m' : JsMap) (k : str) :
  merge_all m l = Some m' ->
  (forall p, In p l -> entry_key p <> k) ->
  map_get k m' = map_get k m.
Proof.
  revert m; induction l as [|p l IH]; intros m H Hk; simpl in H.
  - now injection H as <-.
  - destruct (merge_one m p) as [m1|] eqn:E; [|discriminate].
    rewrite (IH m1 H) by (intros q Hq; apply Hk; now right).
    apply (merge_one_frame m m1 p k E). intros Heq. apply (Hk p); [now left | auto].
Qed.

Lemma merge_all_grows (l : list TextEntry) (m m' : JsMap) (k : str) (e : TextEntry) :
  merge_all m l = Some m' -> map_get k m = Some e ->
  exists e', map_get k m' = Some e' /\ extends e e'.
Proof.
  revert m e; induction l as [|p l IH]; intros m e H Hg; simpl in H.
  - injection H as <-. exists e. split; [assumption | apply extends_refl].
  - destruct (merge_one m p) as [m1|] eqn:E; [|discriminate].
    destruct (merge_one_grows m m1 p k e E Hg) as (e1 & G1 & X1).
    destruct (IH m1 e1 H G1) as (e2 & G2 & X2).
    exists e2. split; [assumption | eapply extends_trans; eassumption].
Qed.

Lemma merge_all_has_key (l : list TextEntry) (m m' : JsMap) (p : TextEntry) :
  merge_all m l = Some m' -> In p l -> map_get (entry_key p) m' <> None.
Proof.
  revert m; induction l as [|q l IH]; intros m H Hin; simpl in H; [destruct Hin|].
  destruct (merge_one m q) as [m1|] eqn:E; [|discriminate].
  destruct Hin as [-> | Hin]; [|now apply (IH m1)].
  pose proof (merge_one_has_key m m1 p E) as Hk.
  destruct (map_get (entry_key p) m1) as [e|] eqn:G; [|congruence].
  destruct (merge_all_grows l m1 m' _ e H G) as (e' & G' & _). congruence.
Qed.

Lemma merge_all_length (l : list TextEntry) (m m' : JsMap) :
  merge_all m l = Some m' -> (length m <= length m')%nat.
Proof.
  revert m; induction l as [|p l IH]; intros m H; simpl in H.
  - injection H as <-. lia.
  - destruct (merge_one m p) as [m1|] eqn:E; [|discriminate].
    apply merge_one_length in E. apply IH in H. lia.
Qed.

Lemma merge_all_well_keyed (l : list TextEntry) (m m' : JsMap) :
  well_keyed m -> merge_all m l = Some m' -> well_keyed m'.
Proof.
  revert m; induction l as [|p l IH]; intros m Hm H; simpl in H.
  - now injection H as <-.
  - destruct (merge_one m p) as [m1|] eqn:E; [|discriminate].
    apply (IH m1); [eapply merge_one_well_keyed; eassumption | assumption].
Qed.

(* ================================================================== *)
(** ** The sort and the saved array                                    *)
(* ================================================================== *)

Section Saved.

Variable localeCompare : str -> str -> Z.

Lemma sort_insert_perm (e : TextEntry) (l : list TextEntry) :
  Permutation (sort_insert localeCompare e l) (e :: l).
Proof.
  induction l as [|x l IH]; simpl; [apply Permutation_refl|].
  destruct (localeCompare (name e) (name x) <=? 0); [apply Permutation_refl|].
  eapply perm_trans; [apply perm_skip, IH | apply perm_swap].
Qed.

(** Sorting moves the entries and changes none. *)
Lemma sort_perm (l : list TextEntry) :
  Permutation (sort_by_name localeCompare l) l.
Proof.
  induction l as [|e l IH]; simpl; [apply perm_nil|].
  eapply perm_trans; [apply sort_insert_perm | now apply perm_skip].
Qed.

Lemma sort_in (l : list TextEntry) (e : TextEntry) :
  In e (sort_by_name localeCompare l) <-> In e l.
Proof.
  split; apply Permutation_in; [apply sort_perm | apply Permutation_sym, sort_perm].
Qed.

Lemma sort_length (l : list TextEntry) :
  length (sort_by_name localeCompare l) = length l.
Proof. apply Permutation_length, sort_perm. Qed.

Lemma sort_insert_sorted (e : TextEntry) (l : list TextEntry) :
  comparator_total localeCompare ->
  sorted localeCompare l -> sorted localeCompare (sort_insert localeCompare e l).
Proof.
  intros Htot. induction l as [|x l IH]; intros Hs.
  - simpl. tauto.
  - cbn [sort_insert]. destruct (Z.leb_spec (localeCompare (name e) (name x)) 0) as [Hle|Hgt].
    + split; [exact Hle | exact Hs].
    + destruct Hs as [Hx Hl]. specialize (IH Hl). split; [|exact IH].
      destruct l as [|y l]; cbn [sort_insert].
      * unfold name_le. destruct (Htot (name e) (name x)); [lia | assumption].
      * destruct (localeCompare (name e) (name y) <=? 0); [|exact Hx].
        unfold name_le. destruct (Htot (name e) (name x)); [lia | assumption].
Qed.

Lemma sort_sorted (l : list TextEntry) :
  comparator_total localeCompare -> sorted localeCompare (sort_by_name localeCompare l).
Proof.
  intros Htot. induction l as [|e l IH]; simpl; [exact I|].
  now apply sort_insert_sorted.
Qed.

(** An array that is in order is left as it is. *)
Lemma sort_of_sorted (l : list TextEntry) :
  sorted localeCompare l -> sort_by_name localeCompare l = l.
Proof.
  induction l as [|e l IH]; [reflexivity|]. intros [He Hl].
  cbn [sort_by_name]. rewrite (IH Hl).
  destruct l as [|x l]; [reflexivity|]. cbn [sort_insert].
  unfold name_le in He. apply Z.leb_le in He. now rewrite He.
Qed.

Lemma reconcile_inv (existing : Schema) (parsedEntries : list TextEntry)
    (out : Schema) :
  reconcile localeCompare existing parsedEntries = Some out ->
  exists m, merge_all (index_existing existing) parsedEntries = Some m
            /\ well_keyed m
            /\ out = sort_by_name localeCompare (map_values m).
Proof.
  unfold reconcile.
  destruct (merge_all (index_existing existing) parsedEntries) as [m|] eqn:E;
    [|discriminate].
  intros H. injection H as <-. exists m.
  split; [reflexivity|]. split; [|reflexivity].
  eapply merge_all_well_keyed; [apply index_existing_well_keyed | exact E].
Qed.

(** On parsed entries that have their score point the merge does not throw. *)
Lemma reconcile_some (existing : Schema) (parsedEntries : list TextEntry) :
  Forall is_reading parsedEntries ->
  exists out, reconcile localeCompare existing parsedEntries = Some out.
Proof.
  intros Hr. unfold reconcile.
  destruct (merge_all_some (index_existing existing) parsedEntries) as [m ->].
  - eapply Forall_impl; [|exact Hr]. unfold is_reading. intros p Hp Hs.
    rewrite Hs in Hp. discriminate.
  - eauto.
Qed.

Lemma reconcile_distinct_keys (existing : Schema) (parsedEntries : list TextEntry)
    (out : Schema) :
  reconcile localeCompare existing parsedEntries = Some out ->
  NoDup (map entry_key out).
Proof.
  intros H. apply reconcile_inv in H as (m & _ & Hwk & ->).
  eapply Permutation_NoDup; [|apply (well_keyed_values m Hwk)].
  apply Permutation_sym, Permutation_map, sort_perm.
Qed.

End Saved.

(** An entry bound in the final map is in the saved array. *)
Ltac saved_entry := apply sort_in; eapply get_in_values; eassumption.

(* ================================================================== *)
(** ** The claims about the merge                                      *)
(* ================================================================== *)

Lemma last_opt_none {A} (l : list A) : last_opt l = None <-> l = [].
Proof.
  induction l as [|x l IH]; simpl; [tauto|].
  destruct l as [|y l]; [split; discriminate|].
  rewrite IH. split; discriminate.
Qed.

Lemma last_opt_snoc {A} (l : list A) (x : A) : last_opt (l ++ [x]) = Some x.
Proof.
  induction l as [|y l IH]; [reflexivity|].
  simpl. destruct (l ++ [x]) eqn:E; [now destruct l | exact IH].
Qed.

Lemma snoc_neq {A} (l : list A) (x : A) : l ++ [x] <> l.
Proof.
  intros H. apply (f_equal (@length A)) in H. rewrite length_app in H.
  simpl in H. lia.
Qed.

Lemma strict_neq_differ (a b : number) :
  strict_neq a b = true <-> (a <> b \/ b = NaN).
Proof.
  destruct a as [|x], b as [|y]; cbn [strict_neq].
  - split; [now right | reflexivity].
  - split; [left; discriminate | reflexivity].
  - split; [now right | reflexivity].
  - rewrite negb_true_iff, Z.eqb_neq. split.
    + intros H. left. congruence.
    + intros [H | H]; [congruence | discriminate].
Qed.

Lemma strict_neq_same (a b : number) :
  strict_neq a b = false <-> (a = b /\ b <> NaN).
Proof.
  destruct a as [|x], b as [|y]; cbn [strict_neq].
  - split; [discriminate | intros [_ H]; congruence].
  - split; [discriminate | intros [H _]; discriminate].
  - split; [discriminate | intros [H _]; discriminate].
  - rewrite negb_false_iff, Z.eqb_eq. split.
    + intros ->. split; [reflexivity | discriminate].
    + intros [H _]. congruence.
Qed.

(** C1. A parsed entry [p] whose key is bound to [e] in the map: the merge
    pushes the score point [{timestamp, points}] of [p] onto the score of
    [e] if and only if that score is empty or its last points are not the
    points of [p]; when they are the same points the score of [e] is what
    it was. For integer points [a] last and [b] parsed that is: pushed if
    and only if [a <> b], unchanged if and only if [a = b]. NaN, which no
    page and no file gives, is never the same as anything. The name and the
    url of [e] stay, and so does every binding under another key. *)
Theorem merge_one_appends_iff_points_changed :
  forall (m : JsMap) (p e : TextEntry) (p0 : ScorePoint) (rest : list ScorePoint),
    map_get (entry_key p) m = Some e ->
    score p = p0 :: rest ->
    exists m' e',
      merge_one m p = Some m'
      /\ map_get (entry_key p) m' = Some e'
      /\ name e' = name e /\ url e' = url e
      /\ (score e' = score e ++ [{| timestamp := timestamp p0; points := points p0 |}]
          <-> (score e = []
               \/ exists l, last_opt (score e) = Some l
                            /\ (points l <> points p0 \/ points p0 = NaN)))
      /\ (score e' = score e
          <-> exists l, last_opt (score e) = Some l
                        /\ points l = points p0 /\ points p0 <> NaN)
      /\ (forall l a b,
            last_opt (score e) = Some l -> points l = Num a -> points p0 = Num b ->
            (score e' = score e ++ [{| timestamp := timestamp p0; points := Num b |}]
             <-> a <> b)
            /\ (score e' = score e <-> a = b))
      /\ (forall k, k <> entry_key p -> map_get k m' = map_get k m).
Proof.
  intros m p e p0 rest Hg Hs.
  pose proof (merge_one_old m p e p0 rest Hs Hg) as Hm.
  unfold changed in Hm.
  destruct (last_opt (score e)) as [l|] eqn:El.
  - pose proof (strict_neq_differ (points l) (points p0)) as Hd.
    pose proof (strict_neq_same (points l) (points p0)) as Hsame.
    destruct (strict_neq (points l) (points p0)) eqn:En.
    + assert (Hdiff : points l <> points p0 \/ points p0 = NaN) by now apply Hd.
      eexists _, _. split; [exact Hm|]. rewrite map_get_set_same.
      split; [reflexivity|]. cbn [push_score name url score].
      split; [reflexivity|]. split; [reflexivity|].
      split; [split; [intros _; right; exists l; now split | reflexivity]|].
      split; [|split].
      * split.
        -- intros H. exfalso. now apply snoc_neq in H.
        -- intros (l' & Hl' & Heq & Hnan). injection Hl' as <-.
           destruct Hdiff; congruence.
      * intros l' a b Hl' Ha Hb. injection Hl' as <-. rewrite Hb. split.
        -- split; [|reflexivity]. intros _ Hab. subst b.
           destruct Hdiff as [H | H]; congruence.
        -- split.
           ++ intros H. exfalso. now apply snoc_neq in H.
           ++ intros ->. destruct Hdiff as [H | H]; congruence.
      * intros k Hk. now apply map_get_set_other.
    + assert (Heq : points l = points p0 /\ points p0 <> NaN) by now apply Hsame.
      destruct Heq as [Heq Hnan].
      exists m, e. split; [exact Hm|]. split; [exact Hg|].
      split; [reflexivity|]. split; [reflexivity|].
      split; [|split; [|split]].
      * split.
        -- intros H. exfalso. symmetry in H. now apply snoc_neq in H.
        -- intros [H | (l' & Hl' & [Hne | Hn])].
           ++ apply last_opt_none in H. congruence.
           ++ congruence.
           ++ congruence.
      * split; [intros _; exists l; now repeat split | reflexivity].
      * intros l' a b Hl' Ha Hb. injection Hl' as <-. split.
        -- split.
           ++ intros H. exfalso. symmetry in H. now apply snoc_neq in H.
           ++ intros Hab. congruence.
        -- split; [intros _; congruence | reflexivity].
      * reflexivity.
  - apply last_opt_none in El.
    eexists _, _. split; [exact Hm|]. rewrite map_get_set_same.
    split; [reflexivity|]. cbn [push_score name url score].
    split; [reflexivity|]. split; [reflexivity|].
    split; [split; [intros _; now left | reflexivity]|].
    split; [|split].
    + split.
      * intros H. exfalso. now apply snoc_neq in H.
      * intros (l' & Hl' & _). discriminate Hl'.
    + intros l' a b Hl'. discriminate Hl'.
    + intros k Hk. now apply map_get_set_other.
Qed.

(** C6. Whatever is parsed, an entry that the working map holds for the
    loaded history is saved with the name and the url it had; its score can
    only have gained score points at the end. *)
Theorem reconcile_keeps_name_and_url :
  forall (localeCompare : str -> str -> Z) (existing : Schema)
         (parsedEntries : list TextEntry) (e : TextEntry),
    Forall is_reading parsedEntries ->
    map_get (entry_key e) (index_existing existing) = Some e ->
    exists out e',
      reconcile localeCompare existing parsedEntries = Some out
      /\ In e' out
      /\ entry_key e' = entry_key e
      /\ name e' = name e /\ url e' = url e
      /\ exists added, score e' = score e ++ added.
Proof.
  intros cmp existing parsed e Hr Hg.
  destruct (reconcile_some cmp existing parsed Hr) as [out Hout].
  destruct (reconcile_inv cmp existing parsed out Hout) as (m & Hm & Hwk & ->).
  destruct (merge_all_grows parsed _ m _ e Hm Hg) as (e' & Hg' & Hext).
  exists (sort_by_name cmp (map_values m)), e'.
  split; [exact Hout|]. split.
  - saved_entry.
  - split; [now apply extends_key|]. exact Hext.
Qed.

Lemma index_existing_get (existing : Schema) (e : TextEntry) :
  NoDup (map entry_key existing) -> In e existing ->
  map_get (entry_key e) (index_existing existing) = Some e.
Proof.
  intros Hnd Hin. apply in_map_get.
  - apply index_existing_well_keyed.
  - rewrite index_existing_distinct by assumption.
    apply (in_map (fun e => (entry_key e, e))), Hin.
Qed.

(** C3, amended. A loaded history in which no two entries have the same
    identity key: the saved array has at least as many entries, every
    loaded entry is saved under its key with a score at least as long, and
    a loaded entry whose key no parsed entry has is saved as it was. *)
Theorem reconcile_never_shrinks :
  forall (localeCompare : str -> str -> Z) (existing : Schema)
         (parsedEntries : list TextEntry),
    NoDup (map entry_key existing) ->
    Forall is_reading parsedEntries ->
    exists out,
      reconcile localeCompare existing parsedEntries = Some out
      /\ (length existing <= length out)%nat
      /\ (forall e, In e existing ->
            exists e', In e' out /\ entry_key e' = entry_key e
                       /\ (length (score e) <= length (score e'))%nat)
      /\ (forall e, In e existing ->
            (forall p, In p parsedEntries -> entry_key p <> entry_key e) ->
            In e out).
Proof.
  intros cmp existing parsed Hnd Hr.
  destruct (reconcile_some cmp existing parsed Hr) as [out Hout].
  exists out. split; [exact Hout|].
  destruct (reconcile_inv cmp existing parsed out Hout) as (m & Hm & Hwk & ->).
  split; [|split].
  - rewrite sort_length. unfold map_values. rewrite length_map.
    apply merge_all_length in Hm.
    rewrite index_existing_distinct, length_map in Hm by assumption. exact Hm.
  - intros e Hin.
    pose proof (index_existing_get existing e Hnd Hin) as Hg.
    destruct (merge_all_grows parsed _ m _ e Hm Hg) as (e' & Hg' & Hext).
    exists e'. split; [saved_entry|].
    split; [now apply extends_key|].
    destruct Hext as (_ & _ & added & ->). rewrite length_app. lia.
  - intros e Hin Hno.
    pose proof (index_existing_get existing e Hnd Hin) as Hg.
    rewrite <- (merge_all_frame parsed _ m (entry_key e) Hm Hno) in Hg.
    saved_entry.
Qed.

Lemma entry_key_url (x : TextEntry) : url x <> [] -> entry_key x = url x.
Proof. unfold entry_key, or_else. destruct (url x); [congruence | reflexivity]. Qed.

Lemma entry_key_name (x : TextEntry) : url x = [] -> entry_key x = name x.
Proof. unfold entry_key, or_else. now intros ->. Qed.

(** The url decides when there is one, the name decides when there is
    none. *)
Lemma same_identity (x y : TextEntry) :
  (url x <> [] /\ url y = url x) \/ (url x = [] /\ url y = [] /\ name y = name x) ->
  entry_key y = entry_key x.
Proof.
  intros [[Hx Hy] | (Hx & Hy & Hn)].
  - rewrite !entry_key_url; congruence.
  - rewrite !entry_key_name; congruence.
Qed.

Lemma reconcile_binding (localeCompare : str -> str -> Z) (existing : Schema)
    (parsedEntries : list TextEntry) (out : Schema) (x : TextEntry) :
  reconcile localeCompare existing parsedEntries = Some out ->
  In x (existing ++ parsedEntries) ->
  exists e, In e out /\ entry_key e = entry_key x
            /\ forall e', In e' out -> entry_key e' = entry_key x -> e' = e.
Proof.
  intros Hout Hin.
  destruct (reconcile_inv localeCompare existing parsedEntries out Hout)
    as (m & Hm & Hwk & ->).
  assert (Hkey : map_get (entry_key x) m <> None).
  { apply in_app_or in Hin as [Hin | Hin].
    - pose proof (index_existing_has_key existing x Hin) as Hk.
      destruct (map_get (entry_key x) (index_existing existing)) as [e0|] eqn:G;
        [|congruence].
      destruct (merge_all_grows parsedEntries _ m _ e0 Hm G) as (e' & G' & _).
      congruence.
    - eapply merge_all_has_key; eassumption. }
  destruct (map_get (entry_key x) m) as [e|] eqn:G; [|congruence].
  exists e. split; [saved_entry|].
  split; [eapply well_keyed_value; eassumption|].
  intros e' Hin' Hk'. apply sort_in in Hin'.
  apply (in_values_get m e' Hwk) in Hin'. rewrite Hk' in Hin'. congruence.
Qed.

(** C4. The key of an entry is its url when that is not empty, and its name
    when it is. For two entries [x] and [y], loaded or parsed, the saved
    array has exactly one entry under the key of each. They are one and the
    same entry when [x] and [y] have the same url that is not empty,
    whatever their names, and when both have no url and the same name; they
    are two entries when both have no url and their names differ, and when
    both have a url and these differ. *)
Theorem identity_key_precedence :
  forall (localeCompare : str -> str -> Z) (existing : Schema)
         (parsedEntries : list TextEntry) (x y : TextEntry),
    Forall is_reading parsedEntries ->
    In x (existing ++ parsedEntries) ->
    In y (existing ++ parsedEntries) ->
    (forall z : TextEntry,
       (url z <> [] -> entry_key z = url z) /\ (url z = [] -> entry_key z = name z))
    /\ exists out ex ey,
         reconcile localeCompare existing parsedEntries = Some out
         /\ In ex out /\ entry_key ex = entry_key x
         /\ (forall e', In e' out -> entry_key e' = entry_key x -> e' = ex)
         /\ In ey out /\ entry_key ey = entry_key y
         /\ (forall e', In e' out -> entry_key e' = entry_key y -> e' = ey)
         /\ (url x <> [] -> url y = url x -> ex = ey)
         /\ (url x = [] -> url y = [] -> name y = name x -> ex = ey)
         /\ (url x = [] -> url y = [] -> name y <> name x -> ex <> ey)
         /\ (url x <> [] -> url y <> [] -> url y <> url x -> ex <> ey).
Proof.
  intros cmp existing parsed x y Hr Hx Hy.
  split; [intros z; split; [apply entry_key_url | apply entry_key_name]|].
  destruct (reconcile_some cmp existing parsed Hr) as [out Hout].
  destruct (reconcile_binding cmp existing parsed out x Hout Hx)
    as (ex & Hex & Hkx & Hux).
  destruct (reconcile_binding cmp existing parsed out y Hout Hy)
    as (ey & Hey & Hky & Huy).
  exists out, ex, ey.
  split; [exact Hout|]. split; [exact Hex|]. split; [exact Hkx|].
  split; [exact Hux|]. split; [exact Hey|]. split; [exact Hky|].
  split; [exact Huy|].
  assert (Hsame : entry_key y = entry_key x -> ex = ey).
  { intros Hk. symmetry. apply Hux; [exact Hey | congruence]. }
  assert (Hapart : entry_key y <> entry_key x -> ex <> ey).
  { intros Hk Heq. subst ey. congruence. }
  split; [|split; [|split]].
  - intros Hu Hyu. apply Hsame, same_identity. left. now split.
  - intros Hu Hyu Hn. apply Hsame, same_identity. right. now repeat split.
  - intros Hu Hyu Hn. apply Hapart. rewrite !entry_key_name by assumption. exact Hn.
  - intros Hu Hyu Hn. apply Hapart. rewrite !entry_key_url by assumption. exact Hn.
Qed.

Lemma merge_one_scored (m m' : JsMap) (p : TextEntry) :
  merge_one m p = Some m' ->
  exists e, map_get (entry_key p) m' = Some e /\ score e <> [].
Proof.
  intros H. apply merge_one_cases in H as (p0 & rest & Hs & H).
  destruct H as [[_ ->] | [(e & _ & _ & ->) | (e & G & C & ->)]].
  - rewrite map_get_set_same. exists p. split; [reflexivity | congruence].
  - rewrite map_get_set_same. eexists. split; [reflexivity|].
    cbn [push_score score]. now destruct (score e).
  - exists e. split; [assumption|]. unfold changed in C.
    intros He. rewrite He in C. discriminate.
Qed.

Lemma extends_scored (e e' : TextEntry) : extends e e' -> score e <> [] -> score e' <> [].
Proof.
  intros (_ & _ & added & ->) He. now destruct (score e).
Qed.

Lemma merge_all_scored (l : list TextEntry) (m m' : JsMap) (p : TextEntry) :
  merge_all m l = Some m' -> In p l ->
  exists e, map_get (entry_key p) m' = Some e /\ score e <> [].
Proof.
  revert m; induction l as [|q l IH]; intros m H Hin; simpl in H; [destruct Hin|].
  destruct (merge_one m q) as [m1|] eqn:E; [|discriminate].
  destruct Hin as [-> | Hin]; [|now apply (IH m1)].
  destruct (merge_one_scored m m1 p E) as (e & G & Hs).
  destruct (merge_all_grows l m1 m' _ e H G) as (e' & G' & Hext).
  exists e'. split; [assumption | eapply extends_scored; eassumption].
Qed.

(** C8. After a run every parsed entry has an entry saved under its key
    whose score is not empty, and an entry of the working map whose score
    was not empty is saved with a score that is not empty. In the loop, a
    parsed entry under a key that is not in the map is put there with its
    one score point, and a bound entry whose score is empty ends with
    exactly the pushed score point. *)
Theorem observed_entries_have_a_score :
  forall (localeCompare : str -> str -> Z) (existing : Schema)
         (parsedEntries : list TextEntry),
    Forall is_reading parsedEntries ->
    exists out,
      reconcile localeCompare existing parsedEntries = Some out
      /\ (forall p, In p parsedEntries ->
            exists e, In e out /\ entry_key e = entry_key p /\ score e <> [])
      /\ (forall e, map_get (entry_key e) (index_existing existing) = Some e ->
            score e <> [] ->
            exists e', In e' out /\ entry_key e' = entry_key e /\ score e' <> [])
      /\ (forall m p, In p parsedEntries -> map_get (entry_key p) m = None ->
            exists m', merge_one m p = Some m'
                       /\ map_get (entry_key p) m' = Some p
                       /\ length (score p) = 1%nat)
      /\ (forall m p e, In p parsedEntries ->
            map_get (entry_key p) m = Some e -> score e = [] ->
            exists m' e' p0,
              merge_one m p = Some m'
              /\ map_get (entry_key p) m' = Some e'
              /\ score p = [p0]
              /\ score e' = [{| timestamp := timestamp p0; points := points p0 |}]).
Proof.
  intros cmp existing parsed Hr.
  destruct (reconcile_some cmp existing parsed Hr) as [out Hout].
  exists out. split; [exact Hout|].
  destruct (reconcile_inv cmp existing parsed out Hout) as (m & Hm & Hwk & ->).
  rewrite Forall_forall in Hr.
  split; [|split; [|split]].
  - intros p Hin. destruct (merge_all_scored parsed _ m p Hm Hin) as (e & G & Hs).
    exists e. split; [saved_entry|].
    split; [eapply well_keyed_value; eassumption | exact Hs].
  - intros e G Hs.
    destruct (merge_all_grows parsed _ m _ e Hm G) as (e' & G' & Hext).
    exists e'. split; [saved_entry|].
    split; [now apply extends_key | eapply extends_scored; eassumption].
  - intros m0 p Hin G. pose proof (Hr p Hin) as Hp. unfold is_reading in Hp.
    exists (map_set (entry_key p) p m0). split.
    + apply merge_one_new; [|assumption]. intros Hs. rewrite Hs in Hp. discriminate.
    + split; [apply map_get_set_same | exact Hp].
  - intros m0 p e Hin G He. pose proof (Hr p Hin) as Hp. unfold is_reading in Hp.
    destruct (score p) as [|p0 [|p1 rest]] eqn:Hs; try discriminate Hp.
    eexists _, _, p0. split.
    + rewrite (merge_one_old m0 p e p0 [] Hs G). unfold changed. rewrite He.
      cbn [last_opt]. reflexivity.
    + rewrite map_get_set_same. split; [reflexivity|]. split; [reflexivity|].
      cbn [push_score score]. now rewrite He.
Qed.

Lemma strict_neq_false (a b : number) :
  strict_neq a b = false -> exists z, a = Num z /\ b = Num z.
Proof.
  destruct a as [|x], b as [|y]; simpl; try discriminate.
  intros H. apply negb_false_iff, Z.eqb_eq in H. subst. eauto.
Qed.

Lemma strict_neq_num (x y : Z) : strict_neq (Num x) (Num y) = negb (x =? y).
Proof. reflexivity. Qed.

(** After its merge, the entry under the key of a parsed entry ends with
    the points of that parsed entry. *)
Lemma merge_one_last (m m' : JsMap) (p : TextEntry) (p0 : ScorePoint) :
  merge_one m p = Some m' -> score p = [p0] ->
  exists e l, map_get (entry_key p) m' = Some e
              /\ last_opt (score e) = Some l
              /\ points l = points p0.
Proof.
  intros H Hs. apply merge_one_cases in H as (p0' & rest & Hs' & H).
  rewrite Hs in Hs'. injection Hs' as <- <-.
  destruct H as [[_ ->] | [(e & _ & _ & ->) | (e & G & C & ->)]].
  - rewrite map_get_set_same. exists p, p0. now rewrite Hs.
  - rewrite map_get_set_same. eexists _, _. split; [reflexivity|].
    cbn [push_score score]. rewrite last_opt_snoc. split; reflexivity.
  - unfold changed in C. destruct (last_opt (score e)) as [l|] eqn:El;
      [|discriminate].
    exists e, l. repeat split; try assumption.
    apply strict_neq_false in C as (z & -> & ->). reflexivity.
Qed.

(** C10. Two parsed entries of one run with the same key, with parsed
    entries under other keys between them, and integer points [a] and [b]:
    both are merged into the one entry under that key. After the first the
    entry ends with [a]. If [b] is [a] the second pushes nothing, and an
    entry that the first one created still has that one score point; if
    [b] is not [a] the second pushes its score point behind. *)
Theorem same_key_twice_in_one_run :
  forall (m : JsMap) (p q : TextEntry) (mid : list TextEntry)
         (p0 q0 : ScorePoint) (a b : Z),
    score p = [p0] -> score q = [q0] ->
    points p0 = Num a -> points q0 = Num b ->
    entry_key q = entry_key p ->
    Forall (fun r => is_reading r /\ entry_key r <> entry_key p) mid ->
    exists m1 m2 e1 e2 l,
      merge_one m p = Some m1
      /\ merge_all m (p :: mid ++ [q]) = Some m2
      /\ map_get (entry_key p) m1 = Some e1
      /\ map_get (entry_key p) m2 = Some e2
      /\ last_opt (score e1) = Some l /\ points l = Num a
      /\ (a = b -> e2 = e1)
      /\ (a = b -> map_get (entry_key p) m = None -> score e2 = [p0])
      /\ (a <> b ->
          e2 = push_score e1 {| timestamp := timestamp q0; points := points q0 |}).
Proof.
  intros m p q mid p0 q0 a b Hp Hq Ha Hb Hk Hmid.
  destruct (merge_one_some m p) as [m1 H1]; [rewrite Hp; discriminate|].
  destruct (merge_one_last m m1 p p0 H1 Hp) as (e1 & l & G1 & L1 & P1).
  destruct (merge_all_some m1 mid) as [m1' Hm1'].
  { eapply Forall_impl; [|exact Hmid]. unfold is_reading.
    intros r [Hr _] Hs. rewrite Hs in Hr. discriminate. }
  assert (G1' : map_get (entry_key p) m1' = Some e1).
  { rewrite (merge_all_frame mid m1 m1' (entry_key p) Hm1'); [exact G1|].
    rewrite Forall_forall in Hmid. intros r Hr. now apply Hmid. }
  assert (Hall : merge_all m (p :: mid ++ [q]) = merge_one m1' q).
  { cbn [merge_all]. rewrite H1, merge_all_app, Hm1'. cbn [merge_all].
    now destruct (merge_one m1' q). }
  rewrite <- Hk in G1'.
  pose proof (merge_one_old m1' q e1 q0 [] Hq G1') as H2.
  unfold changed in H2. rewrite L1, P1, Ha, Hb, strict_neq_num in H2.
  rewrite Hk in H2, G1'. rewrite Ha in P1.
  destruct (Z.eqb_spec a b) as [Heq | Hne]; cbn [negb] in H2.
  - exists m1, m1', e1, e1, l. rewrite Hall.
    repeat split; try assumption; try congruence.
    intros _ Hnone. rewrite (merge_one_new m p) in H1 by (congruence || assumption).
    injection H1 as <-. rewrite map_get_set_same in G1. injection G1 as <-.
    exact Hp.
  - eexists m1, _, e1, _, l. rewrite Hall.
    split; [exact H1|]. split; [exact H2|]. split; [exact G1|].
    rewrite map_get_set_same. split; [reflexivity|].
    repeat split; try assumption; congruence.
Qed.

(* ================================================================== *)
(** ** The same parsed entries merged again                            *)
(* ================================================================== *)

Lemma integer_reading_points (p : TextEntry) :
  integer_reading p -> exists z, first_points p = Some (Num z).
Proof.
  intros (p0 & z & Hs & Hz). exists z. unfold first_points. now rewrite Hs, Hz.
Qed.

Lemma integer_reading_is_reading (p : TextEntry) : integer_reading p -> is_reading p.
Proof. intros (p0 & z & Hs & _). unfold is_reading. now rewrite Hs. Qed.

(** Nothing happens when the entry already ends with the parsed points. *)
Lemma merge_one_settled (m : JsMap) (p : TextEntry) :
  settled_for m p -> merge_one m p = Some m.
Proof.
  intros (e & l & z & G & L & P & F). unfold first_points in F.
  destruct (score p) as [|p0 rest] eqn:Hs; [discriminate|].
  injection F as F.
  rewrite (merge_one_old m p e p0 rest Hs G). unfold changed.
  now rewrite L, P, F, strict_neq_num, Z.eqb_refl.
Qed.

Lemma merge_all_settled (l : list TextEntry) (m : JsMap) :
  Forall (settled_for m) l -> merge_all m l = Some m.
Proof.
  induction 1 as [|p l Hp Hl IH]; simpl; [reflexivity|].
  now rewrite (merge_one_settled m p Hp).
Qed.

(** An entry that ends with [z] is not touched by parsed entries that
    bring [z] under its key. *)
Lemma merge_all_stable (l : list TextEntry) (m m' : JsMap) (k : str)
    (e : TextEntry) (lp : ScorePoint) (z : Z) :
  merge_all m l = Some m' ->
  map_get k m = Some e -> last_opt (score e) = Some lp -> points lp = Num z ->
  (forall q, In q l -> entry_key q = k -> first_points q = Some (Num z)) ->
  map_get k m' = Some e.
Proof.
  revert m; induction l as [|q l IH]; intros m H G L P Hq; simpl in H.
  - now injection H as <-.
  - destruct (merge_one m q) as [m1|] eqn:E; [|discriminate].
    apply (IH m1 H); try assumption; [|intros r Hr; apply Hq; now right].
    destruct (list_eq_dec N.eq_dec (entry_key q) k) as [Hk | Hk].
    + assert (Hset : settled_for m q).
      { exists e, lp, z. rewrite Hk. repeat split; try assumption.
        apply Hq; [now left | exact Hk]. }
      rewrite (merge_one_settled m q Hset) in E. now injection E as <-.
    + rewrite (merge_one_frame m m1 q k E); [exact G | congruence].
Qed.

Lemma consistent_tail (p : TextEntry) (l : list TextEntry) :
  consistent (p :: l) -> consistent l.
Proof. intros H x y Hx Hy. apply H; now right. Qed.

(** After the merge every parsed entry finds its points at the end of the
    entry under its key. *)
Lemma merge_all_settles (l : list TextEntry) (m m' : JsMap) :
  Forall integer_reading l -> consistent l ->
  merge_all m l = Some m' -> Forall (settled_for m') l.
Proof.
  intros Hint. revert m; induction Hint as [|p l Hp Hl IH]; intros m Hc H.
  - constructor.
  - simpl in H. destruct (merge_one m p) as [m1|] eqn:E; [|discriminate].
    constructor; [|apply (IH m1); [eapply consistent_tail; eassumption | exact H]].
    destruct Hp as (p0 & z & Hs & Hz).
    destruct (merge_one_last m m1 p p0 E Hs) as (e & lp & G & L & P).
    assert (Hf : first_points p = Some (Num z))
      by (unfold first_points; now rewrite Hs, Hz).
    exists e, lp, z. split; [|split; [exact L | split; [congruence | exact Hf]]].
    apply (merge_all_stable l m1 m' (entry_key p) e lp z H G L); [congruence|].
    intros q Hq Hk. rewrite <- Hf. apply Hc; [now right | now left | exact Hk].
Qed.

Lemma settled_for_reading (m : JsMap) (p q : TextEntry) :
  reading p = reading q -> settled_for m p -> settled_for m q.
Proof.
  unfold reading. intros H (e & l & z & G & L & P & F). injection H as Hk Hf.
  exists e, l, z. rewrite <- Hk, <- Hf. auto.
Qed.

Lemma settled_for_same_gets (m m' : JsMap) (p : TextEntry) :
  (forall k, map_get k m' = map_get k m) -> settled_for m p -> settled_for m' p.
Proof.
  intros H (e & l & z & G & L & P & F). exists e, l, z. rewrite H. auto.
Qed.

Lemma settled_readings (m : JsMap) (l l' : list TextEntry) :
  map reading l' = map reading l ->
  Forall (settled_for m) l -> Forall (settled_for m) l'.
Proof.
  revert l; induction l' as [|q l' IH]; intros [|p l] Hmap Hl;
    try discriminate; [constructor|].
  cbn [map] in Hmap. injection Hmap as Hk Hf Hmap.
  apply Forall_cons_iff in Hl as [Hp Hl]. constructor.
  - apply (settled_for_reading m p q); [|exact Hp].
    unfold reading. now rewrite Hk, Hf.
  - now apply (IH l).
Qed.

(** Well-keyed maps with the same entries answer every lookup alike. *)
Lemma same_entries_same_gets (m m' : JsMap) :
  well_keyed m -> well_keyed m' ->
  (forall e, In e (map_values m') <-> In e (map_values m)) ->
  forall k, map_get k m' = map_get k m.
Proof.
  intros Hm Hm' Hsame k.
  destruct (map_get k m') as [e'|] eqn:G'.
  - pose proof (well_keyed_value m' k e' Hm' G') as Hk.
    apply get_in_values, Hsame in G'. apply (in_values_get m e' Hm) in G'.
    congruence.
  - destruct (map_get k m) as [e|] eqn:G; [|reflexivity].
    pose proof (well_keyed_value m k e Hm G) as Hk.
    apply get_in_values, Hsame in G. apply (in_values_get m' e Hm') in G.
    congruence.
Qed.

(** C2, amended. Parsed entries with integer points, those with the same
    identity key carrying the same points: merging them into the array that
    their own merge saved, with the timestamps of a later run or the same
    ones, pushes no score point and adds no entry, and the array saved the
    second time is the first one. The comparator is assumed to be a total
    order on names. *)
Theorem reconcile_again_changes_nothing :
  forall (localeCompare : str -> str -> Z) (existing : Schema)
         (parsedEntries again : list TextEntry),
    comparator_total localeCompare ->
    Forall integer_reading parsedEntries ->
    consistent parsedEntries ->
    map reading again = map reading parsedEntries ->
    exists out,
      reconcile localeCompare existing parsedEntries = Some out
      /\ merge_all (index_existing out) again = Some (index_existing out)
      /\ reconcile localeCompare out again = Some out.
Proof.
  intros cmp existing parsed again Htot Hint Hcons Hmap.
  destruct (reconcile_some cmp existing parsed) as [out Hout].
  { eapply Forall_impl; [|exact Hint]. apply integer_reading_is_reading. }
  exists out. split; [exact Hout|].
  pose proof (reconcile_distinct_keys cmp existing parsed out Hout) as Hnd.
  destruct (reconcile_inv cmp existing parsed out Hout) as (m & Hm & Hwk & Hsort).
  assert (Hgets : forall k, map_get k (index_existing out) = map_get k m).
  { apply same_entries_same_gets;
      [exact Hwk | apply index_existing_well_keyed |].
    intros e. rewrite (values_index_distinct out Hnd), Hsort. apply sort_in. }
  assert (Hsettled : Forall (settled_for (index_existing out)) again).
  { apply (settled_readings _ parsed again Hmap).
    eapply Forall_impl; [intros p; apply settled_for_same_gets, Hgets|].
    eapply merge_all_settles; eassumption. }
  pose proof (merge_all_settled again _ Hsettled) as Hagain.
  split; [exact Hagain|].
  unfold reconcile. rewrite Hagain, (values_index_distinct out Hnd).
  f_equal. apply sort_of_sorted. rewrite Hsort. now apply sort_sorted.
Qed.

(* ================================================================== *)
(** ** The claims about the extractor                                  *)
(* ================================================================== *)

Section Extraction.

Context {api : CheerioAPI}.
Variable resolveUrl : str -> option str.

(** The label text with and without the white space at its ends. *)
Lemma label_match (t : str) :
  (if truthy (trim t) then exec re_digits (trim t) else None)
  = option_map Some (Spec.first_digit_run t).
Proof.
  rewrite <- first_digit_run_trim. destruct (trim t); [reflexivity|].
  cbn [truthy]. apply exec_re_digits.
Qed.

(** Whatever the tier, the number comes from at most five digits. *)
Lemma parsePoints_digits (li : Cheerio) :
  exists ds,
    parsePointsFromLi li = Num (digits_value ds)
    /\ forallb is_digit ds = true /\ (length ds <= 5)%nat.
Proof.
  unfold parsePointsFromLi. rewrite label_match, exec_re_pt, exec_re_markup.
  destruct (Spec.first_digit_run _) as [ds|] eqn:E1; cbn [option_map].
  { pose proof (first_digit_run_run _ _ E1) as Hr. exists ds.
    split; [now apply parseInt_group_run | apply Hr]. }
  destruct (Spec.pt_token _) as [ds|] eqn:E2; cbn [option_map].
  { pose proof (pt_token_run _ _ E2) as Hr. exists ds.
    split; [now apply parseInt_group_run | apply Hr]. }
  destruct (Spec.markup_scan _) as [ds|] eqn:E3; cbn [option_map].
  { pose proof (markup_scan_run _ _ E3) as Hr. exists ds.
    split; [now apply parseInt_group_run | apply Hr]. }
  exists []. repeat split. simpl. lia.
Qed.

(** C7. The points of an item are those of the first strategy that finds a
    number, in this order: the first run of digits, five at most, in the
    text of the first [div.punkte] below the item, whatever the classes
    say; else the digits after [pt-] in the classes of the item or, when it
    has none, of its first [div]; else the number of the inner markup that
    stands after an opening parenthesis or white space and before the unit
    word, the closing tag or a closing parenthesis; else 0. *)
Theorem parsePointsFromLi_three_tiers :
  forall (li : Cheerio),
    parsePointsFromLi li =
      match Spec.score_label li with
      | Some ds => Num (digits_value ds)
      | None =>
          match Spec.class_token li with
          | Some ds => Num (digits_value ds)
          | None =>
              match Spec.markup_number li with
              | Some ds => Num (digits_value ds)
              | None => Num 0
              end
          end
      end.
Proof.
  intros li.
  unfold parsePointsFromLi, Spec.score_label, Spec.class_token, Spec.markup_number.
  set (t := text (first (find (lit "div.punkte") li))).
  rewrite label_match, exec_re_pt, exec_re_markup.
  change (lit " ") with [32%N]. cbn [app]. rewrite pt_token_sep.
  pose proof (first_digit_run_run t) as R1.
  pose proof (pt_token_run (or_empty (attr (lit "class") li))) as R2.
  pose proof (pt_token_run (or_empty (attr (lit "class") (find (lit "div") li))))
    as R3.
  pose proof (markup_scan_run (or_empty (html li))) as R4.
  destruct (Spec.first_digit_run t) as [d1|];
    [cbn [option_map]; now apply parseInt_group_run, R1|].
  destruct (Spec.pt_token (or_empty (attr (lit "class") li))) as [d2|];
    [cbn [option_map]; now apply parseInt_group_run, R2|].
  destruct (Spec.pt_token (or_empty (attr (lit "class") (find (lit "div") li))))
    as [d3|]; [cbn [option_map]; now apply parseInt_group_run, R3|].
  destruct (Spec.markup_scan (or_empty (html li))) as [d4|];
    [cbn [option_map]; now apply parseInt_group_run, R4|].
  reflexivity.
Qed.

(** C9. The points of an item are an integer from 0 to 99999: not NaN, not
    negative, not a fraction, not six digits. *)
Theorem parsePointsFromLi_range :
  forall (li : Cheerio),
    exists n, parsePointsFromLi li = Num n /\ 0 <= n <= 99999.
Proof.
  intros li. destruct (parsePoints_digits li) as (ds & Hp & Hd & Hl).
  exists (digits_value ds). split; [exact Hp | now apply digits_value_5].
Qed.

(** The loop over the items: the entries pushed, the readings of the clock
    they carry, and the clock afterwards. *)
Lemma each_spec (items : list Element) :
  forall (acc : list TextEntry) (w : World),
  exists pushed,
    fst (each resolveUrl items acc w) = acc ++ pushed
    /\ timestamps pushed
       = map (fun i => [clock w (reads w + i)%nat])
             (seq 0 (length (filter has_link items)))
    /\ Forall integer_reading pushed
    /\ reads (snd (each resolveUrl items acc w))
       = (reads w + length (filter has_link items))%nat
    /\ clock (snd (each resolveUrl items acc w)) = clock w.
Proof.
  induction items as [|el items IH]; intros acc w.
  - exists []. cbn. rewrite app_nil_r, Nat.add_0_r. repeat split. constructor.
  - cbn [each filter]. unfold bind, each_item.
    replace (has_link el)
      with (negb (sel_length (first (find (lit "a") (wrap el))) =? 0)%nat)
      by reflexivity.
    destruct (sel_length (first (find (lit "a") (wrap el))) =? 0)%nat eqn:Ea;
      cbn [negb].
    + unfold ret. apply IH.
    + unfold bind, now_iso, ret.
      match goal with
      | |- context [each resolveUrl items ?acc' ?w'] =>
          destruct (IH acc' w') as (pushed & Hfst & Hts & Hint & Hreads & Hclock);
          set (r := each resolveUrl items acc' w') in *
      end.
      match type of Hfst with
      | fst r = (acc ++ [?entry]) ++ pushed => exists (entry :: pushed)
      end.
      cbn [reads clock] in *. repeat split.
      * rewrite Hfst, <- app_assoc. reflexivity.
      * unfold timestamps in *. cbn [map length seq score timestamp].
        rewrite Nat.add_0_r. f_equal. rewrite Hts, <- seq_shift, map_map.
        apply map_ext. intros i. now rewrite Nat.add_succ_r.
      * constructor; [|exact Hint].
        destruct (parsePoints_digits (wrap el)) as (ds & Hp & _).
        eexists _, (digits_value ds). split; [reflexivity|]. exact Hp.
      * rewrite Hreads. cbn [length]. lia.
      * exact Hclock.
Qed.

(** What the extractor makes is what the merge expects: one score point,
    with an integer. *)
Lemma extract_integer_readings (items : list Element) (w : World) :
  Forall integer_reading (fst (extract resolveUrl items w)).
Proof.
  unfold extract. destruct (each_spec items [] w) as (pushed & Hfst & _ & Hint & _).
  rewrite Hfst. exact Hint.
Qed.

(** C5, amended. The clock is read once for each item that has a link,
    when the item is visited: the parsed entries carry, in document order,
    the successive readings of the clock from the first one of the loop
    on. No time of the start of the run is kept. *)
Theorem each_item_reads_the_clock :
  forall (items : list Element) (w : World),
    timestamps (fst (extract resolveUrl items w))
    = map (fun i => [clock w (reads w + i)%nat])
          (seq 0 (length (filter has_link items)))
    /\ reads (snd (extract resolveUrl items w))
       = (reads w + length (filter has_link items))%nat.
Proof.
  intros items w. unfold extract.
  destruct (each_spec items [] w) as (pushed & Hfst & Hts & _ & Hreads & _).
  rewrite Hfst. split; [exact Hts | exact Hreads].
Qed.

(** A run does not throw in the merge, and what it saves has one entry per
    identity key. *)
Lemma main_saves (localeCompare : str -> str -> Z) (items : list Element)
    (existing : Schema) (w : World) :
  exists out,
    fst (main resolveUrl localeCompare items existing w) = Some out
    /\ NoDup (map entry_key out).
Proof.
  unfold main, bind, ret.
  pose proof (extract_integer_readings items w) as Hint.
  destruct (extract resolveUrl items w) as [parsed w'] eqn:E. cbn [fst] in *.
  destruct (reconcile_some localeCompare existing parsed) as [out Hout].
  { eapply Forall_impl; [|exact Hint]. apply integer_reading_is_reading. }
  exists out. split; [exact Hout|].
  eapply reconcile_distinct_keys; exact Hout.
Qed.

End Extraction.

(* ================================================================== *)
(** ** The program on the sample inputs                                *)
(* ================================================================== *)

Module Runs.

Import Tree Sample.

(** The label says 12 and the class says 99: 12 it is. *)
Example label_before_class :
  parsePointsFromLi (api := api) [li_label_and_class] = Num 12
  /\ Spec.score_label (api := api) [li_label_and_class] = Some (lit "12")
  /\ Spec.class_token (api := api) [li_label_and_class] = Some (lit "99").
Proof. repeat split; vm_compute; reflexivity. Qed.

(** No label: the class token, cut after five digits. *)
Example class_before_markup :
  parsePointsFromLi (api := api) [li_class_only] = Num 12345
  /\ Spec.score_label (api := api) [li_class_only] = None.
Proof. repeat split; vm_compute; reflexivity. Qed.

(** Neither label nor class: the number in parentheses of the markup. *)
Example markup_last :
  parsePointsFromLi (api := api) [li_markup_only] = Num 42
  /\ Spec.score_label (api := api) [li_markup_only] = None
  /\ Spec.class_token (api := api) [li_markup_only] = None.
Proof. repeat split; vm_compute; reflexivity. Qed.

Example nothing_is_zero : parsePointsFromLi (api := api) [li_nothing] = Num 0.
Proof. vm_compute. reflexivity. Qed.

(** A number of six digits or more in the markup is not a match, a shorter
    one behind it is. *)
Example markup_six_digits :
  exec re_markup (lit "<span> 1234567 Punkte</span>") = None
  /\ exec re_markup (lit "<b>x</b> 1234567 Punkte, (88)") = Some (Some (lit "88")).
Proof. split; vm_compute; reflexivity. Qed.

(** The item without a link is skipped and reads no clock. *)
Example extract_sample :
  fst (extract (api := api) keep_href [li_label_and_class; li_no_link; li_class_only] start)
  = [ obs "Alpha" "/a" "2025-01-01T00:00:00.000Z" 12;
      obs "Beta" "/b" "2025-01-01T00:00:00.001Z" 12345 ].
Proof. vm_compute. reflexivity. Qed.

(** New-entry creation, change detection and no-change suppression of the
    specification's examples. *)
Example new_entry :
  reconcile compare_ci [] [obs "A" "u1" t1 5] = Some [entry "A" "u1" [sp t1 5]].
Proof. vm_compute. reflexivity. Qed.

Example change_detected :
  reconcile compare_ci [entry "A" "u1" [sp t0 5]] [obs "A" "u1" t1 7]
  = Some [entry "A" "u1" [sp t0 5; sp t1 7]].
Proof. vm_compute. reflexivity. Qed.

Example no_change :
  reconcile compare_ci [entry "A" "u1" [sp t0 5]] [obs "A" "u1" t1 5]
  = Some [entry "A" "u1" [sp t0 5]].
Proof. vm_compute. reflexivity. Qed.

(** A parsed entry without a score point cannot come from the extractor;
    the loop would throw on it. *)
Example empty_score_throws : reconcile compare_ci history1 [gamma_empty] = None.
Proof. vm_compute. reflexivity. Qed.

Lemma compare_ci_total : comparator_total compare_ci.
Proof.
  intros a. induction a as [|x a IH]; intros [|y b]; cbn [compare_ci]; try lia.
  rewrite (N.compare_antisym (canon x) (canon y)).
  destruct (N.compare (canon x) (canon y)); cbn [CompOpp]; try lia. apply IH.
Qed.

(** C1, on the sample history: the same url comes with 7 points after 5. *)
Lemma merge_one_appends_iff_points_changed_witness :
  map_get (entry_key alpha_renamed7) map1 = Some alpha5
  /\ score alpha_renamed7 = [sp t1 7]
  /\ exists m' e',
       merge_one map1 alpha_renamed7 = Some m'
       /\ map_get (entry_key alpha_renamed7) m' = Some e'
       /\ name e' = name alpha5 /\ url e' = url alpha5
       /\ (score e' = score alpha5
             ++ [{| timestamp := timestamp (sp t1 7); points := points (sp t1 7) |}]
           <-> (score alpha5 = []
                \/ exists l, last_opt (score alpha5) = Some l
                             /\ (points l <> points (sp t1 7)
                                 \/ points (sp t1 7) = NaN)))
       /\ (score e' = score alpha5
           <-> exists l, last_opt (score alpha5) = Some l
                         /\ points l = points (sp t1 7) /\ points (sp t1 7) <> NaN)
       /\ (forall l a b,
             last_opt (score alpha5) = Some l -> points l = Num a ->
             points (sp t1 7) = Num b ->
             (score e' = score alpha5 ++ [{| timestamp := timestamp (sp t1 7); points := Num b |}]
              <-> a <> b)
             /\ (score e' = score alpha5 <-> a = b))
       /\ (forall k, k <> entry_key alpha_renamed7 -> map_get k m' = map_get k map1).
Proof.
  split; [reflexivity|]. split; [reflexivity|].
  apply (merge_one_appends_iff_points_changed map1 alpha_renamed7 alpha5 (sp t1 7) []);
    reflexivity.
Defined.

(** C2: one run parses a url twice with 5 points and 7 points. Merged into
    an empty history that gives the score 5, 7; merged again into what was
    saved, the same parsed entries push 5 and 7 once more. *)
Lemma reconcile_again_appends_again :
  reconcile compare_ci [] twice_different
  = Some [entry "Alpha" "https://texte.wien/a" [sp t1 5; sp t1 7]]
  /\ reconcile compare_ci
       [entry "Alpha" "https://texte.wien/a" [sp t1 5; sp t1 7]] twice_different
     = Some [entry "Alpha" "https://texte.wien/a" [sp t1 5; sp t1 7; sp t1 5; sp t1 7]]
  /\ ~ (forall existing parsedEntries out,
          reconcile compare_ci existing parsedEntries = Some out ->
          reconcile compare_ci out parsedEntries = Some out).
Proof.
  split; [vm_compute; reflexivity|]. split; [vm_compute; reflexivity|].
  intros H. specialize (H [] twice_different _ eq_refl).
  vm_compute in H. discriminate H.
Qed.

Lemma reconcile_again_changes_nothing_witness :
  comparator_total compare_ci
  /\ Forall integer_reading twice_same
  /\ consistent twice_same
  /\ map reading twice_same_later = map reading twice_same
  /\ exists out,
       reconcile compare_ci history1 twice_same = Some out
       /\ merge_all (index_existing out) twice_same_later = Some (index_existing out)
       /\ reconcile compare_ci out twice_same_later = Some out.
Proof.
  assert (Hint : Forall integer_reading twice_same)
    by (repeat constructor; eexists _, _; split; reflexivity).
  assert (Hcons : consistent twice_same).
  { intros p q Hp Hq.
    destruct Hp as [<- | [<- | [<- | []]]]; destruct Hq as [<- | [<- | [<- | []]]];
      intros Hk; try reflexivity; vm_compute in Hk; discriminate Hk. }
  split; [exact compare_ci_total|]. split; [exact Hint|]. split; [exact Hcons|].
  split; [reflexivity|].
  apply (reconcile_again_changes_nothing compare_ci history1 twice_same twice_same_later);
    [exact compare_ci_total | exact Hint | exact Hcons | reflexivity].
Defined.

(** C3: a file with two entries under one url. The second takes the place
    of the first in the map: one entry is saved where two were loaded, and
    the first is gone though nothing was parsed. *)
Lemma duplicate_key_history_shrinks :
  reconcile compare_ci history_duplicate_url [] = Some [second_of_two]
  /\ (length [second_of_two] < length history_duplicate_url)%nat
  /\ In first_of_two history_duplicate_url
  /\ ~ In first_of_two [second_of_two].
Proof.
  split; [vm_compute; reflexivity|]. split; [simpl; lia|].
  split; [now left|]. intros [H | []]. discriminate H.
Qed.

Lemma reconcile_never_shrinks_witness :
  NoDup (map entry_key history1)
  /\ Forall is_reading [alpha_renamed7; beta3]
  /\ exists out,
       reconcile compare_ci history1 [alpha_renamed7; beta3] = Some out
       /\ (length history1 <= length out)%nat
       /\ (forall e, In e history1 ->
             exists e', In e' out /\ entry_key e' = entry_key e
                        /\ (length (score e) <= length (score e'))%nat)
       /\ (forall e, In e history1 ->
             (forall p, In p [alpha_renamed7; beta3] -> entry_key p <> entry_key e) ->
             In e out).
Proof.
  assert (Hnd : NoDup (map entry_key history1))
    by (repeat constructor; intros []).
  assert (Hr : Forall is_reading [alpha_renamed7; beta3])
    by (repeat constructor).
  split; [exact Hnd|]. split; [exact Hr|].
  apply (reconcile_never_shrinks compare_ci history1 [alpha_renamed7; beta3] Hnd Hr).
Defined.

(** C4: the history has a url under the name Alpha and the page has it under
    another name: one saved entry. The page also has two items without a
    url, Gamma and Delta: two saved entries, each under its name. *)
Lemma identity_key_precedence_witness :
  Forall is_reading [alpha_renamed7; gamma9; delta4]
  /\ In alpha5 (history1 ++ [alpha_renamed7; gamma9; delta4])
  /\ In alpha_renamed7 (history1 ++ [alpha_renamed7; gamma9; delta4])
  /\ In gamma9 (history1 ++ [alpha_renamed7; gamma9; delta4])
  /\ In delta4 (history1 ++ [alpha_renamed7; gamma9; delta4])
  /\ (url alpha5 <> [] /\ url alpha_renamed7 = url alpha5
      /\ name alpha_renamed7 <> name alpha5)
  /\ (url gamma9 = [] /\ url delta4 = [] /\ name delta4 <> name gamma9)
  /\ (exists out ex ey,
        reconcile compare_ci history1 [alpha_renamed7; gamma9; delta4] = Some out
        /\ In ex out /\ entry_key ex = url alpha5
        /\ In ey out /\ entry_key ey = url alpha_renamed7
        /\ ex = ey)
  /\ (exists out ex ey,
        reconcile compare_ci history1 [alpha_renamed7; gamma9; delta4] = Some out
        /\ In ex out /\ entry_key ex = name gamma9
        /\ In ey out /\ entry_key ey = name delta4
        /\ ex <> ey).
Proof.
  assert (Hr : Forall is_reading [alpha_renamed7; gamma9; delta4])
    by (repeat constructor).
  assert (Ha : In alpha5 (history1 ++ [alpha_renamed7; gamma9; delta4]))
    by (now left).
  assert (Hb : In alpha_renamed7 (history1 ++ [alpha_renamed7; gamma9; delta4]))
    by (right; now left).
  assert (Hg : In gamma9 (history1 ++ [alpha_renamed7; gamma9; delta4]))
    by (right; right; now left).
  assert (Hd : In delta4 (history1 ++ [alpha_renamed7; gamma9; delta4]))
    by (right; right; right; now left).
  split; [exact Hr|]. split; [exact Ha|]. split; [exact Hb|].
  split; [exact Hg|]. split; [exact Hd|].
  split; [split; [discriminate | split; [reflexivity | discriminate]]|].
  split; [split; [reflexivity | split; [reflexivity | discriminate]]|].
  split.
  - destruct (identity_key_precedence compare_ci history1
                [alpha_renamed7; gamma9; delta4] alpha5 alpha_renamed7 Hr Ha Hb)
      as (_ & out & ex & ey & Hout & Hex & Hkx & _ & Hey & Hky & _ & Hsame & _).
    exists out, ex, ey. split; [exact Hout|]. split; [exact Hex|].
    split; [exact Hkx|]. split; [exact Hey|]. split; [exact Hky|].
    apply Hsame; [discriminate | reflexivity].
  - destruct (identity_key_precedence compare_ci history1
                [alpha_renamed7; gamma9; delta4] gamma9 delta4 Hr Hg Hd)
      as (_ & out & ex & ey & Hout & Hex & Hkx & _ & Hey & Hky & _ & _ & _ & Hapart & _).
    exists out, ex, ey. split; [exact Hout|]. split; [exact Hex|].
    split; [exact Hkx|]. split; [exact Hey|]. split; [exact Hky|].
    apply Hapart; [reflexivity | reflexivity | discriminate].
Defined.

(** C5: two items with a link and a clock that moves between them. *)
Lemma one_timestamp_per_item :
  timestamps (fst (extract (api := api) keep_href [li_label_and_class; li_class_only] start))
  = [ [lit "2025-01-01T00:00:00.000Z"]; [lit "2025-01-01T00:00:00.001Z"] ]
  /\ ~ (exists ts, forall p s,
          In p (fst (extract (api := api) keep_href [li_label_and_class; li_class_only] start)) ->
          In s (score p) -> timestamp s = ts).
Proof.
  split; [vm_compute; reflexivity|].
  intros (ts & H).
  pose proof (H (obs "Alpha" "/a" "2025-01-01T00:00:00.000Z" 12) _
                (or_introl eq_refl) (or_introl eq_refl)) as H1.
  pose proof (H (obs "Beta" "/b" "2025-01-01T00:00:00.001Z" 12345) _
                (or_intror (or_introl eq_refl)) (or_introl eq_refl)) as H2.
  rewrite <- H2 in H1. vm_compute in H1. discriminate H1.
Qed.

(** C6: the page shows the url under a new name; the saved entry keeps the
    old one. *)
Lemma reconcile_keeps_name_and_url_witness :
  Forall is_reading [alpha_renamed7]
  /\ map_get (entry_key alpha5) (index_existing history1) = Some alpha5
  /\ exists out e',
       reconcile compare_ci history1 [alpha_renamed7] = Some out
       /\ In e' out
       /\ entry_key e' = entry_key alpha5
       /\ name e' = name alpha5 /\ url e' = url alpha5
       /\ exists added, score e' = score alpha5 ++ added.
Proof.
  split; [repeat constructor|]. split; [reflexivity|].
  apply (reconcile_keeps_name_and_url compare_ci history1 [alpha_renamed7] alpha5);
    [repeat constructor | reflexivity].
Defined.

(** C8: an entry of the file without a score point, and a new item. *)
Lemma observed_entries_have_a_score_witness :
  Forall is_reading [gamma9; beta3]
  /\ exists out,
       reconcile compare_ci [gamma_empty] [gamma9; beta3] = Some out
       /\ (forall p, In p [gamma9; beta3] ->
             exists e, In e out /\ entry_key e = entry_key p /\ score e <> [])
       /\ (forall e, map_get (entry_key e) (index_existing [gamma_empty]) = Some e ->
             score e <> [] ->
             exists e', In e' out /\ entry_key e' = entry_key e /\ score e' <> [])
       /\ (forall m p, In p [gamma9; beta3] -> map_get (entry_key p) m = None ->
             exists m', merge_one m p = Some m'
                        /\ map_get (entry_key p) m' = Some p
                        /\ length (score p) = 1%nat)
       /\ (forall m p e, In p [gamma9; beta3] ->
             map_get (entry_key p) m = Some e -> score e = [] ->
             exists m' e' p0,
               merge_one m p = Some m'
               /\ map_get (entry_key p) m' = Some e'
               /\ score p = [p0]
               /\ score e' = [{| timestamp := timestamp p0; points := points p0 |}]).
Proof.
  split; [repeat constructor|].
  apply (observed_entries_have_a_score compare_ci [gamma_empty] [gamma9; beta3]).
  repeat constructor.
Defined.

(** C10: the url of the history twice on the page, another item between,
    first with 7 points, then with 7 again or with 5. *)
Lemma same_key_twice_in_one_run_witness :
  score alpha_renamed7 = [sp t1 7]
  /\ score alpha_renamed5 = [sp t1 5]
  /\ entry_key alpha_renamed5 = entry_key alpha_renamed7
  /\ Forall (fun r => is_reading r /\ entry_key r <> entry_key alpha_renamed7) [beta3]
  /\ exists m1 m2 e1 e2 l,
       merge_one map1 alpha_renamed7 = Some m1
       /\ merge_all map1 (alpha_renamed7 :: [beta3] ++ [alpha_renamed5]) = Some m2
       /\ map_get (entry_key alpha_renamed7) m1 = Some e1
       /\ map_get (entry_key alpha_renamed7) m2 = Some e2
       /\ last_opt (score e1) = Some l /\ points l = Num 7
       /\ (7 = 5 -> e2 = e1)
       /\ (7 = 5 -> map_get (entry_key alpha_renamed7) map1 = None ->
           score e2 = [sp t1 7])
       /\ (7 <> 5 ->
           e2 = push_score e1
                  {| timestamp := timestamp (sp t1 5); points := points (sp t1 5) |}).
Proof.
  assert (Hmid : Forall (fun r => is_reading r /\ entry_key r <> entry_key alpha_renamed7)
                        [beta3])
    by (repeat constructor; vm_compute; discriminate).
  split; [reflexivity|]. split; [reflexivity|]. split; [reflexivity|].
  split; [exact Hmid|].
  apply (same_key_twice_in_one_run map1 alpha_renamed7 alpha_renamed5 [beta3]
           (sp t1 7) (sp t1 5) 7 5);
    try reflexivity; exact Hmid.
Defined.

(** The two cases of C10 on the sample page, run. *)
Example twice_in_one_run :
  reconcile compare_ci history1 [alpha_renamed7; beta3; alpha_renamed7]
  = Some [entry "Alpha" "https://texte.wien/a" [sp t0 5; sp t1 7];
          entry "Beta" "https://texte.wien/b" [sp t1 3]]
  /\ reconcile compare_ci history1 [alpha_renamed7; beta3; alpha_renamed5]
     = Some [entry "Alpha" "https://texte.wien/a" [sp t0 5; sp t1 7; sp t1 5];
             entry "Beta" "https://texte.wien/b" [sp t1 3]].
Proof. split; vm_compute; reflexivity. Qed.

End Runs.

(* ================================================================== *)
(** ** [normalizeName]                                                 *)
(* ================================================================== *)

Lemma collapse_ws_cons (c : char) (s : str) :
  collapse_ws (c :: s) =
    if is_space c
    then match s with
         | d :: _ => if is_space d then collapse_ws s else 32%N :: collapse_ws s
         | [] => [32%N]
         end
    else c :: collapse_ws s.
Proof. reflexivity. Qed.

Lemma collapse_ws_space (c : char) (s : str) :
  is_space c = true ->
  collapse_ws (c :: s) = 32%N :: collapse_ws (dropWhile is_space s).
Proof.
  intros Hc. revert c Hc. induction s as [|d s IH]; intros c Hc.
  - simpl. now rewrite Hc.
  - rewrite collapse_ws_cons, Hc. cbn [dropWhile].
    destruct (is_space d) eqn:Ed; [now apply IH | reflexivity].
Qed.

Lemma skipn_takeWhile (p : char -> bool) (s : str) :
  skipn (length (takeWhile p s)) s = dropWhile p s.
Proof.
  induction s as [|c s IH]; simpl; [reflexivity|].
  destruct (p c); simpl; [exact IH | reflexivity].
Qed.

Lemma dropWhile_shorter (p : char -> bool) (s : str) :
  (length (dropWhile p s) <= length s)%nat.
Proof.
  induction s as [|c s IH]; simpl; [lia|]. destruct (p c); simpl; lia.
Qed.

(** One try of [/\s+/] at the start of [s]. *)
Lemma rmatch_re_spaces (s : str) :
  rmatch re_spaces (fun rest _ => Some rest) s None =
    match s with
    | c :: s' => if is_space c then Some (dropWhile is_space s') else None
    | [] => None
    end.
Proof.
  unfold re_spaces. cbn [rmatch].
  rewrite (greedy_accepting is_space (fun s' => Some s')) by discriminate.
  pose proof (takeWhile_length is_space s) as Hl.
  rewrite Nat.min_r by exact Hl. rewrite skipn_takeWhile.
  destruct s as [|c s']; [reflexivity|]. cbn [takeWhile dropWhile].
  destruct (is_space c); reflexivity.
Qed.

Lemma replace_from_spaces (fuel : nat) :
  forall s, (length s < fuel)%nat ->
    replace_from fuel re_spaces (lit " ") s = collapse_ws s.
Proof.
  induction fuel as [|fuel IH]; intros s Hs; [lia|].
  cbn [replace_from]. rewrite rmatch_re_spaces.
  destruct s as [|c s']; [reflexivity|]. cbn [length] in Hs.
  destruct (is_space c) eqn:Ec.
  - pose proof (dropWhile_shorter is_space s') as Hd.
    replace (length (dropWhile is_space s') <? length (c :: s'))%nat with true
      by (symmetry; apply Nat.ltb_lt; cbn [length]; lia).
    rewrite IH by lia. now rewrite collapse_ws_space.
  - rewrite IH by lia. rewrite collapse_ws_cons. now rewrite Ec.
Qed.

(** X1. Replacing every match of [/\s+/g] by one space, on the matcher, is
    what [normalizeName] computes: both give the same name for every
    string. *)
Theorem normalizeName_is_the_regex_replace :
  forall s : str, normalizeName_matched s = normalizeName s.
Proof.
  intros s. unfold normalizeName_matched, normalizeName, replace_all.
  rewrite replace_from_spaces by lia. reflexivity.
Qed.

Lemma split_spaces_cons (s : str) : exists w ws, split_spaces s = w :: ws.
Proof.
  induction s as [|c s (w & ws & IH)]; simpl; [eauto|].
  destruct (is_space c); [eauto|]. rewrite IH. eauto.
Qed.

Lemma words_space (c : char) (s : str) :
  is_space c = true -> words (c :: s) = words s.
Proof. intros Hc. unfold words. simpl. now rewrite Hc. Qed.

Lemma split_spaces_space (c : char) (s : str) :
  is_space c = true -> split_spaces (c :: s) = [] :: split_spaces s.
Proof. intros Hc. cbn [split_spaces]. now rewrite Hc. Qed.

Lemma split_spaces_nonspace (c : char) (s : str) :
  is_space c = false ->
  split_spaces (c :: s) = (c :: hd [] (split_spaces s)) :: tl (split_spaces s).
Proof.
  intros Hc. cbn [split_spaces]. rewrite Hc.
  destruct (split_spaces_cons s) as (w & ws & ->). reflexivity.
Qed.

Lemma filter_pieces (a : list str) :
  filter truthy a = filter truthy [hd [] a] ++ filter truthy (tl a).
Proof. destruct a as [|w ws]; [reflexivity|]. simpl. now destruct (truthy w). Qed.

Lemma same_pieces_words (a b : list str) :
  same_pieces a b -> filter truthy a = filter truthy b.
Proof.
  intros [Hh Ht]. rewrite (filter_pieces a), (filter_pieces b). now rewrite Hh, Ht.
Qed.

Lemma split_spaces_collapse (s : str) :
  same_pieces (split_spaces (collapse_ws s)) (split_spaces s).
Proof.
  induction s as [|c s IH]; [split; reflexivity|].
  rewrite collapse_ws_cons. destruct (is_space c) eqn:Ec.
  - destruct s as [|d s'].
    + cbn [split_spaces]. change (is_space 32%N) with true. rewrite Ec. split; reflexivity.
    + destruct (is_space d) eqn:Ed.
      * destruct IH as [Hh Ht]. cbn [split_spaces] in Hh, Ht |- *.
        rewrite Ec, Ed in *. cbn [hd tl] in *. split; [exact Hh|].
        rewrite Ht. reflexivity.
      * pose proof (same_pieces_words _ _ IH) as Hw.
        cbn [split_spaces]. change (is_space 32%N) with true. rewrite Ec.
        split; [reflexivity | exact Hw].
  - rewrite !split_spaces_nonspace by exact Ec. destruct IH as [Hh Ht].
    split; cbn [hd tl]; [now rewrite Hh | exact Ht].
Qed.

Lemma words_collapse (s : str) : words (collapse_ws s) = words s.
Proof. apply same_pieces_words, split_spaces_collapse. Qed.

Lemma split_spaces_only (ws : str) :
  forallb is_space ws = true ->
  hd [] (split_spaces ws) = [] /\ filter truthy (split_spaces ws) = [].
Proof.
  induction ws as [|w ws IH]; [split; reflexivity|]. simpl.
  rewrite andb_true_iff. intros [Hw Hws]. rewrite Hw. simpl.
  split; [reflexivity | now apply IH].
Qed.

Lemma split_spaces_app_spaces (t ws : str) :
  forallb is_space ws = true ->
  same_pieces (split_spaces (t ++ ws)) (split_spaces t).
Proof.
  intros Hws. induction t as [|c t IH].
  - destruct (split_spaces_only ws Hws) as [Hh Hf]. split; [exact Hh|].
    rewrite filter_pieces, Hh in Hf. exact Hf.
  - cbn [app]. destruct (is_space c) eqn:Ec.
    + cbn [split_spaces]. rewrite Ec. split; [reflexivity|].
      cbn [tl]. now apply same_pieces_words.
    + rewrite !split_spaces_nonspace by exact Ec. destruct IH as [Hh Ht].
      split; cbn [hd tl]; [now rewrite Hh | exact Ht].
Qed.

Lemma words_app_spaces (t ws : str) :
  forallb is_space ws = true -> words (t ++ ws) = words t.
Proof. intros H. now apply same_pieces_words, split_spaces_app_spaces. Qed.

Lemma words_spaces_app (ws t : str) :
  forallb is_space ws = true -> words (ws ++ t) = words t.
Proof.
  induction ws as [|w ws IH]; [reflexivity|]. simpl.
  rewrite andb_true_iff. intros [Hw Hws]. rewrite words_space by exact Hw.
  now apply IH.
Qed.

(** What [trim] takes away at the two ends is white space. *)
Lemma trim_decompose (s : str) :
  exists ws1 ws2,
    s = ws1 ++ trim s ++ ws2
    /\ forallb is_space ws1 = true /\ forallb is_space ws2 = true.
Proof.
  unfold trim. set (a := dropWhile is_space s).
  exists (takeWhile is_space s), (rev (takeWhile is_space (rev a))).
  split; [|split].
  - rewrite <- rev_app_distr, take_drop_while, rev_involutive.
    subst a. now rewrite take_drop_while.
  - apply takeWhile_all.
  - rewrite forallb_rev. apply takeWhile_all.
Qed.

Lemma words_trim (s : str) : words (trim s) = words s.
Proof.
  destruct (trim_decompose s) as (ws1 & ws2 & Hs & H1 & H2).
  rewrite Hs at 2. rewrite words_spaces_app by exact H1.
  now rewrite words_app_spaces.
Qed.

Lemma words_normalizeName (s : str) : words (normalizeName s) = words s.
Proof. unfold normalizeName. now rewrite words_trim, words_collapse. Qed.

Lemma spaces_single_collapse (s : str) : spaces_single (collapse_ws s) = true.
Proof.
  induction s as [|c s IH]; [reflexivity|].
  rewrite collapse_ws_cons. destruct (is_space c) eqn:Ec.
  - destruct s as [|d s']; [reflexivity|].
    destruct (is_space d) eqn:Ed; [exact IH|].
    rewrite collapse_ws_cons, Ed in IH |- *.
    cbn [spaces_single] in IH |- *. change (is_space 32%N) with true.
    rewrite Ed in IH |- *. cbn [negb andb N.eqb Pos.eqb] in IH |- *. exact IH.
  - cbn [spaces_single]. now rewrite Ec, IH.
Qed.

Lemma spaces_single_app (a b : str) :
  spaces_single (a ++ b) = true -> spaces_single a = true /\ spaces_single b = true.
Proof.
  induction a as [|c a IH]; [now split|]. cbn [app spaces_single].
  rewrite !andb_true_iff. intros [Hc Hab]. destruct (IH Hab) as [Ha Hb].
  split; [|exact Hb]. split; [|exact Ha].
  destruct (is_space c); [|reflexivity].
  apply andb_true_iff in Hc as [H32 Hn]. rewrite H32.
  destruct a as [|d a']; [reflexivity | exact Hn].
Qed.

Lemma rev_cons_last {A} (l : list A) (c : A) (r : list A) :
  rev l = c :: r -> l = rev r ++ [c].
Proof. intros H. rewrite <- (rev_involutive l), H. reflexivity. Qed.

Lemma starts_clean_trim (s : str) : starts_clean (trim s) = true.
Proof.
  unfold trim. set (a := dropWhile is_space s).
  destruct (rev (dropWhile is_space (rev a))) as [|c t] eqn:E; [reflexivity|].
  cbn [starts_clean].
  assert (Ha : a = (c :: t) ++ rev (takeWhile is_space (rev a))).
  { rewrite <- E, <- rev_app_distr, take_drop_while. now rewrite rev_involutive. }
  subst a. cbn [app] in Ha. apply dropWhile_head in Ha. now rewrite Ha.
Qed.

Lemma ends_clean_trim (s : str) : ends_clean (trim s) = true.
Proof.
  unfold trim, ends_clean. set (a := dropWhile is_space s).
  destruct (dropWhile is_space (rev a)) as [|c r] eqn:E; [reflexivity|].
  cbn [rev]. rewrite last_opt_snoc. apply dropWhile_head in E. now rewrite E.
Qed.

Lemma normalized_normalizeName (s : str) : normalized (normalizeName s) = true.
Proof.
  unfold normalized, normalizeName.
  rewrite starts_clean_trim, ends_clean_trim, !andb_true_r.
  destruct (trim_decompose (collapse_ws s)) as (ws1 & ws2 & Hs & _ & _).
  pose proof (spaces_single_collapse s) as Hc. rewrite Hs in Hc.
  apply spaces_single_app in Hc as [_ Hc]. now apply spaces_single_app in Hc.
Qed.

Lemma collapse_ws_fixed (t : str) : spaces_single t = true -> collapse_ws t = t.
Proof.
  induction t as [|c t IH]; [reflexivity|]. cbn [spaces_single].
  rewrite andb_true_iff. intros [Hc Ht]. rewrite collapse_ws_cons, (IH Ht).
  destruct (is_space c); [|reflexivity].
  apply andb_true_iff in Hc as [H32 Hn]. apply N.eqb_eq in H32. subst c.
  destruct t as [|d t']; [reflexivity|].
  apply negb_true_iff in Hn. now rewrite Hn.
Qed.

Lemma trim_fixed (t : str) :
  starts_clean t = true -> ends_clean t = true -> trim t = t.
Proof.
  intros Hs He. unfold trim.
  assert (Hd : dropWhile is_space t = t).
  { destruct t as [|c t']; [reflexivity|]. cbn [starts_clean] in Hs.
    apply negb_true_iff in Hs. cbn [dropWhile]. now rewrite Hs. }
  rewrite Hd. destruct (rev t) as [|c r] eqn:E.
  - simpl. rewrite <- (rev_involutive t), E. reflexivity.
  - apply rev_cons_last in E. unfold ends_clean in He.
    rewrite E, last_opt_snoc in He. apply negb_true_iff in He.
    cbn [dropWhile]. rewrite He. rewrite E. cbn [rev]. reflexivity.
Qed.

Lemma normalizeName_fixed (t : str) : normalized t = true -> normalizeName t = t.
Proof.
  unfold normalized. rewrite !andb_true_iff. intros [[H1 H2] H3].
  unfold normalizeName. rewrite collapse_ws_fixed by exact H1.
  now apply trim_fixed.
Qed.

(** X2. A name comes out of [normalizeName] with single spaces between its
    words and none at its ends; the names of that shape are exactly those
    that [normalizeName] leaves as they are, so normalizing twice is
    normalizing once. *)
Theorem normalizeName_normalizes :
  forall s : str,
    normalized (normalizeName s) = true
    /\ (normalizeName s = s <-> normalized s = true)
    /\ normalizeName (normalizeName s) = normalizeName s.
Proof.
  intros s. pose proof (normalized_normalizeName s) as Hn.
  split; [exact Hn|]. split.
  - split; [intros <-; exact Hn | apply normalizeName_fixed].
  - now apply normalizeName_fixed.
Qed.

Lemma join_space_head (c : char) (w : str) (ws : list str) :
  join_space ((c :: w) :: ws) = c :: join_space (w :: ws).
Proof. destruct ws; reflexivity. Qed.

Lemma join_split_spaces (t : str) :
  spaces_single t = true -> join_space (split_spaces t) = t.
Proof.
  induction t as [|c t IH]; [reflexivity|]. cbn [spaces_single].
  rewrite andb_true_iff. intros [Hc Ht]. specialize (IH Ht).
  destruct (is_space c) eqn:Ec.
  - apply andb_true_iff in Hc as [H32 _]. apply N.eqb_eq in H32. subst c.
    cbn [split_spaces]. rewrite Ec.
    destruct (split_spaces_cons t) as (w & ws & E). rewrite E in IH |- *.
    change (join_space ([] :: w :: ws)) with (32%N :: join_space (w :: ws)).
    now rewrite IH.
  - rewrite split_spaces_nonspace by exact Ec.
    destruct (split_spaces_cons t) as (w & ws & E). rewrite E in IH |- *.
    cbn [hd tl]. now rewrite join_space_head, IH.
Qed.

Lemma ends_clean_tail (c d : char) (t : str) :
  ends_clean (c :: d :: t) = ends_clean (d :: t).
Proof. reflexivity. Qed.

(** In a name with single spaces that does not end with one, only the
    first piece can be empty, and only when the name begins with a
    space. *)
Lemma pieces_of_single_spaced (t : str) :
  spaces_single t = true -> ends_clean t = true ->
  forallb truthy (tl (split_spaces t)) = true
  /\ (forall c t', t = c :: t' -> is_space c = false ->
        truthy (hd [] (split_spaces t)) = true).
Proof.
  induction t as [|c t IH]; [split; [reflexivity | discriminate]|].
  cbn [spaces_single]. rewrite andb_true_iff. intros [Hc Ht] He.
  destruct (is_space c) eqn:Ec.
  - apply andb_true_iff in Hc as [_ Hn].
    destruct t as [|d t']; [unfold ends_clean in He; cbn in He; now rewrite Ec in He|].
    rewrite ends_clean_tail in He. destruct (IH Ht He) as [IH1 IH2].
    apply negb_true_iff in Hn. specialize (IH2 d t' eq_refl Hn).
    rewrite split_spaces_space by exact Ec. cbn [tl hd]. split.
    + destruct (split_spaces_cons (d :: t')) as (w & ws & E).
      rewrite E in IH1, IH2 |- *. cbn [hd tl forallb] in *. now rewrite IH2, IH1.
    + intros c0 t0 H Hc0. injection H as <- _. congruence.
  - rewrite split_spaces_nonspace by exact Ec. cbn [hd tl]. split; [|reflexivity].
    destruct t as [|d t']; [reflexivity|].
    rewrite ends_clean_tail in He. now apply IH.
Qed.

Lemma filter_all_true {A} (p : A -> bool) (l : list A) :
  forallb p l = true -> filter p l = l.
Proof.
  induction l as [|x l IH]; [reflexivity|]. simpl.
  rewrite andb_true_iff. intros [Hx Hl]. now rewrite Hx, IH.
Qed.

Lemma join_words_normalized (t : str) :
  normalized t = true -> join_space (words t) = t.
Proof.
  unfold normalized. rewrite !andb_true_iff. intros [[H1 H2] H3].
  destruct t as [|c t']; [reflexivity|].
  cbn [starts_clean] in H2. apply negb_true_iff in H2.
  destruct (pieces_of_single_spaced (c :: t') H1 H3) as [Ht Hh].
  specialize (Hh c t' eq_refl H2).
  unfold words. rewrite filter_all_true; [now apply join_split_spaces|].
  destruct (split_spaces_cons (c :: t')) as (w & ws & E).
  rewrite E in Ht, Hh |- *. cbn [hd tl forallb] in *. now rewrite Hh, Ht.
Qed.

(** X3. [normalizeName] gives the words of the string, its maximal runs
    without white space, in their order and with one space between two of
    them: nothing else is added, dropped or changed. *)
Theorem normalizeName_joins_the_words :
  forall s : str, normalizeName s = join_space (words s).
Proof.
  intros s. rewrite <- (words_normalizeName s).
  symmetry. apply join_words_normalized, normalized_normalizeName.
Qed.

(* ================================================================== *)
(** ** The extractor, item by item                                     *)
(* ================================================================== *)

Section Items.

Context {api : CheerioAPI}.
Variable resolveUrl : str -> option str.

Lemma each_item_linked (acc : list TextEntry) (el : Element) (w : World) :
  has_link el = true ->
  each_item resolveUrl acc el w
  = (acc ++ [entry_of resolveUrl el (clock w (reads w))],
     {| clock := clock w; reads := S (reads w) |}).
Proof.
  unfold has_link, each_item, entry_of. intros H. apply negb_true_iff in H.
  rewrite H. reflexivity.
Qed.

Lemma each_item_skipped (acc : list TextEntry) (el : Element) (w : World) :
  has_link el = false -> each_item resolveUrl acc el w = (acc, w).
Proof.
  unfold has_link, each_item. intros H. apply negb_false_iff in H.
  rewrite H. reflexivity.
Qed.

Lemma combine_seq_succ {A} (l : list A) (n : nat) :
  combine (seq (S n) (length l)) l
  = map (fun ie => (S (fst ie), snd ie)) (combine (seq n (length l)) l).
Proof.
  revert n; induction l as [|x l IH]; intros n; [reflexivity|].
  cbn [length seq combine map fst snd]. now rewrite IH.
Qed.

Lemma each_as_map (items : list Element) :
  forall (acc : list TextEntry) (w : World),
    fst (each resolveUrl items acc w)
    = acc ++ map (fun ie => entry_of resolveUrl (snd ie)
                              (clock w (reads w + fst ie)%nat))
                 (combine (seq 0 (length (filter has_link items)))
                          (filter has_link items)).
Proof.
  induction items as [|el items IH]; intros acc w.
  - cbn. now rewrite app_nil_r.
  - cbn [each filter]. unfold bind. destruct (has_link el) eqn:E.
    + rewrite each_item_linked by exact E. rewrite IH.
      cbn [length seq combine map fst snd clock reads].
      rewrite <- app_assoc, Nat.add_0_r. cbn [app]. do 2 f_equal.
      rewrite combine_seq_succ, map_map. apply map_ext. intros [i e].
      cbn [fst snd]. now rewrite Nat.add_succ_r.
    + rewrite each_item_skipped by exact E. apply IH.
Qed.

(** X4. The loop over the items is a map over the items that have a link:
    items without one are passed over, each of the others gives one entry,
    in document order, the [i]-th of them with the [i]-th reading of the
    clock; a link that does not resolve leaves its [href] as the url. *)
Theorem extract_maps_the_linked_items :
  forall (items : list Element) (w : World),
    fst (extract resolveUrl items w)
    = map (fun ie => entry_of resolveUrl (snd ie) (clock w (reads w + fst ie)%nat))
          (combine (seq 0 (length (filter has_link items)))
                   (filter has_link items))
    /\ (length (fst (extract resolveUrl items w)) <= length items)%nat.
Proof.
  intros items w. unfold extract. rewrite each_as_map. cbn [app].
  split; [reflexivity|].
  rewrite length_map, length_combine, length_seq, Nat.min_id.
  apply filter_length_le.
Qed.

Lemma entry_of_shape (el : Element) (ts : str) :
  extracted_shape (entry_of resolveUrl el ts).
Proof.
  split; [apply normalized_normalizeName|].
  destruct (parsePoints_digits (wrap el)) as (ds & Hp & Hd & Hl).
  eexists _, (digits_value ds). split; [reflexivity|].
  split; [exact Hp | now apply digits_value_5].
Qed.

(** X5. Whatever the page, every entry that the extractor makes has a
    normalized name and exactly one score point, whose points are an
    integer from 0 to 99999. *)
Theorem extract_entries_shape :
  forall (items : list Element) (w : World),
    Forall extracted_shape (fst (extract resolveUrl items w)).
Proof.
  intros items w. unfold extract. rewrite each_as_map. cbn [app].
  apply Forall_forall. intros p Hp. apply in_map_iff in Hp as (ie & <- & _).
  apply entry_of_shape.
Qed.

Lemma first_digit_run_at (pre ds post : str) :
  digitless pre = true -> ds <> [] -> forallb is_digit ds = true ->
  (length ds <= 5)%nat ->
  (length ds = 5%nat \/ no_digit_first post = true) ->
  Spec.first_digit_run (pre ++ ds ++ post) = Some ds.
Proof.
  intros Hpre Hne Hd Hl Hend. unfold Spec.first_digit_run.
  assert (Hdrop : dropWhile (fun c => negb (is_digit c)) (pre ++ ds ++ post)
                  = ds ++ post).
  { clear -Hpre Hne Hd. induction pre as [|c pre IH].
    - destruct ds as [|d ds]; [congruence|]. cbn in Hd |- *.
      apply andb_true_iff in Hd as [Hd _]. now rewrite Hd.
    - cbn in Hpre |- *. apply andb_true_iff in Hpre as [Hc Hpre].
      rewrite Hc. now apply IH. }
  rewrite Hdrop. destruct (ds ++ post) as [|x xs] eqn:E;
    [destruct ds; [congruence | discriminate]|].
  rewrite <- E. f_equal.
  assert (Htake : exists more, takeWhile is_digit (ds ++ post) = ds ++ more
                               /\ (no_digit_first post = true -> more = [])).
  { clear -Hd. induction ds as [|d ds IH].
    - exists (takeWhile is_digit post). split; [reflexivity|].
      destruct post as [|c post]; [reflexivity|]. cbn. intros H.
      apply negb_true_iff in H. now rewrite H.
    - cbn in Hd |- *. apply andb_true_iff in Hd as [Hd1 Hd2]. rewrite Hd1.
      destruct (IH Hd2) as (more & -> & Hm). now exists more. }
  destruct Htake as (more & -> & Hm).
  destruct Hend as [H5 | Hp].
  - rewrite firstn_app, H5, Nat.sub_diag, firstn_O, app_nil_r.
    rewrite <- H5. apply firstn_all.
  - rewrite (Hm Hp), app_nil_r. apply firstn_all2. exact Hl.
Qed.

(** X6. When the text of the score label is [pre ++ ds ++ post] with no
    digit in [pre], one to five digits [ds], and [post] not going on with a
    digit unless [ds] has five already, the points are the number that [ds]
    writes in base ten: the first number of the label, cut after five
    digits, whatever classes and markup hold. *)
Theorem score_label_number_is_the_points :
  forall (li : Cheerio) (pre ds post : str),
    text (first (find (lit "div.punkte") li)) = pre ++ ds ++ post ->
    digitless pre = true ->
    ds <> [] -> forallb is_digit ds = true -> (length ds <= 5)%nat ->
    (length ds = 5%nat \/ no_digit_first post = true) ->
    parsePointsFromLi li = Num (digits_value ds).
Proof.
  intros li pre ds post Ht Hpre Hne Hd Hl Hend.
  unfold parsePointsFromLi. rewrite label_match, Ht.
  rewrite (first_digit_run_at pre ds post) by assumption. cbn [option_map].
  apply parseInt_group_run. repeat split; assumption.
Qed.

Lemma digitless_first_digit_run (s : str) :
  digitless s = true -> Spec.first_digit_run s = None.
Proof.
  unfold Spec.first_digit_run, digitless. intros H.
  replace (dropWhile (fun c => negb (is_digit c)) s) with (@nil char);
    [reflexivity|].
  induction s as [|c s IH]; [reflexivity|]. cbn in H |- *.
  apply andb_true_iff in H as [Hc Hs]. rewrite Hc. now apply IH.
Qed.

Lemma digitless_app (a b : str) :
  digitless (a ++ b) = digitless a && digitless b.
Proof. apply forallb_app. Qed.

Lemma digitless_takeWhile (s : str) :
  digitless s = true -> takeWhile is_digit s = [].
Proof.
  destruct s as [|c s]; [reflexivity|]. cbn.
  rewrite andb_true_iff. intros [Hc _]. apply negb_true_iff in Hc. now rewrite Hc.
Qed.

Lemma digitless_pt_token (s : str) : digitless s = true -> Spec.pt_token s = None.
Proof.
  assert (Hhere : forall t, digitless t = true -> Spec.pt_here t = None).
  { intros t Ht. unfold Spec.pt_here.
    destruct (Spec.strip_prefix Spec.same (lit "pt-") t) as [rest|] eqn:E;
      [|reflexivity].
    apply strip_prefix_same in E. rewrite E, digitless_app in Ht.
    apply andb_true_iff in Ht as [_ Hr]. now rewrite digitless_takeWhile. }
  induction s as [|c s IH]; intros H; cbn [Spec.pt_token]; rewrite Hhere by exact H;
    [reflexivity|].
  apply IH. cbn in H. now apply andb_true_iff in H.
Qed.

Lemma digitless_markup_scan (s : str) :
  digitless s = true -> Spec.markup_scan s = None.
Proof.
  induction s as [|c s IH]; [reflexivity|]. cbn [Spec.markup_scan digitless forallb].
  rewrite andb_true_iff. intros [_ Hs].
  assert (Hn : Spec.number_here s = None).
  { unfold Spec.number_here. now rewrite (digitless_takeWhile s Hs). }
  rewrite Hn. destruct (Spec.same_ci 40%N c || is_space c); now apply IH.
Qed.

(** X7. An item without a digit in the text of its score label, in its
    class names, in those of its first [div] and in its inner markup has 0
    points. *)
Theorem digitless_item_has_no_points :
  forall li : Cheerio,
    digitless (text (first (find (lit "div.punkte") li))) = true ->
    digitless (or_empty (attr (lit "class") li)) = true ->
    digitless (or_empty (attr (lit "class") (find (lit "div") li))) = true ->
    digitless (or_empty (html li)) = true ->
    parsePointsFromLi li = Num 0.
Proof.
  intros li H1 H2 H3 H4. unfold parsePointsFromLi.
  rewrite label_match, exec_re_pt, exec_re_markup.
  rewrite (digitless_first_digit_run _ H1). cbn [option_map].
  rewrite digitless_pt_token, digitless_markup_scan; [reflexivity | exact H4 |].
  rewrite !digitless_app, H2, H3. reflexivity.
Qed.

End Items.

(* ================================================================== *)
(** ** More about the merge                                            *)
(* ================================================================== *)

(** X9. What a run saves is a history in good order: no two entries with
    the same identity key, sorted by name for a total comparator, and read
    back by a run that parses nothing it is saved again as it is. *)
Theorem reconcile_output_is_a_sorted_history :
  forall (localeCompare : str -> str -> Z) (existing : Schema)
         (parsedEntries : list TextEntry) (out : Schema),
    comparator_total localeCompare ->
    reconcile localeCompare existing parsedEntries = Some out ->
    NoDup (map entry_key out)
    /\ sorted localeCompare out
    /\ reconcile localeCompare out [] = Some out.
Proof.
  intros cmp existing parsed out Htot Hout.
  pose proof (reconcile_distinct_keys cmp existing parsed out Hout) as Hnd.
  assert (Hs : sorted cmp out).
  { destruct (reconcile_inv cmp existing parsed out Hout) as (m & _ & _ & ->).
    now apply sort_sorted. }
  split; [exact Hnd|]. split; [exact Hs|].
  unfold reconcile. cbn [merge_all].
  now rewrite (values_index_distinct out Hnd), (sort_of_sorted cmp out Hs).
Qed.

Lemma index_existing_snoc (existing : Schema) (x : TextEntry) :
  index_existing (existing ++ [x]) = map_set (entry_key x) x (index_existing existing).
Proof. unfold index_existing. now rewrite fold_left_app. Qed.

Lemma in_values_set (m : JsMap) (k : str) (v e : TextEntry) :
  well_keyed m -> k = entry_key v ->
  (In e (map_values (map_set k v m))
   <-> e = v \/ (In e (map_values m) /\ entry_key e <> k)).
Proof.
  intros Hm Hk. pose proof (well_keyed_set k v m Hm Hk) as Hm'.
  split.
  - intros Hin. apply (in_values_get _ e Hm') in Hin.
    destruct (list_eq_dec N.eq_dec (entry_key e) k) as [Heq | Hne].
    + rewrite Heq, map_get_set_same in Hin. left. congruence.
    + rewrite map_get_set_other in Hin by exact Hne. right.
      split; [eapply get_in_values; exact Hin | exact Hne].
  - intros [-> | [Hin Hne]].
    + eapply get_in_values. rewrite Hk. apply map_get_set_same.
    + apply (in_values_get m e Hm) in Hin.
      eapply get_in_values. rewrite map_get_set_other by exact Hne. exact Hin.
Qed.

Lemma last_of_key_snoc (existing : Schema) (x e : TextEntry) :
  last_of_key (existing ++ [x]) e
  <-> e = x \/ (last_of_key existing e /\ entry_key e <> entry_key x).
Proof.
  split.
  - intros (before & after & Heq & Hafter).
    destruct (rev after) as [|y r] eqn:Er.
    + apply (f_equal (@rev _)) in Er. rewrite rev_involutive in Er. subst after.
      change (before ++ [e]) with (before ++ [e]) in Heq.
      apply app_inj_tail in Heq as [_ ->]. now left.
    + apply rev_cons_last in Er. subst after.
      rewrite app_comm_cons, app_assoc in Heq.
      apply app_inj_tail in Heq as [-> ->]. right.
      apply Forall_app in Hafter as [Hr Hy]. split.
      * exists before, (rev r). now split.
      * apply Forall_inv in Hy. congruence.
  - intros [-> | [(before & after & -> & Hafter) Hne]].
    + exists existing, []. split; [reflexivity | constructor].
    + exists before, (after ++ [x]). split; [now rewrite <- app_assoc|].
      apply Forall_app. split; [exact Hafter|]. constructor; [congruence | constructor].
Qed.

Lemma index_existing_values (existing : Schema) (e : TextEntry) :
  In e (map_values (index_existing existing)) <-> last_of_key existing e.
Proof.
  induction existing as [|x existing IH] using rev_ind.
  - split; [intros [] | intros (before & after & H & _)].
    now destruct before.
  - rewrite index_existing_snoc, last_of_key_snoc.
    rewrite in_values_set by (apply index_existing_well_keyed || reflexivity).
    now rewrite IH.
Qed.

(** X10. Of the entries of the loaded history that have the same identity
    key only the last is kept: a run that parses nothing saves exactly the
    entries that no later entry of the file has the key of. *)
Theorem duplicate_keys_last_one_wins :
  forall (localeCompare : str -> str -> Z) (existing : Schema),
    exists out,
      reconcile localeCompare existing [] = Some out
      /\ forall e, In e out <-> last_of_key existing e.
Proof.
  intros cmp existing. eexists. split; [reflexivity|].
  intros e. rewrite sort_in. apply index_existing_values.
Qed.

Lemma score_point_eta (p0 : ScorePoint) :
  {| timestamp := timestamp p0; points := points p0 |} = p0.
Proof. now destruct p0. Qed.

Lemma made_from_source (sources : list TextEntry) (x : TextEntry) :
  In x sources -> made_from sources x.
Proof.
  intros Hx. split; [exists x; now repeat split|].
  intros sp Hsp. exists x. now repeat split.
Qed.

Lemma made_from_push (sources : list TextEntry) (e p : TextEntry)
    (p0 : ScorePoint) (rest : list ScorePoint) :
  made_from sources e -> In p sources -> entry_key p = entry_key e ->
  score p = p0 :: rest ->
  made_from sources
    (push_score e {| timestamp := timestamp p0; points := points p0 |}).
Proof.
  intros [(x & Hx & Hk & Hn & Hu) Hsp] Hp Hkp Hs.
  pose proof (extends_key e _ (extends_push e
    {| timestamp := timestamp p0; points := points p0 |})) as Hke.
  split.
  - exists x. split; [exact Hx|]. repeat split; cbn [push_score name url];
      try assumption; congruence.
  - intros sp Hin. rewrite Hke. cbn [push_score score] in Hin.
    apply in_app_or in Hin as [Hin | [<- | []]].
    + now apply Hsp.
    + exists p. split; [exact Hp|]. split; [exact Hkp|].
      rewrite score_point_eta, Hs. now left.
Qed.

Lemma merge_one_made_from (sources : list TextEntry) (m m' : JsMap) (p : TextEntry) :
  well_keyed m -> bindings_made_from sources m -> In p sources ->
  merge_one m p = Some m' -> bindings_made_from sources m'.
Proof.
  intros Hwk Hm Hp H k e Hg.
  destruct (list_eq_dec N.eq_dec k (entry_key p)) as [-> | Hne].
  - apply merge_one_cases in H as (p0 & rest & Hs & H).
    destruct H as [[_ ->] | [(e1 & G & _ & ->) | (e1 & G & _ & ->)]].
    + rewrite map_get_set_same in Hg. injection Hg as <-.
      now apply made_from_source.
    + rewrite map_get_set_same in Hg. injection Hg as <-.
      apply (made_from_push sources e1 p p0 rest); try assumption.
      * now apply (Hm _ _ G).
      * symmetry. eapply well_keyed_value; eassumption.
    + now apply (Hm _ _ Hg).
  - rewrite (merge_one_frame m m' p k H Hne) in Hg. now apply (Hm _ _ Hg).
Qed.

Lemma merge_all_made_from (sources l : list TextEntry) (m m' : JsMap) :
  well_keyed m -> bindings_made_from sources m ->
  (forall p, In p l -> In p sources) ->
  merge_all m l = Some m' -> bindings_made_from sources m'.
Proof.
  revert m; induction l as [|p l IH]; intros m Hwk Hm Hl H; simpl in H.
  - now injection H as <-.
  - destruct (merge_one m p) as [m1|] eqn:E; [|discriminate].
    apply (IH m1); try assumption.
    + eapply merge_one_well_keyed; eassumption.
    + eapply merge_one_made_from; try eassumption. apply Hl. now left.
    + intros q Hq. apply Hl. now right.
Qed.

Lemma last_of_key_in (existing : Schema) (e : TextEntry) :
  last_of_key existing e -> In e existing.
Proof. intros (before & after & -> & _). apply in_or_app. right. now left. Qed.

(** X11. Nothing in the saved array is made up. Every saved entry has its
    identity key, its name and its url from a loaded or a parsed entry, and
    each of its score points, timestamp and points, is a score point of a
    loaded or parsed entry with that same key. *)
Theorem saved_entries_come_from_the_inputs :
  forall (localeCompare : str -> str -> Z) (existing : Schema)
         (parsedEntries : list TextEntry) (out : Schema) (e : TextEntry),
    reconcile localeCompare existing parsedEntries = Some out ->
    In e out ->
    (exists x, In x (existing ++ parsedEntries)
               /\ entry_key x = entry_key e /\ name x = name e /\ url x = url e)
    /\ forall sp, In sp (score e) ->
         exists x, In x (existing ++ parsedEntries)
                   /\ entry_key x = entry_key e /\ In sp (score x).
Proof.
  intros cmp existing parsed out e Hout Hin.
  destruct (reconcile_inv cmp existing parsed out Hout) as (m & Hm & Hwk & ->).
  apply sort_in in Hin. apply (in_values_get m e Hwk) in Hin.
  assert (H0 : bindings_made_from (existing ++ parsed) (index_existing existing)).
  { intros k x Hg. apply made_from_source, in_or_app. left.
    apply last_of_key_in, index_existing_values. eapply get_in_values; exact Hg. }
  pose proof (merge_all_made_from (existing ++ parsed) parsed _ m
                (index_existing_well_keyed existing) H0
                (fun p Hp => in_or_app _ _ p (or_intror Hp)) Hm) as Hall.
  exact (Hall _ _ Hin).
Qed.

Lemma score_points_app (a b : list TextEntry) :
  score_points (a ++ b) = (score_points a + score_points b)%nat.
Proof. unfold score_points. now rewrite map_app, list_sum_app. Qed.

Lemma score_points_cons (e : TextEntry) (l : list TextEntry) :
  score_points (e :: l) = (length (score e) + score_points l)%nat.
Proof. reflexivity. Qed.

Lemma score_points_set (m : JsMap) (k : str) (v : TextEntry) :
  (score_points (map_values (map_set k v m))
   + match map_get k m with Some e => length (score e) | None => 0 end
   = score_points (map_values m) + length (score v))%nat.
Proof.
  induction m as [|[k' v'] m IH]; cbn [map_set map_get].
  - cbn. lia.
  - destruct (str_eqb k' k).
    + unfold score_points, map_values. cbn. lia.
    + change (map_values ((k', v') :: map_set k v m))
        with (v' :: map_values (map_set k v m)).
      change (map_values ((k', v') :: m)) with (v' :: map_values m).
      rewrite !score_points_cons. lia.
Qed.

Lemma score_points_index_from (existing : Schema) (m : JsMap) :
  (score_points (map_values (fold_left (fun m e => map_set (entry_key e) e m) existing m))
   <= score_points (map_values m) + score_points existing)%nat.
Proof.
  revert m; induction existing as [|e l IH]; intros m; cbn [fold_left].
  - change (score_points []) with 0%nat. lia.
  - specialize (IH (map_set (entry_key e) e m)).
    pose proof (score_points_set m (entry_key e) e) as Hs.
    rewrite score_points_cons. lia.
Qed.

Lemma merge_one_score_points (m m' : JsMap) (p : TextEntry) :
  merge_one m p = Some m' ->
  (score_points (map_values m')
   <= score_points (map_values m) + Nat.max 1 (length (score p)))%nat.
Proof.
  intros H. apply merge_one_cases in H as (p0 & rest & Hs & H).
  destruct H as [[G ->] | [(e & G & _ & ->) | (e & _ & _ & ->)]].
  - pose proof (score_points_set m (entry_key p) p) as Hp. rewrite G in Hp. lia.
  - pose proof (score_points_set m (entry_key p)
                  (push_score e {| timestamp := timestamp p0; points := points p0 |}))
      as Hp.
    rewrite G in Hp. cbn [push_score score] in Hp. rewrite length_app in Hp.
    cbn [length] in Hp. lia.
  - lia.
Qed.

Lemma merge_all_score_points (l : list TextEntry) (m m' : JsMap) :
  Forall is_reading l -> merge_all m l = Some m' ->
  (score_points (map_values m') <= score_points (map_values m) + length l)%nat.
Proof.
  intros Hl. revert m; induction Hl as [|p l Hp Hl IH]; intros m H; simpl in H.
  - injection H as <-. lia.
  - destruct (merge_one m p) as [m1|] eqn:E; [|discriminate].
    apply merge_one_score_points in E. apply IH in H.
    unfold is_reading in Hp. rewrite Hp in E. cbn [length]. lia.
Qed.

Lemma score_points_perm (a b : list TextEntry) :
  Permutation a b -> score_points a = score_points b.
Proof.
  induction 1; rewrite ?score_points_cons; lia.
Qed.

(** X12. A run adds at most one score point for each parsed entry: the
    saved array holds no more score points than the loaded history and the
    parsed entries together. *)
Theorem at_most_one_score_point_per_reading :
  forall (localeCompare : str -> str -> Z) (existing : Schema)
         (parsedEntries : list TextEntry),
    Forall is_reading parsedEntries ->
    exists out,
      reconcile localeCompare existing parsedEntries = Some out
      /\ (score_points out <= score_points existing + length parsedEntries)%nat.
Proof.
  intros cmp existing parsed Hr.
  destruct (reconcile_some cmp existing parsed Hr) as [out Hout].
  exists out. split; [exact Hout|].
  destruct (reconcile_inv cmp existing parsed out Hout) as (m & Hm & _ & ->).
  rewrite (score_points_perm _ _ (sort_perm cmp (map_values m))).
  pose proof (merge_all_score_points parsed _ m Hr Hm) as H1.
  pose proof (score_points_index_from existing []) as H2.
  fold (index_existing existing) in H2.
  change (score_points (map_values [])) with 0%nat in H2. lia.
Qed.

(* ================================================================== *)
(** ** The order of the parsed entries, and one run after another      *)
(* ================================================================== *)

Lemma str_eqb_sym (a b : str) : str_eqb a b = str_eqb b a.
Proof.
  destruct (str_eqb a b) eqn:E1, (str_eqb b a) eqn:E2; try reflexivity.
  - apply str_eqb_eq in E1. subst. now rewrite str_eqb_refl in E2.
  - apply str_eqb_eq in E2. subst. now rewrite str_eqb_refl in E1.
Qed.

(** What a [get] returns after a parsed entry is merged. *)
Lemma merge_one_gets (m m' : JsMap) (p : TextEntry) :
  merge_one m p = Some m' ->
  forall k, map_get k m' =
    if str_eqb (entry_key p) k
    then merged_entry (map_get (entry_key p) m) p
    else map_get k m.
Proof.
  intros H k. destruct (str_eqb (entry_key p) k) eqn:Ek.
  - apply str_eqb_eq in Ek. subst k.
    apply merge_one_cases in H as (p0 & rest & Hs & H). unfold merged_entry.
    rewrite Hs.
    destruct H as [[G ->] | [(e & G & C & ->) | (e & G & C & ->)]];
      rewrite G, ?C, ?map_get_set_same; try reflexivity; exact G.
  - apply str_eqb_neq in Ek. apply (merge_one_frame m m' p k H). congruence.
Qed.

Lemma merge_one_congr (m m' a : JsMap) (p : TextEntry) :
  same_lookups m m' -> merge_one m p = Some a ->
  exists b, merge_one m' p = Some b /\ same_lookups a b.
Proof.
  intros Hm Ha.
  destruct (merge_one_some m' p) as [b Hb].
  { intros Hs. rewrite merge_one_none in Ha by exact Hs. discriminate. }
  exists b. split; [exact Hb|]. intros k.
  rewrite (merge_one_gets m a p Ha), (merge_one_gets m' b p Hb), !Hm. reflexivity.
Qed.

Lemma merge_all_congr (l : list TextEntry) (m m' a : JsMap) :
  same_lookups m m' -> merge_all m l = Some a ->
  exists b, merge_all m' l = Some b /\ same_lookups a b.
Proof.
  revert m m'; induction l as [|p l IH]; intros m m' Hm Ha; simpl in Ha |- *.
  - injection Ha as <-. eauto.
  - destruct (merge_one m p) as [m1|] eqn:E; [|discriminate].
    destruct (merge_one_congr m m' m1 p Hm E) as (m1' & -> & Hm1).
    now apply (IH m1 m1').
Qed.

(** Parsed entries with different keys can be merged in either order. *)
Lemma merge_one_swap (m m1 a : JsMap) (p q : TextEntry) :
  entry_key p <> entry_key q ->
  merge_one m p = Some m1 -> merge_one m1 q = Some a ->
  exists m2 b, merge_one m q = Some m2 /\ merge_one m2 p = Some b
               /\ same_lookups a b.
Proof.
  intros Hne H1 Ha.
  destruct (merge_one_some m q) as [m2 H2].
  { intros Hs. rewrite merge_one_none in Ha by exact Hs. discriminate. }
  destruct (merge_one_some m2 p) as [b Hb].
  { intros Hs. rewrite merge_one_none in H1 by exact Hs. discriminate. }
  exists m2, b. split; [exact H2|]. split; [exact Hb|]. intros k.
  rewrite (merge_one_gets m1 a q Ha), (merge_one_gets m2 b p Hb).
  rewrite !(merge_one_gets m m1 p H1), !(merge_one_gets m m2 q H2).
  assert (Epq : str_eqb (entry_key p) (entry_key q) = false)
    by now apply str_eqb_neq.
  assert (Eqp : str_eqb (entry_key q) (entry_key p) = false)
    by (rewrite str_eqb_sym; exact Epq).
  rewrite Epq, Eqp.
  destruct (str_eqb (entry_key q) k) eqn:E1, (str_eqb (entry_key p) k) eqn:E2;
    try reflexivity.
  apply str_eqb_eq in E1, E2. congruence.
Qed.

Lemma same_lookups_refl (m : JsMap) : same_lookups m m.
Proof. intros k. reflexivity. Qed.

Lemma same_lookups_trans (a b c : JsMap) :
  same_lookups a b -> same_lookups b c -> same_lookups a c.
Proof. intros H1 H2 k. now rewrite H1. Qed.

Lemma merge_all_permuted (l l' : list TextEntry) :
  Permutation l l' -> NoDup (map entry_key l) ->
  forall m m' a, same_lookups m m' -> merge_all m l = Some a ->
    exists b, merge_all m' l' = Some b /\ same_lookups a b.
Proof.
  induction 1 as [|x l l' Hp IH|x y l|l l' l'' Hp1 IH1 Hp2 IH2];
    intros Hnd m m' a Hm Ha.
  - cbn in Ha |- *. injection Ha as <-. eauto.
  - cbn [merge_all map] in Ha, Hnd |- *. apply NoDup_cons_iff in Hnd as [_ Hnd].
    destruct (merge_one m x) as [m1|] eqn:E; [|discriminate].
    destruct (merge_one_congr m m' m1 x Hm E) as (m1' & -> & Hm1).
    now apply (IH Hnd m1 m1').
  - cbn [merge_all map] in Ha, Hnd |- *.
    assert (Hxy : entry_key y <> entry_key x).
    { apply NoDup_cons_iff in Hnd as [Hy _]. intros Heq. apply Hy. now left. }
    destruct (merge_one m y) as [m1|] eqn:E1; [|discriminate].
    destruct (merge_one m1 x) as [m2|] eqn:E2; [|discriminate].
    destruct (merge_one_swap m m1 m2 y x Hxy E1 E2) as (n1 & n2 & F1 & F2 & Hn).
    destruct (merge_one_congr m m' n1 x Hm F1) as (n1' & -> & Hn1).
    destruct (merge_one_congr n1 n1' n2 y Hn1 F2) as (n2' & -> & Hn2).
    apply (merge_all_congr l m2 n2'); [|exact Ha].
    eapply same_lookups_trans; eassumption.
  - destruct (IH1 Hnd m m a (same_lookups_refl m) Ha) as (b & Hb & Hab).
    assert (Hnd' : NoDup (map entry_key l'))
      by (eapply Permutation_NoDup; [apply Permutation_map; exact Hp1 | exact Hnd]).
    destruct (IH2 Hnd' m m' b Hm Hb) as (c & Hc & Hbc).
    exists c. split; [exact Hc | eapply same_lookups_trans; eassumption].
Qed.

Lemma NoDup_map_values (m : JsMap) : well_keyed m -> NoDup (map_values m).
Proof.
  intros Hm. apply (NoDup_map_inv entry_key). now apply well_keyed_values.
Qed.

(** Well-keyed maps that answer alike hold the same entries. *)
Lemma same_lookups_values (a b : JsMap) :
  well_keyed a -> well_keyed b -> same_lookups a b ->
  Permutation (map_values a) (map_values b).
Proof.
  intros Ha Hb Hab. apply NoDup_Permutation; try now apply NoDup_map_values.
  intros e. split; intros Hin.
  - apply (in_values_get a e Ha) in Hin. rewrite Hab in Hin.
    eapply get_in_values; exact Hin.
  - apply (in_values_get b e Hb) in Hin. rewrite <- Hab in Hin.
    eapply get_in_values; exact Hin.
Qed.

(** X13. When no two parsed entries have the same identity key, their
    order on the page does not matter: parsed in any other order they give
    a saved array with the same entries, score points included. *)
Theorem parsed_order_does_not_matter :
  forall (localeCompare : str -> str -> Z) (existing : Schema)
         (parsedEntries reordered : list TextEntry),
    Permutation parsedEntries reordered ->
    NoDup (map entry_key parsedEntries) ->
    Forall is_reading parsedEntries ->
    exists out out',
      reconcile localeCompare existing parsedEntries = Some out
      /\ reconcile localeCompare existing reordered = Some out'
      /\ Permutation out out'.
Proof.
  intros cmp existing parsed reordered Hperm Hnd Hr.
  destruct (reconcile_some cmp existing parsed Hr) as [out Hout].
  destruct (reconcile_inv cmp existing parsed out Hout) as (a & Ha & Hwa & ->).
  destruct (merge_all_permuted parsed reordered Hperm Hnd _ _ a
              (same_lookups_refl _) Ha) as (b & Hb & Hab).
  exists (sort_by_name cmp (map_values a)), (sort_by_name cmp (map_values b)).
  split; [exact Hout|]. split; [unfold reconcile; now rewrite Hb|].
  assert (Hwb : well_keyed b)
    by (eapply merge_all_well_keyed; [apply index_existing_well_keyed | exact Hb]).
  eapply perm_trans; [apply sort_perm|].
  eapply perm_trans; [apply (same_lookups_values a b Hwa Hwb Hab)|].
  apply Permutation_sym, sort_perm.
Qed.

(** X14. Two runs one after the other save the entries that one run on
    the parsed entries of both, in their order, would save: the history on
    disk carries everything the next run needs. *)
Theorem two_runs_are_one_run :
  forall (localeCompare : str -> str -> Z) (existing : Schema)
         (first_run second_run : list TextEntry),
    Forall is_reading (first_run ++ second_run) ->
    exists out1 out2 out,
      reconcile localeCompare existing first_run = Some out1
      /\ reconcile localeCompare out1 second_run = Some out2
      /\ reconcile localeCompare existing (first_run ++ second_run) = Some out
      /\ Permutation out2 out.
Proof.
  intros cmp existing O1 O2 Hr.
  destruct (reconcile_some cmp existing (O1 ++ O2) Hr) as [out Hout].
  destruct (reconcile_inv cmp existing (O1 ++ O2) out Hout) as (m & Hm & Hwm & ->).
  rewrite merge_all_app in Hm.
  destruct (merge_all (index_existing existing) O1) as [m1|] eqn:E1; [|discriminate].
  assert (Hw1 : well_keyed m1)
    by (eapply merge_all_well_keyed; [apply index_existing_well_keyed | exact E1]).
  set (out1 := sort_by_name cmp (map_values m1)).
  assert (Hout1 : reconcile cmp existing O1 = Some out1)
    by (unfold reconcile; now rewrite E1).
  pose proof (reconcile_distinct_keys cmp existing O1 out1 Hout1) as Hnd1.
  assert (Hsame : same_lookups m1 (index_existing out1)).
  { intros k. symmetry. revert k. apply same_entries_same_gets;
      [exact Hw1 | apply index_existing_well_keyed |].
    intros e. rewrite (values_index_distinct out1 Hnd1). apply sort_in. }
  destruct (merge_all_congr O2 m1 (index_existing out1) m Hsame Hm)
    as (m2 & Hm2 & H2).
  assert (Hw2 : well_keyed m2)
    by (eapply merge_all_well_keyed; [apply index_existing_well_keyed | exact Hm2]).
  exists out1, (sort_by_name cmp (map_values m2)), (sort_by_name cmp (map_values m)).
  split; [exact Hout1|]. split; [unfold reconcile; now rewrite Hm2|].
  split; [exact Hout|].
  eapply perm_trans; [apply sort_perm|].
  eapply perm_trans; [apply Permutation_sym, (same_lookups_values m m2 Hwm Hw2 H2)|].
  apply Permutation_sym, sort_perm.
Qed.

(* ================================================================== *)
(** ** The log                                                         *)
(* ================================================================== *)

Lemma replace_first_at (c : char) (rep pre post : str) :
  free_of c pre = true ->
  replace_first [c] rep (pre ++ c :: post) = pre ++ rep ++ post.
Proof.
  intros Hpre. induction pre as [|x pre IH].
  - cbn [app replace_first Spec.strip_prefix]. unfold Spec.same.
    now rewrite N.eqb_refl.
  - cbn [free_of forallb] in Hpre. apply andb_true_iff in Hpre as [Hx Hpre].
    apply negb_true_iff in Hx.
    cbn [app replace_first Spec.strip_prefix]. unfold Spec.same at 1.
    rewrite N.eqb_sym, Hx. f_equal. now apply IH.
Qed.

Lemma free_of_app (c : char) (a b : str) :
  free_of c (a ++ b) = free_of c a && free_of c b.
Proof. apply forallb_app. Qed.

(** X15. When the clock shows a date, the letter T, a time and the letter
    Z, neither T nor Z in the date and no Z in the time, as an ISO timestamp
    does, [log] prints the date, a space and the time in brackets, a space,
    and the message as it is; it reads the clock once. *)
Theorem log_prints_date_and_time :
  forall (date time message : str) (w : World),
    free_of 84%N date = true -> free_of 90%N date = true ->
    free_of 90%N time = true ->
    clock w (reads w) = date ++ lit "T" ++ time ++ lit "Z" ->
    fst (log message w) = lit "[" ++ date ++ lit " " ++ time ++ lit "] " ++ message
    /\ reads (snd (log message w)) = S (reads w).
Proof.
  intros date time message w HT HZ HZt Hclock.
  unfold log, bind, now_iso, ret. cbn [fst snd reads]. split; [|reflexivity].
  assert (Hstamp : log_stamp (clock w (reads w)) = date ++ lit " " ++ time).
  { unfold log_stamp. rewrite Hclock.
    change (lit "T") with [84%N]. change (lit "Z") with [90%N].
    change (lit " ") with [32%N]. cbn [app].
    rewrite replace_first_at by exact HT.
    rewrite 2!app_assoc.
    rewrite replace_first_at.
    - cbn [app]. now rewrite app_nil_r, <- app_assoc.
    - rewrite !free_of_app, HZ, HZt. reflexivity. }
  unfold log_line. rewrite Hstamp. now rewrite <- !app_assoc.
Qed.

(* ================================================================== *)
(** ** The messages of the merge loop                                  *)
(* ================================================================== *)

Lemma merge_one_log_map (m : JsMap) (p : TextEntry) :
  option_map fst (merge_one_log m p) = merge_one m p.
Proof.
  unfold merge_one_log, merge_one.
  destruct (map_get (entry_key p) m) as [e|]; destruct (score p) as [|p0 rest];
    try reflexivity.
  destruct (last_opt (score e)) as [l|]; [|reflexivity].
  destruct (strict_neq (points l) (points p0)); reflexivity.
Qed.

Lemma map_set_same_length (m : JsMap) (k : str) (v e : TextEntry) :
  map_get k m = Some e -> length (map_set k v m) = length m.
Proof.
  intros H. pose proof (map_set_present k v e m H) as Hk.
  apply (f_equal (@length _)) in Hk. unfold keys in Hk.
  now rewrite !length_map in Hk.
Qed.

(** X16. The message of the loop says what was done. A new entry is
    reported, with the parsed name and points, exactly when the key was not
    in the map, and the parsed entry is then added at the end of the map.
    An update is reported with the stored name, the last points before, if
    any, and the new points, which differ from them: the entry under the key
    has gained one score point with the new points and nothing else has
    changed place. No change is reported with the stored name when the last
    points are the parsed ones, and the map is then what it was. *)
Theorem merge_one_log_reports :
  forall (m m' : JsMap) (p : TextEntry) (ev : Event),
    merge_one_log m p = Some (m', ev) ->
    merge_one m p = Some m'
    /\ match ev with
       | NewEntry n pts =>
           map_get (entry_key p) m = None
           /\ m' = m ++ [(entry_key p, p)]
           /\ n = name p /\ first_points p = Some pts
       | Updated n before after =>
           exists e,
             map_get (entry_key p) m = Some e
             /\ n = name e
             /\ before = option_map points (last_opt (score e))
             /\ first_points p = Some after
             /\ (forall b, before = Some b -> strict_neq b after = true)
             /\ (exists sp, points sp = after
                   /\ map_get (entry_key p) m' = Some (push_score e sp))
             /\ keys m' = keys m
       | NoChange n pts =>
           m' = m
           /\ exists e l,
                map_get (entry_key p) m = Some e
                /\ n = name e
                /\ last_opt (score e) = Some l
                /\ strict_neq (points l) pts = false
                /\ first_points p = Some pts
       | _ => False
       end.
Proof.
  intros m m' p ev H.
  split; [rewrite <- merge_one_log_map, H; reflexivity|].
  unfold merge_one_log, first_points in *.
  destruct (map_get (entry_key p) m) as [e|] eqn:G;
    destruct (score p) as [|p0 rest] eqn:Hs; try discriminate.
  - destruct (last_opt (score e)) as [l|] eqn:El.
    + destruct (strict_neq (points l) (points p0)) eqn:En;
        injection H as <- <-.
      * exists e. split; [reflexivity|]. split; [reflexivity|].
        split; [now rewrite El|]. split; [reflexivity|]. split; [|split].
        -- intros b Hb. injection Hb as <-. exact En.
        -- eexists. split; [|apply map_get_set_same]. reflexivity.
        -- eapply map_set_present; exact G.
      * split; [reflexivity|]. exists e, l. now repeat split.
    + injection H as <- <-. exists e. split; [reflexivity|].
      split; [reflexivity|]. split; [now rewrite El|]. split; [reflexivity|].
      split; [|split].
      * discriminate.
      * eexists. split; [|apply map_get_set_same]. reflexivity.
      * eapply map_set_present; exact G.
  - injection H as <- <-. repeat split. now apply map_set_absent.
Qed.

Lemma merge_all_log_map (l : list TextEntry) (m : JsMap) (c : Console) :
  fst (merge_all_log m l c) = merge_all m l.
Proof.
  revert m c; induction l as [|p l IH]; intros m c; cbn [merge_all_log merge_all].
  - reflexivity.
  - rewrite <- merge_one_log_map.
    destruct (merge_one_log m p) as [[m' ev]|]; cbn [option_map fst]; [apply IH | reflexivity].
Qed.

Lemma log_event_world (ev : Event) (c : Console) :
  world (log_event ev c) = later 1 (world c).
Proof.
  unfold log_event, now_iso, later. cbn [world]. f_equal. lia.
Qed.

Lemma log_event_events (ev : Event) (c : Console) :
  events (log_event ev c) = events c ++ [ev].
Proof.
  unfold log_event, now_iso, events. cbn [printed]. now rewrite map_app.
Qed.

Lemma later_later (a b : nat) (w : World) : later a (later b w) = later (b + a) w.
Proof. unfold later. cbn [clock reads]. f_equal. lia. Qed.

Lemma later_0 (w : World) : later 0 w = w.
Proof. destruct w. unfold later. cbn [clock reads]. f_equal. lia. Qed.

Lemma merge_one_log_account (m m' : JsMap) (p : TextEntry) (ev : Event) :
  is_reading p -> merge_one_log m p = Some (m', ev) ->
  of_the_loop ev = true
  /\ length m' = (length m + if is_new ev then 1 else 0)%nat
  /\ score_points (map_values m')
     = (score_points (map_values m)
        + if is_new ev || is_updated ev then 1 else 0)%nat.
Proof.
  unfold is_reading, merge_one_log. intros Hr H.
  destruct (map_get (entry_key p) m) as [e|] eqn:G;
    destruct (score p) as [|p0 rest] eqn:Hs; try discriminate.
  - destruct (match last_opt (score e) with
              | Some l => strict_neq (points l) (points p0)
              | None => true
              end); injection H as <- <-; cbn [of_the_loop is_new is_updated is_no_change orb].
    + split; [reflexivity|]. split.
      * rewrite (map_set_same_length m _ _ e G). lia.
      * pose proof (score_points_set m (entry_key p)
                      (push_score e {| timestamp := timestamp p0; points := points p0 |}))
          as Hp.
        rewrite G in Hp. cbn [push_score score] in Hp. rewrite length_app in Hp.
        cbn [length] in Hp. lia.
    + repeat split; lia.
  - injection H as <- <-. cbn [of_the_loop is_new is_updated is_no_change orb].
    split; [reflexivity|]. split.
    + rewrite (map_set_absent _ _ _ G), length_app. reflexivity.
    + pose proof (score_points_set m (entry_key p) p) as Hp. rewrite G, Hs in Hp.
      cbn [length] in *. lia.
Qed.

Lemma merge_one_log_of_the_loop (m m' : JsMap) (p : TextEntry) (ev : Event) :
  merge_one_log m p = Some (m', ev) -> of_the_loop ev = true.
Proof.
  unfold merge_one_log.
  destruct (map_get (entry_key p) m) as [e|]; destruct (score p) as [|p0 rest];
    try discriminate.
  - destruct (match last_opt (score e) with
              | Some l => strict_neq (points l) (points p0)
              | None => true
              end); intros H; injection H as _ <-; reflexivity.
  - intros H. injection H as _ <-. reflexivity.
Qed.

Lemma merge_all_log_runs :
  forall (m : JsMap) (parsedEntries : list TextEntry) (c : Console),
    Forall (fun p => score p <> []) parsedEntries ->
    exists m' c' evs,
      merge_all_log m parsedEntries c = (Some m', c')
      /\ events c' = events c ++ evs
      /\ length evs = length parsedEntries
      /\ forallb of_the_loop evs = true
      /\ world c' = later (length parsedEntries) (world c).
Proof.
  intros m l c Hl. revert m c.
  induction Hl as [|p l Hp Hl IH]; intros m c.
  - exists m, c, []. cbn. rewrite app_nil_r, later_0. repeat split.
  - cbn [merge_all_log].
    destruct (merge_one_some m p Hp) as [m1 Hm1].
    rewrite <- merge_one_log_map in Hm1.
    destruct (merge_one_log m p) as [[m1' ev]|] eqn:E; [|discriminate].
    pose proof (merge_one_log_of_the_loop m m1' p ev E) as Hev.
    destruct (IH m1' (log_event ev c))
      as (m' & c' & evs & Hrun & Hevs & Hn & Hall & Hw).
    exists m', c', (ev :: evs).
    split; [exact Hrun|].
    split; [rewrite Hevs, log_event_events, <- app_assoc; reflexivity|].
    split; [cbn [length]; now rewrite Hn|].
    split; [cbn [forallb]; now rewrite Hev, Hall|].
    rewrite Hw, log_event_world, later_later. reflexivity.
Qed.

Lemma is_reading_scored (p : TextEntry) : is_reading p -> score p <> [].
Proof. unfold is_reading. intros H Hs. now rewrite Hs in H. Qed.

(** X17. The log of the merge loop accounts for what the loop does to the
    map. For parsed entries of one score point each, the loop ends, it logs
    one message for each parsed entry, in their order and each one a new
    entry, an update or no change, and reads the clock once for each. The
    map gains as many entries as new entries are reported, and its entries
    gain together as many score points as new entries and updates are
    reported. *)
Theorem loop_log_accounts_for_the_map :
  forall (m : JsMap) (parsedEntries : list TextEntry) (c : Console),
    Forall is_reading parsedEntries ->
    exists m' c' evs,
      merge_all_log m parsedEntries c = (Some m', c')
      /\ merge_all m parsedEntries = Some m'
      /\ events c' = events c ++ evs
      /\ length evs = length parsedEntries
      /\ forallb of_the_loop evs = true
      /\ length m' = (length m + length (filter is_new evs))%nat
      /\ score_points (map_values m')
         = (score_points (map_values m)
            + length (filter is_new evs) + length (filter is_updated evs))%nat
      /\ world c' = later (length parsedEntries) (world c).
Proof.
  intros m l c Hl. revert m c.
  induction Hl as [|p l Hp Hl IH]; intros m c.
  - exists m, c, []. cbn. rewrite app_nil_r, later_0. repeat split; lia.
  - cbn [merge_all_log].
    destruct (merge_one_log m p) as [[m1 ev]|] eqn:E.
    + pose proof (merge_one_log_account m m1 p ev Hp E) as (Hev & Hlen & Hsp).
      destruct (IH m1 (log_event ev c))
        as (m' & c' & evs & Hrun & Hm & Hevs & Hn & Hall & Hlen' & Hsp' & Hw).
      exists m', c', (ev :: evs).
      assert (Hone : merge_one m p = Some m1)
        by (rewrite <- merge_one_log_map, E; reflexivity).
      split; [exact Hrun|]. split; [cbn [merge_all]; now rewrite Hone|].
      split; [rewrite Hevs, log_event_events, <- app_assoc; reflexivity|].
      split; [cbn [length]; now rewrite Hn|].
      split; [cbn [forallb]; now rewrite Hev, Hall|].
      split; [|split].
      * rewrite Hlen', Hlen. cbn [filter]. destruct (is_new ev); cbn [length]; lia.
      * rewrite Hsp', Hsp. cbn [filter].
        unfold of_the_loop in Hev.
        destruct ev; cbn [is_new is_updated is_no_change orb] in *;
          cbn [length]; try discriminate; lia.
      * rewrite Hw, log_event_world, later_later. reflexivity.
    + exfalso. unfold is_reading in Hp.
      assert (Hnone : merge_one m p = None)
        by (rewrite <- merge_one_log_map, E; reflexivity).
      destruct (merge_one_some m p) as [m1 Hm1]; [|congruence].
      intros Hs. now rewrite Hs in Hp.
Qed.

(* ================================================================== *)
(** ** The whole run                                                   *)
(* ================================================================== *)

Section Outcomes.

Context {api : CheerioAPI}.

Variable DEFAULT_OUT : str.
Variable fetch : str -> FetchResult.
Variable select : str -> str -> list Element.
Variable base_of : str -> option (str -> option str).
Variable read_json : str -> option FileJson.
Variable write_json : str -> Schema -> bool.
Variable localeCompare : str -> str -> Z.

Lemma extracted_merge_log (resolveUrl : str -> option str) (items : list Element)
    (w : World) (m : JsMap) (c : Console) :
  exists m' c' evs,
    merge_all_log m (fst (extract resolveUrl items w)) c = (Some m', c')
    /\ merge_all m (fst (extract resolveUrl items w)) = Some m'
    /\ events c' = events c ++ evs
    /\ length evs = length (fst (extract resolveUrl items w))
    /\ forallb of_the_loop evs = true
    /\ world c' = later (length (fst (extract resolveUrl items w))) (world c).
Proof.
  destruct (merge_all_log_runs m (fst (extract resolveUrl items w)) c)
    as (m' & c' & evs & H1 & H3 & H4 & H5 & H8).
  - eapply Forall_impl; [|apply extract_integer_readings].
    intros p Hp. apply is_reading_scored, integer_reading_is_reading, Hp.
  - exists m', c', evs. split; [exact H1|].
    split; [rewrite <- (merge_all_log_map _ m c), H1; reflexivity|].
    repeat split; assumption.
Qed.

Lemma fail_outcome (why : Failure) (c : Console) :
  exit_code (fail why c) = 1%nat /\ written (fail why c) = None.
Proof. split; reflexivity. Qed.

(** X18. How a run ends. When the fetch rejects or gives a status that is
    not ok, or the page URL is no URL, the run ends with exit code 1 and
    nothing written, whatever the file holds. Otherwise the items are
    parsed, the clock read once for each line logged before, and the file
    is loaded. A file that holds a value that cannot be iterated ends the
    run with exit code 1 and nothing written. With a history in the file,
    or with the empty one when the file cannot be read or parsed, the merge
    with the parsed entries does not throw and gives an array: the run ends
    with exit code 0 and that array written to the output path when the
    write succeeds, and with exit code 1 and nothing written when it fails.
    On any other value in the file the run is not followed. *)
Theorem run_outcome :
  forall (argv : list str) (w : World),
    let pageUrl := arg_or argv 0 DEFAULT_URL in
    let outPath := arg_or argv 1 DEFAULT_OUT in
    let r := main_full DEFAULT_OUT fetch select base_of read_json write_json
               localeCompare argv w in
    match fetchHtml fetch pageUrl, base_of pageUrl with
    | inr html, Some resolveUrl =>
        let primary := select html (lit "ul#textlist li[data-cnt]") in
        let w1 := later (length (logged_first pageUrl primary)) w in
        match loadExisting read_json outPath with
        | Entries existing =>
            exists data o,
              reconcile localeCompare existing
                (fst (extract resolveUrl (select_items select html) w1)) = Some data
              /\ r = Ends o
              /\ if write_json outPath data
                 then exit_code o = 0%nat /\ written o = Some (outPath, data)
                 else exit_code o = 1%nat /\ written o = None
        | NotIterable =>
            exists o, r = Ends o /\ exit_code o = 1%nat /\ written o = None
        | OtherJson => r = NotFollowed
        end
    | _, _ => exists o, r = Ends o /\ exit_code o = 1%nat /\ written o = None
    end.
Proof.
  intros argv w pageUrl outPath r. subst r. unfold main_full.
  fold (arg_or argv 0 DEFAULT_URL). fold (arg_or argv 1 DEFAULT_OUT).
  fold pageUrl. fold outPath.
  destruct (fetchHtml fetch pageUrl) as [why|html];
    [destruct (base_of pageUrl); eexists; (split; [reflexivity | apply fail_outcome])|].
  destruct (base_of pageUrl) as [resolveUrl|];
    [|eexists; split; [reflexivity | apply fail_outcome]].
  cbv zeta.
  set (primary := select html (lit "ul#textlist li[data-cnt]")).
  set (c1 := if (length primary =? 0)%nat then _ else _).
  assert (Hw1 : world c1 = later (length (logged_first pageUrl primary)) w).
  { subst c1. unfold logged_first.
    destruct (str_eqb pageUrl DEFAULT_URL), (length primary =? 0)%nat;
      rewrite ?log_event_world, ?later_later; reflexivity. }
  rewrite Hw1.
  set (w1 := later (length (logged_first pageUrl primary)) w).
  destruct (extract resolveUrl (select_items select html) w1) as [parsed w'] eqn:Ex.
  destruct (loadExisting read_json outPath) as [|existing|].
  - eexists. split; [reflexivity | apply fail_outcome].
  - destruct (extracted_merge_log resolveUrl (select_items select html) w1
                (index_existing existing) {| world := w'; printed := printed c1 |})
      as (m' & c' & evs & Hrun & Hm & _).
    rewrite Ex in Hrun, Hm. cbn [fst] in *. rewrite Hrun.
    exists (sort_by_name localeCompare (map_values m')).
    destruct (write_json outPath _) eqn:Hwr; eexists;
      (split; [unfold reconcile; now rewrite Hm|]);
      (split; [reflexivity|]); split; reflexivity.
  - reflexivity.
Qed.

Lemma extract_world (resolveUrl : str -> option str) (items : list Element)
    (w : World) :
  snd (extract resolveUrl items w)
  = later (length (fst (extract resolveUrl items w))) w.
Proof.
  unfold extract.
  destruct (each_spec resolveUrl items [] w) as (pushed & Hfst & Hts & _ & Hr & Hc).
  rewrite Hfst. cbn [app].
  apply (f_equal (@length _)) in Hts. unfold timestamps in Hts.
  rewrite !length_map, length_seq in Hts.
  destruct (snd (each resolveUrl items [] w)) as [ck rd]. cbn [reads clock] in *.
  unfold later. now rewrite Hts, Hr, Hc.
Qed.

Lemma filter_all {A : Type} (f : A -> bool) (l : list A) :
  forallb f l = true -> filter f l = l.
Proof.
  induction l as [|x l IH]; cbn; [reflexivity|].
  intros H. apply andb_true_iff in H as [-> Hl]. now rewrite IH.
Qed.

Lemma of_the_loop_during_run (evs : list Event) :
  forallb of_the_loop evs = true -> forallb during_run evs = true.
Proof.
  intros H. rewrite forallb_forall in *. intros ev Hev. specialize (H ev Hev).
  now destruct ev.
Qed.

(** X19. What a run logs, when the file cannot be read or parsed, holds a
    value that cannot be iterated, or holds a history. After the warning
    for the default URL, if it is the page URL, and the line of the fetch,
    come the lines of the run, each one the note that the first selector
    found nothing or a message of the merge loop, and then one closing
    line. The closing line is the saved line exactly when the run ends with
    exit code 0, and it then gives the number of entries written and the
    output path; otherwise it is the error line, nothing is written, and
    the error is never that a parsed entry has no score point. The clock
    has been read once for each line and once for each parsed entry, which
    is once for each message of the merge loop unless the file could not be
    iterated. *)
Theorem run_log :
  forall (argv : list str) (w : World),
    let pageUrl := arg_or argv 0 DEFAULT_URL in
    let outPath := arg_or argv 1 DEFAULT_OUT in
    loadExisting read_json outPath <> OtherJson ->
    exists o evs final parsed_count,
      main_full DEFAULT_OUT fetch select base_of read_json write_json
        localeCompare argv w = Ends o
      /\ events (console o)
         = (if str_eqb pageUrl DEFAULT_URL then [DefaultUrlWarning] else [])
           ++ Fetching pageUrl :: evs ++ [final]
      /\ forallb during_run evs = true
      /\ match final with
         | Saved n out =>
             exit_code o = 0%nat
             /\ exists data,
                  written o = Some (outPath, data)
                  /\ n = length data /\ out = outPath
         | Failed why =>
             exit_code o = 1%nat /\ written o = None /\ why <> ScoreMissing
         | _ => False
         end
      /\ world (console o) = later (length (events (console o)) + parsed_count) w
      /\ (final <> Failed HistoryNotIterable ->
          parsed_count = length (filter of_the_loop evs)).
Proof.
  intros argv w pageUrl outPath Hfile. unfold main_full.
  fold (arg_or argv 0 DEFAULT_URL). fold (arg_or argv 1 DEFAULT_OUT).
  fold pageUrl. fold outPath.
  set (c0 := if str_eqb pageUrl DEFAULT_URL then _ else _).
  set (pre := if str_eqb pageUrl DEFAULT_URL then [DefaultUrlWarning] else []).
  assert (H0 : events c0 = pre /\ world c0 = later (length pre) w).
  { subst c0 pre. destruct (str_eqb pageUrl DEFAULT_URL).
    - rewrite log_event_events, log_event_world. split; reflexivity.
    - split; [reflexivity|]. cbn [length world]. now rewrite later_0. }
  destruct H0 as [He0 Hw0].
  destruct (fetchHtml fetch pageUrl) as [why|html] eqn:Hf.
  { eexists _, [], (Failed why), 0%nat. split; [reflexivity|].
    unfold fail. cbn [console exit_code written].
    rewrite !log_event_events, !log_event_world, He0, Hw0, !later_later.
    split; [now rewrite <- app_assoc|]. split; [reflexivity|].
    split; [|split; [|reflexivity]].
    - split; [reflexivity|]. split; [reflexivity|]. unfold fetchHtml in Hf.
      destruct (fetch pageUrl) as [|[] ? ? ?]; inversion Hf; discriminate.
    - f_equal. rewrite !length_app. cbn. lia. }
  cbv zeta.
  set (primary := select html (lit "ul#textlist li[data-cnt]")).
  set (c1 := if (length primary =? 0)%nat then _ else _).
  set (noitems := if (length primary =? 0)%nat then [NoItems] else []).
  assert (H1 : events c1 = pre ++ Fetching pageUrl :: noitems
               /\ world c1 = later (length pre + 1 + length noitems) w
               /\ forallb during_run noitems = true).
  { subst c1 noitems. destruct (length primary =? 0)%nat;
      rewrite !log_event_events, !log_event_world, He0, Hw0, !later_later;
      rewrite <- ?app_assoc; cbn [app length]; repeat split; f_equal; lia. }
  destruct H1 as (He1 & Hw1 & Hn1).
  assert (Hnone : length (filter of_the_loop noitems) = 0%nat)
    by (subst noitems; now destruct (length primary =? 0)%nat).
  destruct (base_of pageUrl) as [resolveUrl|].
  2:{ eexists _, noitems, (Failed BadPageUrl), 0%nat. split; [reflexivity|].
      unfold fail. cbn [console exit_code written].
      rewrite log_event_events, log_event_world, He1, Hw1, later_later.
      split; [now rewrite <- app_assoc|]. split; [exact Hn1|].
      split; [split; [reflexivity | split; [reflexivity | discriminate]]|].
      split; [|intros _; now rewrite Hnone].
      f_equal. repeat first [rewrite length_app | progress cbn [length]]. lia. }
  pose proof (extract_world resolveUrl (select_items select html) (world c1)) as Hw'.
  destruct (extract resolveUrl (select_items select html) (world c1)) as [parsed w'] eqn:Ex.
  cbn [fst snd] in Hw'.
  destruct (loadExisting read_json outPath) as [|existing|]; [| |congruence].
  { eexists _, noitems, (Failed HistoryNotIterable), (length parsed).
    split; [reflexivity|]. unfold fail. cbn [console exit_code written].
    rewrite log_event_events, log_event_world. cbn [world].
    change (events {| world := w'; printed := printed c1 |}) with (events c1).
    rewrite He1, Hw', Hw1, !later_later.
    split; [now rewrite <- app_assoc|]. split; [exact Hn1|].
    split; [split; [reflexivity | split; [reflexivity | discriminate]]|].
    split; [|intros H; congruence].
    f_equal. repeat first [rewrite length_app | progress cbn [length]]. lia. }
  destruct (extracted_merge_log resolveUrl (select_items select html) (world c1)
              (index_existing existing) {| world := w'; printed := printed c1 |})
    as (m' & c' & evs & Hrun & _ & Hevs & Hlen & Hall & Hw2).
  rewrite Ex in Hrun, Hlen, Hw2. cbn [fst snd world] in *. rewrite Hrun.
  change (events {| world := w'; printed := printed c1 |}) with (events c1) in Hevs.
  assert (Hfilter : length (filter of_the_loop (noitems ++ evs)) = length parsed).
  { rewrite filter_app, length_app, (filter_all _ evs Hall), Hlen, Hnone.
    reflexivity. }
  assert (Hduring : forallb during_run (noitems ++ evs) = true)
    by (rewrite forallb_app, Hn1; now apply of_the_loop_during_run).
  destruct (write_json outPath _) eqn:Hwr.
  - eexists _, (noitems ++ evs),
      (Saved (length (sort_by_name localeCompare (map_values m'))) outPath),
      (length parsed).
    split; [reflexivity|]. cbn [console exit_code written].
    rewrite log_event_events, log_event_world, Hevs, He1, Hw2, Hw', Hw1, !later_later.
    split; [now rewrite <- !app_assoc|]. split; [exact Hduring|].
    split; [split; [reflexivity | eexists; repeat split]|].
    split; [|intros _; now rewrite Hfilter].
    f_equal. repeat first [rewrite length_app | progress cbn [length]]. lia.
  - eexists _, (noitems ++ evs), (Failed SaveFailed), (length parsed).
    split; [reflexivity|]. unfold fail. cbn [console exit_code written].
    rewrite log_event_events, log_event_world, Hevs, He1, Hw2, Hw', Hw1, !later_later.
    split; [now rewrite <- !app_assoc|]. split; [exact Hduring|].
    split; [split; [reflexivity | split; [reflexivity | discriminate]]|].
    split; [|intros _; now rewrite Hfilter].
    f_equal. repeat first [rewrite length_app | progress cbn [length]]. lia.
Qed.

(** X20. A page on which neither selector finds an item does not harm a
    history. When the file holds a history, or cannot be read or parsed and
    the history is empty, and the fetch, the page URL and the write are in
    order, the run ends with exit code 0 and writes that history, sorted,
    each entry as it was and of the entries with one identity key the last
    one. It logs the fetch, that the first selector found nothing, and the
    number of entries saved. *)
Theorem run_without_items_keeps_the_history :
  forall (argv : list str) (w : World) (status : nat) (statusText html : str)
         (resolveUrl : str -> option str) (existing : Schema),
    let pageUrl := arg_or argv 0 DEFAULT_URL in
    let outPath := arg_or argv 1 DEFAULT_OUT in
    let data := sort_by_name localeCompare (map_values (index_existing existing)) in
    fetch pageUrl = Response true status statusText html ->
    base_of pageUrl = Some resolveUrl ->
    select html (lit "ul#textlist li[data-cnt]") = [] ->
    select html (lit "li[data-cnt]") = [] ->
    loadExisting read_json outPath = Entries existing ->
    write_json outPath data = true ->
    exists o,
      main_full DEFAULT_OUT fetch select base_of read_json write_json
        localeCompare argv w = Ends o
      /\ exit_code o = 0%nat
      /\ written o = Some (outPath, data)
      /\ (forall e, In e data <-> last_of_key existing e)
      /\ events (console o)
         = (if str_eqb pageUrl DEFAULT_URL then [DefaultUrlWarning] else [])
           ++ [Fetching pageUrl; NoItems; Saved (length data) outPath].
Proof.
  intros argv w status statusText html resolveUrl existing pageUrl outPath data
    Hfetch Hbase Hsel1 Hsel2 Hfile Hwrite.
  assert (Hin : forall e, In e data <-> last_of_key existing e).
  { intros e. subst data. rewrite sort_in. apply index_existing_values. }
  unfold main_full, fetchHtml, select_items.
  fold (arg_or argv 0 DEFAULT_URL). fold (arg_or argv 1 DEFAULT_OUT).
  fold pageUrl. fold outPath.
  rewrite Hfetch, Hbase, Hsel1, Hsel2. cbn [length Nat.eqb extract each ret].
  rewrite Hfile. cbn [merge_all_log]. fold data. rewrite Hwrite.
  eexists. split; [reflexivity|]. cbn [exit_code written console].
  split; [reflexivity|]. split; [reflexivity|]. split; [exact Hin|].
  rewrite !log_event_events.
  destruct (str_eqb pageUrl DEFAULT_URL);
    rewrite ?log_event_events; reflexivity.
Qed.

End Outcomes.

(* ================================================================== *)
(** ** The second and the third strategy on a plain item               *)
(* ================================================================== *)

Lemma digits_then_take (ds post : str) :
  forallb is_digit ds = true -> no_digit_first post = true ->
  takeWhile is_digit (ds ++ post) = ds /\ dropWhile is_digit (ds ++ post) = post.
Proof.
  intros Hd Hp. induction ds as [|d ds IH].
  - destruct post as [|c post]; [now split|]. cbn in Hp |- *.
    apply negb_true_iff in Hp. now rewrite Hp.
  - cbn in Hd |- *. apply andb_true_iff in Hd as [Hd1 Hd2]. rewrite Hd1.
    destruct (IH Hd2) as [-> ->]. now split.
Qed.

Lemma digits_then_five (ds post : str) :
  forallb is_digit ds = true -> (length ds <= 5)%nat ->
  (length ds = 5%nat \/ no_digit_first post = true) ->
  firstn 5 (takeWhile is_digit (ds ++ post)) = ds.
Proof.
  intros Hd Hl [H5 | Hp].
  - assert (Htake : exists more, takeWhile is_digit (ds ++ post) = ds ++ more).
    { clear -Hd. induction ds as [|d ds IH]; [eexists; reflexivity|].
      cbn in Hd |- *. apply andb_true_iff in Hd as [Hd1 Hd2]. rewrite Hd1.
      destruct (IH Hd2) as (more & ->). now exists more. }
    destruct Htake as (more & ->).
    rewrite firstn_app, H5, Nat.sub_diag, firstn_O, app_nil_r.
    rewrite <- H5. apply firstn_all.
  - destruct (digits_then_take ds post Hd Hp) as [-> _]. now apply firstn_all2.
Qed.

Lemma pt_here_at (ds post : str) :
  ds <> [] -> forallb is_digit ds = true -> (length ds <= 5)%nat ->
  (length ds = 5%nat \/ no_digit_first post = true) ->
  Spec.pt_here (lit "pt-" ++ ds ++ post) = Some ds.
Proof.
  intros Hne Hd Hl Hend. unfold Spec.pt_here.
  change (Spec.strip_prefix Spec.same (lit "pt-") (lit "pt-" ++ ds ++ post))
    with (Some (ds ++ post)).
  pose proof (digits_then_five ds post Hd Hl Hend) as H5.
  assert (Hgen : forall run : str,
            firstn 5 run = ds ->
            match run with
            | [] => None
            | x :: xs => Some (firstn 5 (x :: xs))
            end = Some ds).
  { intros [|x xs] H; [cbn in H; congruence | now f_equal]. }
  exact (Hgen _ H5).
Qed.

Lemma pt_here_in_digitless (pre rest : str) :
  pre <> [] -> digitless pre = true ->
  Spec.pt_here (pre ++ lit "pt-" ++ rest) = None.
Proof.
  intros Hne Hpre. unfold Spec.pt_here.
  destruct (Spec.strip_prefix Spec.same (lit "pt-") (pre ++ lit "pt-" ++ rest))
    as [r|] eqn:E; [|reflexivity].
  apply strip_prefix_same in E.
  assert (Hr : takeWhile is_digit r = []).
  { destruct pre as [|a [|b [|c [|d pre]]]]; [congruence| | | |];
      cbn in E; try discriminate E.
    - inversion E. reflexivity.
    - inversion E. subst. unfold digitless in Hpre. cbn [forallb] in Hpre.
      apply andb_true_iff in Hpre as [_ Hpre].
      apply andb_true_iff in Hpre as [_ Hpre].
      apply andb_true_iff in Hpre as [_ Hpre].
      apply andb_true_iff in Hpre as [Hd _]. apply negb_true_iff in Hd.
      cbn [takeWhile]. now rewrite Hd. }
  now rewrite Hr.
Qed.

Lemma pt_token_at (pre ds post : str) :
  digitless pre = true ->
  ds <> [] -> forallb is_digit ds = true -> (length ds <= 5)%nat ->
  (length ds = 5%nat \/ no_digit_first post = true) ->
  Spec.pt_token (pre ++ lit "pt-" ++ ds ++ post) = Some ds.
Proof.
  intros Hpre Hne Hd Hl Hend. induction pre as [|c pre IH].
  - cbn [app].
    destruct (lit "pt-" ++ ds ++ post) eqn:E; cbn [Spec.pt_token]; rewrite <- E;
      now rewrite pt_here_at.
  - change ((c :: pre) ++ lit "pt-" ++ ds ++ post)
      with (c :: (pre ++ lit "pt-" ++ ds ++ post)).
    cbn [Spec.pt_token].
    change (c :: (pre ++ lit "pt-" ++ ds ++ post))
      with ((c :: pre) ++ lit "pt-" ++ ds ++ post).
    rewrite pt_here_in_digitless by (congruence || exact Hpre).
    apply IH. cbn in Hpre. now apply andb_true_iff in Hpre.
Qed.

Lemma number_here_headless (s : str) :
  no_digit_first s = true -> Spec.number_here s = None.
Proof.
  intros H. unfold Spec.number_here.
  destruct s as [|c s]; [reflexivity|]. cbn in H |- *.
  apply negb_true_iff in H. now rewrite H.
Qed.

Lemma markup_scan_at (pre ds post : str) (c : char) :
  digitless pre = true ->
  c = 40%N \/ is_space c = true ->
  ds <> [] -> forallb is_digit ds = true -> (length ds <= 5)%nat ->
  no_digit_first post = true -> Spec.unit_follows post = true ->
  Spec.markup_scan (pre ++ c :: ds ++ post) = Some ds.
Proof.
  intros Hpre Hc Hne Hd Hl Hp Hu.
  assert (Hcd : is_digit c = false).
  { destruct Hc as [-> | Hc]; [reflexivity|].
    destruct (is_digit c) eqn:E; [|reflexivity].
    apply digit_not_space in E. congruence. }
  induction pre as [|x pre IH].
  - cbn [app Spec.markup_scan].
    assert (Hopen : Spec.same_ci 40%N c || is_space c = true).
    { destruct Hc as [-> | Hc]; [reflexivity|]. rewrite Hc. apply orb_true_r. }
    rewrite Hopen. unfold Spec.number_here.
    destruct (digits_then_take ds post Hd Hp) as [-> ->]. rewrite Hu.
    destruct ds as [|d ds]; [congruence|]. cbn [length] in *.
    replace (1 <=? S (length ds))%nat with true by (symmetry; apply Nat.leb_le; lia).
    replace (S (length ds) <=? 5)%nat with true by (symmetry; apply Nat.leb_le; lia).
    reflexivity.
  - cbn in Hpre. apply andb_true_iff in Hpre as [Hx Hpre].
    change ((x :: pre) ++ c :: ds ++ post) with (x :: (pre ++ c :: ds ++ post)).
    cbn [Spec.markup_scan].
    rewrite number_here_headless.
    + destruct (Spec.same_ci 40%N x || is_space x); now apply IH.
    + destruct pre as [|y pre]; cbn [app no_digit_first].
      * now rewrite Hcd.
      * cbn in Hpre. now apply andb_true_iff in Hpre.
Qed.

Section MoreTiers.

Context {api : CheerioAPI}.

(** X21. An item without a digit in its score label whose class names, its
    own and after a space those of its first [div], have no digit before a
    [pt-] that one to five digits follow, has these digits for its points,
    cut after the fifth. The class names of the item itself come before
    those of the [div]. *)
Theorem class_number_is_the_points :
  forall (li : Cheerio) (pre ds post : str),
    digitless (text (first (find (lit "div.punkte") li))) = true ->
    or_empty (attr (lit "class") li) ++ lit " "
      ++ or_empty (attr (lit "class") (find (lit "div") li))
    = pre ++ lit "pt-" ++ ds ++ post ->
    digitless pre = true ->
    ds <> [] -> forallb is_digit ds = true -> (length ds <= 5)%nat ->
    (length ds = 5%nat \/ no_digit_first post = true) ->
    parsePointsFromLi li = Num (digits_value ds).
Proof.
  intros li pre ds post Hlabel Hcls Hpre Hne Hd Hl Hend.
  unfold parsePointsFromLi.
  rewrite label_match, (digitless_first_digit_run _ Hlabel). cbn [option_map].
  rewrite exec_re_pt, Hcls, (pt_token_at pre ds post) by assumption.
  cbn [option_map]. apply parseInt_group_run. repeat split; assumption.
Qed.

(** X22. An item without a digit in its score label and in the class names
    whose inner markup has no digit before an opening parenthesis or a
    white-space character that one to five digits follow, and after them a
    points-unit word, a closing [span] tag or a closing parenthesis, has
    these digits for its points. *)
Theorem markup_number_is_the_points :
  forall (li : Cheerio) (pre ds post : str) (c : char),
    digitless (text (first (find (lit "div.punkte") li))) = true ->
    digitless (or_empty (attr (lit "class") li)) = true ->
    digitless (or_empty (attr (lit "class") (find (lit "div") li))) = true ->
    or_empty (html li) = pre ++ c :: ds ++ post ->
    digitless pre = true ->
    c = 40%N \/ is_space c = true ->
    ds <> [] -> forallb is_digit ds = true -> (length ds <= 5)%nat ->
    no_digit_first post = true -> Spec.unit_follows post = true ->
    parsePointsFromLi li = Num (digits_value ds).
Proof.
  intros li pre ds post c Hlabel Hc1 Hc2 Hhtml Hpre Hc Hne Hd Hl Hp Hu.
  unfold parsePointsFromLi.
  rewrite label_match, (digitless_first_digit_run _ Hlabel). cbn [option_map].
  rewrite exec_re_pt, digitless_pt_token
    by (rewrite !digitless_app, Hc1, Hc2; reflexivity).
  cbn [option_map].
  rewrite exec_re_markup, Hhtml, (markup_scan_at pre ds post c) by assumption.
  cbn [option_map]. apply parseInt_group_run. repeat split; assumption.
Qed.

End MoreTiers.

(* ================================================================== *)
(** ** More runs on the samples                                        *)
(* ================================================================== *)

Module MoreRuns.

Import Tree Sample SampleRun.

(** The names of the sample page as they come and as they are kept. *)
Example names_normalized :
  normalizeName (lit "  Alpha   (neu)
   ") = lit "Alpha (neu)"
  /\ words (lit " a  b ") = [lit "a"; lit "b"].
Proof. split; vm_compute; reflexivity. Qed.

(** The sample page without items: the file with two entries under one url
    is written back with the later one only. *)
Example run_sample :
  option_map written (ended (run [] start)) = Some (Some (out_path, [second_of_two]))
  /\ option_map (fun o => events (console o)) (ended (run [] start))
     = Some [DefaultUrlWarning; Fetching DEFAULT_URL; NoItems; Saved 1 out_path]
  /\ option_map (fun o => map fst (printed (console o))) (ended (run [] start))
     = Some [ lit "2025-01-01 00:00:00.000"; lit "2025-01-01 00:00:00.001";
              lit "2025-01-01 00:00:00.002"; lit "2025-01-01 00:00:00.003" ].
Proof. repeat split; vm_compute; reflexivity. Qed.

(** The same page and a file that holds [null]: the run fails when the file
    is iterated, after the page is fetched, and writes nothing. *)
Example run_on_null_sample :
  option_map exit_code (ended (run_on_null [] start)) = Some 1%nat
  /\ option_map written (ended (run_on_null [] start)) = Some None
  /\ option_map (fun o => events (console o)) (ended (run_on_null [] start))
     = Some [DefaultUrlWarning; Fetching DEFAULT_URL; NoItems;
             Failed HistoryNotIterable].
Proof. repeat split; vm_compute; reflexivity. Qed.

(** X6: the label [ 12 Punkte ] of the first sample item. *)
Lemma score_label_number_is_the_points_witness :
  text (CheerioAPI := api) (first (CheerioAPI := api) (find (CheerioAPI := api) (lit "div.punkte") [li_label_and_class]))
    = lit " " ++ lit "12" ++ lit " Punkte "
  /\ digitless (lit " ") = true
  /\ lit "12" <> []
  /\ forallb is_digit (lit "12") = true
  /\ (length (lit "12") <= 5)%nat
  /\ (length (lit "12") = 5%nat \/ no_digit_first (lit " Punkte ") = true)
  /\ parsePointsFromLi (api := api) [li_label_and_class] = Num (digits_value (lit "12")).
Proof.
  split; [reflexivity|]. split; [reflexivity|]. split; [discriminate|].
  split; [reflexivity|]. split; [simpl; lia|]. split; [right; reflexivity|].
  apply (score_label_number_is_the_points (api := api) [li_label_and_class]
           (lit " ") (lit "12") (lit " Punkte "));
    [reflexivity | reflexivity | discriminate | reflexivity | simpl; lia
    | right; reflexivity].
Defined.

(** X7: the item that has a link and nothing else. *)
Lemma digitless_item_has_no_points_witness :
  digitless (text (CheerioAPI := api) (first (CheerioAPI := api) (find (CheerioAPI := api) (lit "div.punkte") [li_nothing]))) = true
  /\ digitless (or_empty (attr (CheerioAPI := api) (lit "class") [li_nothing])) = true
  /\ digitless (or_empty (attr (CheerioAPI := api) (lit "class") (find (CheerioAPI := api) (lit "div") [li_nothing])))
     = true
  /\ digitless (or_empty (html (CheerioAPI := api) [li_nothing])) = true
  /\ parsePointsFromLi (api := api) [li_nothing] = Num 0.
Proof.
  split; [reflexivity|]. split; [reflexivity|]. split; [reflexivity|].
  split; [reflexivity|].
  apply (digitless_item_has_no_points (api := api) [li_nothing]); reflexivity.
Defined.

(** X9: the sample history with one item seen again and one new item. *)
Lemma reconcile_output_is_a_sorted_history_witness :
  comparator_total compare_ci
  /\ exists out,
       reconcile compare_ci history1 [alpha_renamed7; beta3] = Some out
       /\ NoDup (map entry_key out)
       /\ sorted compare_ci out
       /\ reconcile compare_ci out [] = Some out.
Proof.
  split; [exact Runs.compare_ci_total|].
  eexists. split; [reflexivity|].
  apply (reconcile_output_is_a_sorted_history compare_ci history1 [alpha_renamed7; beta3]);
    [exact Runs.compare_ci_total | reflexivity].
Defined.

(** X11: the new item of that run. *)
Lemma saved_entries_come_from_the_inputs_witness :
  exists out,
    reconcile compare_ci history1 [alpha_renamed7; beta3] = Some out
    /\ In beta3 out
    /\ (exists x, In x (history1 ++ [alpha_renamed7; beta3])
                  /\ entry_key x = entry_key beta3
                  /\ name x = name beta3 /\ url x = url beta3)
    /\ forall sp, In sp (score beta3) ->
         exists x, In x (history1 ++ [alpha_renamed7; beta3])
                   /\ entry_key x = entry_key beta3 /\ In sp (score x).
Proof.
  eexists. split; [reflexivity|]. split; [right; left; reflexivity|].
  eapply (saved_entries_come_from_the_inputs compare_ci history1 [alpha_renamed7; beta3]);
    [reflexivity | right; left; reflexivity].
Defined.

(** X12 *)
Lemma at_most_one_score_point_per_reading_witness :
  Forall is_reading [alpha_renamed7; beta3]
  /\ exists out,
       reconcile compare_ci history1 [alpha_renamed7; beta3] = Some out
       /\ (score_points out <= score_points history1 + length [alpha_renamed7; beta3])%nat.
Proof.
  split; [repeat constructor|].
  apply (at_most_one_score_point_per_reading compare_ci history1 [alpha_renamed7; beta3]).
  repeat constructor.
Defined.

(** X13: the two parsed entries the other way round. *)
Lemma parsed_order_does_not_matter_witness :
  Permutation [alpha_renamed7; beta3] [beta3; alpha_renamed7]
  /\ NoDup (map entry_key [alpha_renamed7; beta3])
  /\ Forall is_reading [alpha_renamed7; beta3]
  /\ exists out out',
       reconcile compare_ci history1 [alpha_renamed7; beta3] = Some out
       /\ reconcile compare_ci history1 [beta3; alpha_renamed7] = Some out'
       /\ Permutation out out'.
Proof.
  assert (Hnd : NoDup (map entry_key [alpha_renamed7; beta3])).
  { constructor; [intros [H | []]; vm_compute in H; discriminate H|].
    constructor; [intros [] | constructor]. }
  split; [apply perm_swap|]. split; [exact Hnd|]. split; [repeat constructor|].
  apply (parsed_order_does_not_matter compare_ci history1
           [alpha_renamed7; beta3] [beta3; alpha_renamed7]);
    [apply perm_swap | exact Hnd | repeat constructor].
Defined.

(** X14: the sample history, a run that sees 7 points and a new item, and a
    run that sees 5 points again. *)
Lemma two_runs_are_one_run_witness :
  Forall is_reading ([alpha_renamed7; beta3] ++ [alpha_renamed5])
  /\ exists out1 out2 out,
       reconcile compare_ci history1 [alpha_renamed7; beta3] = Some out1
       /\ reconcile compare_ci out1 [alpha_renamed5] = Some out2
       /\ reconcile compare_ci history1 ([alpha_renamed7; beta3] ++ [alpha_renamed5])
          = Some out
       /\ Permutation out2 out.
Proof.
  split; [repeat constructor|].
  apply (two_runs_are_one_run compare_ci history1 [alpha_renamed7; beta3] [alpha_renamed5]).
  repeat constructor.
Defined.

(** X15: the first reading of the sample clock. *)
Lemma log_prints_date_and_time_witness :
  free_of 84%N (lit "2025-01-01") = true
  /\ free_of 90%N (lit "2025-01-01") = true
  /\ free_of 90%N (lit "00:00:00.000") = true
  /\ clock start (reads start) = lit "2025-01-01" ++ lit "T" ++ lit "00:00:00.000" ++ lit "Z"
  /\ fst (log (lit "Fetching ...") start)
     = lit "[" ++ lit "2025-01-01" ++ lit " " ++ lit "00:00:00.000" ++ lit "] "
       ++ lit "Fetching ..."
  /\ reads (snd (log (lit "Fetching ...") start)) = S (reads start).
Proof.
  split; [reflexivity|]. split; [reflexivity|]. split; [reflexivity|].
  split; [reflexivity|].
  apply (log_prints_date_and_time (lit "2025-01-01") (lit "00:00:00.000")
           (lit "Fetching ...") start); reflexivity.
Defined.

(** X16: the url of the sample history comes with 7 points under a new name;
    the update is reported under the stored name. *)
Lemma merge_one_log_reports_witness :
  exists m',
    merge_one_log map1 alpha_renamed7 = Some (m', Updated (lit "Alpha") (Some (Num 5)) (Num 7))
    /\ merge_one map1 alpha_renamed7 = Some m'
    /\ exists e,
         map_get (entry_key alpha_renamed7) map1 = Some e
         /\ lit "Alpha" = name e
         /\ Some (Num 5) = option_map points (last_opt (score e))
         /\ first_points alpha_renamed7 = Some (Num 7)
         /\ (forall b, Some (Num 5) = Some b -> strict_neq b (Num 7) = true)
         /\ (exists sp, points sp = Num 7
               /\ map_get (entry_key alpha_renamed7) m' = Some (push_score e sp))
         /\ keys m' = keys map1.
Proof.
  eexists. split; [reflexivity|].
  apply (merge_one_log_reports map1 _ alpha_renamed7
           (Updated (lit "Alpha") (Some (Num 5)) (Num 7))).
  reflexivity.
Defined.

(** X17: a new item, an update and a reading that changes nothing. *)
Lemma loop_log_accounts_for_the_map_witness :
  Forall is_reading [beta3; alpha_renamed7; alpha_renamed7]
  /\ exists m' c' evs,
       merge_all_log map1 [beta3; alpha_renamed7; alpha_renamed7]
         {| world := start; printed := [] |} = (Some m', c')
       /\ merge_all map1 [beta3; alpha_renamed7; alpha_renamed7] = Some m'
       /\ events c' = events {| world := start; printed := [] |} ++ evs
       /\ length evs = length [beta3; alpha_renamed7; alpha_renamed7]
       /\ forallb of_the_loop evs = true
       /\ length m' = (length map1 + length (filter is_new evs))%nat
       /\ score_points (map_values m')
          = (score_points (map_values map1)
             + length (filter is_new evs) + length (filter is_updated evs))%nat
       /\ world c' = later (length [beta3; alpha_renamed7; alpha_renamed7])
                       (world {| world := start; printed := [] |}).
Proof.
  split; [repeat constructor|].
  apply (loop_log_accounts_for_the_map map1 [beta3; alpha_renamed7; alpha_renamed7]
           {| world := start; printed := [] |}).
  repeat constructor.
Defined.

(** X19: the sample page without items and the sample file. *)
Lemma run_log_witness :
  loadExisting read_history (arg_or [] 1 out_path) <> OtherJson
  /\ exists o evs final parsed_count,
       run [] start = Ends o
       /\ events (console o)
          = (if str_eqb (arg_or [] 0 DEFAULT_URL) DEFAULT_URL
             then [DefaultUrlWarning] else [])
            ++ Fetching (arg_or [] 0 DEFAULT_URL) :: evs ++ [final]
       /\ forallb during_run evs = true
       /\ match final with
          | Saved n out =>
              exit_code o = 0%nat
              /\ exists data,
                   written o = Some (arg_or [] 1 out_path, data)
                   /\ n = length data /\ out = arg_or [] 1 out_path
          | Failed why =>
              exit_code o = 1%nat /\ written o = None /\ why <> ScoreMissing
          | _ => False
          end
       /\ world (console o) = later (length (events (console o)) + parsed_count) start
       /\ (final <> Failed HistoryNotIterable ->
           parsed_count = length (filter of_the_loop evs)).
Proof.
  assert (Hfile : loadExisting read_history (arg_or [] 1 out_path) <> OtherJson)
    by (vm_compute; discriminate).
  split; [exact Hfile|].
  exact (run_log (api := api) out_path fetch_ok select_nothing base_ok read_history
           write_ok compare_ci [] start Hfile).
Defined.

(** X20: the sample page without items. *)
Lemma run_without_items_keeps_the_history_witness :
  fetch_ok (arg_or [] 0 DEFAULT_URL)
    = Response true 200 (lit "OK") (lit "<html><body><p>Umbau</p></body></html>")
  /\ base_ok (arg_or [] 0 DEFAULT_URL) = Some keep_href
  /\ select_nothing (lit "<html><body><p>Umbau</p></body></html>")
       (lit "ul#textlist li[data-cnt]") = []
  /\ select_nothing (lit "<html><body><p>Umbau</p></body></html>") (lit "li[data-cnt]") = []
  /\ loadExisting read_history (arg_or [] 1 out_path) = Entries history_duplicate_url
  /\ write_ok (arg_or [] 1 out_path)
       (sort_by_name compare_ci (map_values (index_existing history_duplicate_url)))
     = true
  /\ exists o,
       run [] start = Ends o
       /\ exit_code o = 0%nat
       /\ written o
          = Some (arg_or [] 1 out_path,
                  sort_by_name compare_ci
                    (map_values (index_existing history_duplicate_url)))
       /\ (forall e,
             In e (sort_by_name compare_ci
                     (map_values (index_existing history_duplicate_url)))
             <-> last_of_key history_duplicate_url e)
       /\ events (console o)
          = (if str_eqb (arg_or [] 0 DEFAULT_URL) DEFAULT_URL
             then [DefaultUrlWarning] else [])
            ++ [ Fetching (arg_or [] 0 DEFAULT_URL); NoItems;
                 Saved (length (sort_by_name compare_ci
                                  (map_values (index_existing history_duplicate_url))))
                       (arg_or [] 1 out_path) ].
Proof.
  split; [reflexivity|]. split; [reflexivity|]. split; [reflexivity|].
  split; [reflexivity|]. split; [reflexivity|]. split; [reflexivity|].
  apply (run_without_items_keeps_the_history (api := api) out_path fetch_ok select_nothing
           base_ok read_history write_ok compare_ci [] start 200 (lit "OK")
           (lit "<html><body><p>Umbau</p></body></html>") keep_href
           history_duplicate_url);
    reflexivity.
Defined.

(** X21: the sample item whose [div] has the class names [box pt-1234567]. *)
Lemma class_number_is_the_points_witness :
  digitless (text (CheerioAPI := api)
               (first (CheerioAPI := api)
                  (find (CheerioAPI := api) (lit "div.punkte") [li_class_only]))) = true
  /\ or_empty (attr (CheerioAPI := api) (lit "class") [li_class_only]) ++ lit " "
       ++ or_empty (attr (CheerioAPI := api) (lit "class")
                      (find (CheerioAPI := api) (lit "div") [li_class_only]))
     = lit " box " ++ lit "pt-" ++ lit "12345" ++ lit "67"
  /\ digitless (lit " box ") = true
  /\ lit "12345" <> []
  /\ forallb is_digit (lit "12345") = true
  /\ (length (lit "12345") <= 5)%nat
  /\ (length (lit "12345") = 5%nat \/ no_digit_first (lit "67") = true)
  /\ parsePointsFromLi (api := api) [li_class_only] = Num (digits_value (lit "12345")).
Proof.
  split; [reflexivity|]. split; [reflexivity|]. split; [reflexivity|].
  split; [discriminate|]. split; [reflexivity|]. split; [simpl; lia|].
  split; [left; reflexivity|].
  apply (class_number_is_the_points (api := api) [li_class_only]
           (lit " box ") (lit "12345") (lit "67"));
    [reflexivity | reflexivity | reflexivity | discriminate | reflexivity
    | simpl; lia | left; reflexivity].
Defined.

(** X22: the sample item with [(42)] in a [span]. *)
Lemma markup_number_is_the_points_witness :
  digitless (text (CheerioAPI := api)
               (first (CheerioAPI := api)
                  (find (CheerioAPI := api) (lit "div.punkte") [li_markup_only]))) = true
  /\ digitless (or_empty (attr (CheerioAPI := api) (lit "class") [li_markup_only])) = true
  /\ digitless (or_empty (attr (CheerioAPI := api) (lit "class")
                            (find (CheerioAPI := api) (lit "div") [li_markup_only]))) = true
  /\ or_empty (html (CheerioAPI := api) [li_markup_only])
     = lit "<a href='/c'>Gamma</a><span>" ++ 40%N :: lit "42" ++ lit ")</span>"
  /\ digitless (lit "<a href='/c'>Gamma</a><span>") = true
  /\ (40%N = 40%N \/ is_space 40%N = true)
  /\ lit "42" <> []
  /\ forallb is_digit (lit "42") = true
  /\ (length (lit "42") <= 5)%nat
  /\ no_digit_first (lit ")</span>") = true
  /\ Spec.unit_follows (lit ")</span>") = true
  /\ parsePointsFromLi (api := api) [li_markup_only] = Num (digits_value (lit "42")).
Proof.
  split; [reflexivity|]. split; [reflexivity|]. split; [reflexivity|].
  split; [reflexivity|]. split; [reflexivity|]. split; [left; reflexivity|].
  split; [discriminate|]. split; [reflexivity|]. split; [simpl; lia|].
  split; [reflexivity|]. split; [reflexivity|].
  apply (markup_number_is_the_points (api := api) [li_markup_only]
           (lit "<a href='/c'>Gamma</a><span>") (lit "42") (lit ")</span>") 40%N);
    [reflexivity | reflexivity | reflexivity | reflexivity | reflexivity
    | left; reflexivity | discriminate | reflexivity | simpl; lia
    | reflexivity | reflexivity].
Defined.

End MoreRuns.
